(** * Sequence-to-sequence model with attention: encoder, attention,
      decoder and the decoding loop of the modules file

    The Python module is embedded function by function.  Tensors are nested
    lists (the outermost list is dimension 0); their scalars are real
    numbers, the idealisation of torch's floating-point values: rounding,
    overflow (an [exp] that gives inf, and the NaN that follows) and
    underflow are not modelled.  The statements proved here are about
    shapes, control flow, exceptions and which operation is applied to
    which value; none is about the accuracy of a computed number.  Token
    tensors hold integers.  Exceptions raised by torch or by Python
    indexing are values of [result]; the two random sources of the program
    (Python's [random] module for teacher forcing, torch's generator for
    dropout masks) are explicit state.

    A nested list cannot tell [0 x B x K] from [0 x B' x K']: the few places
    where the source could meet an empty leading dimension are noted at the
    operation concerned. *)

From Stdlib Require Import List Bool Arith ZArith QArith Qreals Reals Lia Lra.
Import ListNotations.

Set Implicit Arguments.

(** ** Exceptions and the two monads *)

Inductive exn : Type :=
| IndexError
| RuntimeError
| AssertionError.

Inductive result (A : Type) : Type :=
| Ok (a : A)
| Raise (e : exn).

Arguments Ok {A} a.
Arguments Raise {A} e.

Declare Scope result_scope.
Delimit Scope result_scope with result.
Declare Scope st_scope.
Delimit Scope st_scope with st.

Module Res.

Definition bind {A B : Type} (r : result A) (k : A -> result B) : result B :=
  match r with
  | Ok a => k a
  | Raise e => Raise e
  end.

(** [map] with a fallible function, left to right. *)
Fixpoint mapM {A B : Type} (f : A -> result B) (l : list A) : result (list B) :=
  match l with
  | [] => Ok []
  | a :: l' =>
      bind (f a) (fun b => bind (mapM f l') (fun bs => Ok (b :: bs)))
  end.

(** Pointwise combination of two lists that must have the same length. *)
Fixpoint zipM {A B C : Type} (f : A -> B -> result C)
         (la : list A) (lb : list B) : result (list C) :=
  match la, lb with
  | [], [] => Ok []
  | a :: la', b :: lb' =>
      bind (f a b) (fun c => bind (zipM f la' lb') (fun cs => Ok (c :: cs)))
  | _, _ => Raise RuntimeError
  end.

End Res.

Notation "x <- c ;; k" := (Res.bind c (fun x => k))
  (at level 61, c at next level, right associativity) : result_scope.
Notation "' pat <- c ;; k" := (Res.bind c (fun x => match x with pat => k end))
  (at level 61, pat pattern, c at next level, right associativity) : result_scope.

(** A computation that reads and advances a state [S] and may raise. *)
Definition St (S A : Type) : Type := S -> result (A * S).

Module StM.

Definition ret {S A : Type} (a : A) : St S A := fun s => Ok (a, s).

Definition bind {S A B : Type} (m : St S A) (k : A -> St S B) : St S B :=
  fun s =>
    match m s with
    | Ok (a, s') => k a s'
    | Raise e => Raise e
    end.

(** A pure fallible step inside a stateful computation. *)
Definition lift {S A : Type} (r : result A) : St S A :=
  fun s =>
    match r with
    | Ok a => Ok (a, s)
    | Raise e => Raise e
    end.

Fixpoint mapM {S A B : Type} (f : A -> St S B) (l : list A) : St S (list B) :=
  match l with
  | [] => ret []
  | a :: l' =>
      bind (f a) (fun b => bind (mapM f l') (fun bs => ret (b :: bs)))
  end.

(** A [for] loop over [l] threading the loop variables [a]. *)
Fixpoint foldM {S A B : Type} (f : A -> B -> St S A) (l : list B) (a : A) : St S A :=
  match l with
  | [] => ret a
  | b :: l' => bind (f a b) (foldM f l')
  end.

End StM.

Notation "x <- c ;; k" := (StM.bind c (fun x => k))
  (at level 61, c at next level, right associativity) : st_scope.
Notation "' pat <- c ;; k" := (StM.bind c (fun x => match x with pat => k end))
  (at level 61, pat pattern, c at next level, right associativity) : st_scope.

(** ** Tensors *)

Definition tensor1 : Type := list R.
Definition tensor2 : Type := list tensor1.
Definition tensor3 : Type := list tensor2.

(** Integer (token) tensors of one and two dimensions. *)
Definition tokens1 : Type := list Z.
Definition tokens2 : Type := list tokens1.

Fixpoint zip_with {A B C : Type} (f : A -> B -> C) (la : list A) (lb : list B) : list C :=
  match la, lb with
  | a :: la', b :: lb' => f a b :: zip_with f la' lb'
  | _, _ => []
  end.

Module torch.

Local Open Scope R_scope.

Definition map3 (f : R -> R) (x : tensor3) : tensor3 := map (map (map f)) x.

Definition exp (x : tensor3) : tensor3 := map3 Rtrigo_def.exp x.

Definition tanh (x : tensor3) : tensor3 := map3 Rtrigo_def.tanh x.

(** [x / c] for a Python number [c]. *)
Definition div_scalar (x : tensor3) (c : R) : tensor3 := map3 (fun v => v / c) x.

Definition zeros1 (n : nat) : tensor1 := repeat 0 n.
Definition zeros2 (r c : nat) : tensor2 := repeat (zeros1 c) r.
(** [torch.zeros(a, b, c)]. *)
Definition zeros (a b c : nat) : tensor3 := repeat (zeros2 b c) a.

Definition add2 (a b : tensor2) : tensor2 := zip_with (zip_with Rplus) a b.
Definition div2 (a b : tensor2) : tensor2 := zip_with (zip_with Rdiv) a b.

(** [torch.sum(x, dim=0)] of a three-dimensional tensor with at least one
    slice.  With no slice torch returns zeros of the inner shape, which the
    empty list does not record; the result is then the empty list, and the
    decoder called on zero source positions raises here where torch
    returns.  Every statement that goes through this operation takes at
    least one slice. *)
Definition sum_dim0 (x : tensor3) : tensor2 :=
  match x with
  | [] => []
  | m :: ms => fold_left add2 ms m
  end.

(** [x / d] where [d] has the shape of one slice of [x]: [d] is broadcast
    along dimension 0. *)
Definition div_bcast0 (x : tensor3) (d : tensor2) : tensor3 :=
  map (fun m => div2 m d) x.

End torch.

(** ** [softmax] *)

Definition default_temperature : R := 10%R.

(** def softmax(x, temperature=10):
        e_x = torch.exp(x / temperature)
        return e_x / torch.sum(e_x, dim=0)
    The source subtracts no maximum before [exp]: in float32 a large
    score overflows to inf and the quotient is NaN, a small one underflows
    to 0.  Over the reals used here none of this shows, so nothing is
    claimed below about the values of the quotients beyond the formula
    that defines them. *)
Definition softmax (x : tensor3) (temperature : R) : tensor3 :=
  let e_x := torch.exp (torch.div_scalar x temperature) in
  torch.div_bcast0 e_x (torch.sum_dim0 e_x).

(** ** The layers of [torch.nn] used by the module *)

(** torch's random generator, as the stream of uniform draws in [0, 1) it
    will produce next. *)
Definition generator : Type := nat -> Q.

Definition Qltb (a b : Q) : bool := negb (Qle_bool b a).

Definition sigmoid (x : R) : R := (1 / (1 + Rtrigo_def.exp (- x)))%R.

Module Linear.

Local Open Scope R_scope.

(** [nn.Linear(in_features, out_features)]: [weight] is
    [out_features x in_features], [bias] has [out_features] entries. *)
Record t : Type := {
  in_features : nat;
  out_features : nat;
  weight : tensor2;
  bias : tensor1
}.

Definition dot (w x : tensor1) : R := fold_right Rplus 0 (zip_with Rmult x w).

(** One feature vector: [x W^T + b]; torch raises when the size of [x]
    is not [in_features]. *)
Definition forward1 (l : t) (x : tensor1) : result tensor1 :=
  if (length x =? in_features l)%nat
  then Ok (zip_with (fun w b => dot w x + b) (weight l) (bias l))
  else Raise RuntimeError.

(** Applied along the last dimension of a three-dimensional input. *)
Definition forward (l : t) (x : tensor3) : result tensor3 :=
  Res.mapM (Res.mapM (forward1 l)) x.

Definition wf (l : t) : bool :=
  (length (weight l) =? out_features l)%nat
  && forallb (fun row => (length row =? in_features l)%nat) (weight l)
  && (length (bias l) =? out_features l)%nat.

End Linear.

Module Embedding.

(** [nn.Embedding(num_embeddings, embedding_dim)]. *)
Record t : Type := {
  num_embeddings : nat;
  embedding_dim : nat;
  weight : tensor2
}.

(** Row lookup; an index outside [0, num_embeddings) raises. *)
Definition forward1 (e : t) (idx : Z) : result tensor1 :=
  if ((0 <=? idx) && (idx <? Z.of_nat (num_embeddings e)))%Z
  then Ok (nth (Z.to_nat idx) (weight e) [])
  else Raise IndexError.

Definition forward (e : t) (idx : tokens2) : result tensor3 :=
  Res.mapM (Res.mapM (forward1 e)) idx.

Definition wf (e : t) : bool :=
  (length (weight e) =? num_embeddings e)%nat
  && forallb (fun row => (length row =? embedding_dim e)%nat) (weight e).

End Embedding.

Module Dropout.

Local Open Scope R_scope.
Local Open Scope st_scope.

(** [nn.Dropout(p)]; [training] is the module's mode flag. *)
Record t : Type := {
  p : Q;
  training : bool
}.

(** One element: kept and rescaled by [1 / (1 - p)] with probability
    [1 - p], zeroed otherwise; consumes one draw of the generator. *)
Definition elt (d : t) (x : R) : St generator R :=
  fun g =>
    let keep := Qltb (g 0%nat) (1 - p d)%Q in
    Ok ((if keep then x / (1 - Q2R (p d)) else 0), fun n => g (S n)).

(** Identity in evaluation mode and for [p = 0]; all zeros for [p = 1];
    otherwise a fresh mask of the shape of [x]. *)
Definition forward (d : t) (x : tensor3) : St generator tensor3 :=
  if negb (training d) || Qeq_bool (p d) 0 then StM.ret x
  else if Qeq_bool (p d) 1 then StM.ret (torch.map3 (fun v => v * 0) x)
  else StM.mapM (StM.mapM (StM.mapM (elt d))) x.

End Dropout.

Module LSTM.

Local Open Scope R_scope.

(** The parameters of one layer and direction: [weight_ih], [bias_ih]
    (a linear map into the [4 * hidden_size] gate pre-activations) and
    [weight_hh], [bias_hh]. *)
Record cell : Type := {
  ih : Linear.t;
  hh : Linear.t
}.

(** [nn.LSTM(input_size, hidden_size, num_layers=, dropout=, bidirectional=)].
    [layers] lists, for each layer, its forward cell followed, when
    bidirectional, by its reverse cell. *)
Record t : Type := {
  input_size : nat;
  hidden_size : nat;
  num_layers : nat;
  dropout : Q;
  bidirectional : bool;
  training : bool;
  layers : list (list cell)
}.

Definition num_directions (m : t) : nat := if bidirectional m then 2 else 1.

(** One time step for one batch element; gates in torch's order
    input, forget, cell, output. *)
Definition cell1 (H : nat) (c : cell) (x h cprev : tensor1) : result (tensor1 * tensor1) :=
  (gi <- Linear.forward1 (ih c) x ;;
   gh <- Linear.forward1 (hh c) h ;;
   let gates := zip_with Rplus gi gh in
   let i := map sigmoid (firstn H gates) in
   let f := map sigmoid (firstn H (skipn H gates)) in
   let g := map Rtrigo_def.tanh (firstn H (skipn (2 * H) gates)) in
   let o := map sigmoid (firstn H (skipn (3 * H) gates)) in
   let c' := zip_with Rplus (zip_with Rmult f cprev) (zip_with Rmult i g) in
   let h' := zip_with Rmult o (map Rtrigo_def.tanh c') in
   Ok (h', c'))%result.

(** The recurrence over the time steps [xs]; the state holds, per batch
    element, the pair (h, c).  Returns the hidden states of all steps and
    the final state. *)
Fixpoint run (H : nat) (c : cell) (xs : tensor3) (st : list (tensor1 * tensor1))
  : result (tensor3 * list (tensor1 * tensor1)) :=
  match xs with
  | [] => Ok ([], st)
  | x :: xs' =>
      (st' <- Res.zipM (fun xb hc => cell1 H c xb (fst hc) (snd hc)) x st ;;
       ' (outs, stN) <- run H c xs' st' ;;
       Ok (map fst st' :: outs, stN))%result
  end.

(** One direction of one layer from the zero initial state: outputs in
    time order, final hidden state, final cell state. *)
Definition direction (H : nat) (reverse : bool) (c : cell) (xs : tensor3) (B : nat)
  : result (tensor3 * tensor2 * tensor2) :=
  (let st0 := repeat (torch.zeros1 H, torch.zeros1 H) B in
   ' (outs, stN) <- run H c (if reverse then rev xs else xs) st0 ;;
   Ok (if reverse then rev outs else outs, map fst stN, map snd stN))%result.

(** One layer: the outputs of its directions are concatenated along the
    feature dimension, the final states are stacked. *)
Definition layer (H : nat) (cells : list cell) (xs : tensor3) (B : nat)
  : result (tensor3 * tensor3 * tensor3) :=
  match cells with
  | [cf] =>
      (' (o, h, c) <- direction H false cf xs B ;;
       Ok (o, [h], [c]))%result
  | [cf; cb] =>
      (' (o1, h1, c1) <- direction H false cf xs B ;;
       ' (o2, h2, c2) <- direction H true cb xs B ;;
       Ok (zip_with (zip_with (@app R)) o1 o2, [h1; h2], [c1; c2]))%result
  | _ => Raise RuntimeError
  end.

(** The stack of layers; between layers (not after the last) dropout is
    applied in training mode. *)
Fixpoint stack (m : t) (ls : list (list cell)) (xs : tensor3) (B : nat)
  : St generator (tensor3 * tensor3 * tensor3) :=
  match ls with
  | [] => StM.ret (xs, [], [])
  | l :: ls' =>
      (' (o, h, c) <- StM.lift (layer (hidden_size m) l xs B) ;;
       match ls' with
       | [] => StM.ret (o, h, c)
       | _ :: _ =>
           o' <- Dropout.forward
                   {| Dropout.p := dropout m; Dropout.training := training m |} o ;;
           ' (oN, hs, cs) <- stack m ls' o' B ;;
           StM.ret (oN, h ++ hs, c ++ cs)
       end)%st
  end.

(** [outputs, (hidden, cell) = rnn(input)] with the default zero initial
    state.  torch rejects an input with no time step. *)
Definition forward (m : t) (input : tensor3) : St generator (tensor3 * tensor3 * tensor3) :=
  match input with
  | [] => StM.lift (Raise RuntimeError)
  | x0 :: _ => stack m (layers m) input (length x0)
  end.

Definition wf_cell (input H : nat) (c : cell) : bool :=
  Linear.wf (ih c) && Linear.wf (hh c)
  && (Linear.in_features (ih c) =? input)%nat
  && (Linear.out_features (ih c) =? 4 * H)%nat
  && (Linear.in_features (hh c) =? H)%nat
  && (Linear.out_features (hh c) =? 4 * H)%nat.

Fixpoint wf_layers (m : t) (input : nat) (ls : list (list cell)) : bool :=
  match ls with
  | [] => true
  | l :: ls' =>
      (length l =? num_directions m)%nat
      && forallb (wf_cell input (hidden_size m)) l
      && wf_layers m (hidden_size m * num_directions m) ls'
  end.

Definition wf (m : t) : bool :=
  (1 <=? num_layers m)%nat
  && (length (layers m) =? num_layers m)%nat
  && wf_layers m (input_size m) (layers m).

End LSTM.

Module GRU.

Local Open Scope R_scope.

(** [nn.GRU(input_size, hidden_size, dropout=)]: one layer, one direction
    (the [dropout] argument has no effect on a single layer). *)
Record t : Type := {
  input_size : nat;
  hidden_size : nat;
  ih : Linear.t;
  hh : Linear.t
}.

(** One time step for one batch element; gates in torch's order
    reset, update, new. *)
Definition cell1 (m : t) (x h : tensor1) : result tensor1 :=
  (gi <- Linear.forward1 (ih m) x ;;
   gh <- Linear.forward1 (hh m) h ;;
   let H := hidden_size m in
   let r := map sigmoid (zip_with Rplus (firstn H gi) (firstn H gh)) in
   let z := map sigmoid (zip_with Rplus (firstn H (skipn H gi)) (firstn H (skipn H gh))) in
   let n := map Rtrigo_def.tanh
                (zip_with Rplus (firstn H (skipn (2 * H) gi))
                          (zip_with Rmult r (firstn H (skipn (2 * H) gh)))) in
   Ok (zip_with Rplus (zip_with (fun zv nv => (1 - zv) * nv) z n) (zip_with Rmult z h)))%result.

Fixpoint run (m : t) (xs : tensor3) (h : tensor2) : result (tensor3 * tensor2) :=
  match xs with
  | [] => Ok ([], h)
  | x :: xs' =>
      (h' <- Res.zipM (cell1 m) x h ;;
       ' (outs, hN) <- run m xs' h' ;;
       Ok (h' :: outs, hN))%result
  end.

(** [output, hidden = rnn(input, h0)]; [h0] must have leading dimension 1. *)
Definition forward (m : t) (input h0 : tensor3) : result (tensor3 * tensor3) :=
  match h0 with
  | [h] =>
      (' (outs, hN) <- run m input h ;;
       Ok (outs, [hN]))%result
  | _ => Raise RuntimeError
  end.

Definition wf (m : t) : bool :=
  Linear.wf (ih m) && Linear.wf (hh m)
  && (Linear.in_features (ih m) =? input_size m)%nat
  && (Linear.out_features (ih m) =? 3 * hidden_size m)%nat
  && (Linear.in_features (hh m) =? hidden_size m)%nat
  && (Linear.out_features (hh m) =? 3 * hidden_size m)%nat.

End GRU.

(** ** Shape-changing tensor operations *)

Module tensor.

Local Open Scope R_scope.

(** [x.repeat(n, 1, 1)]: [n] copies of [x] along dimension 0. *)
Definition repeat0 (x : tensor3) (n : nat) : tensor3 := concat (repeat x n).

(** [torch.cat((a, b), dim=2)]: sizes must agree in dimensions 0 and 1. *)
Definition cat2 (a b : tensor3) : result tensor3 :=
  Res.zipM (Res.zipM (fun u w => Ok (u ++ w))) a b.

(** [torch.cat(ts, dim=2)] for a non-empty tuple of tensors. *)
Fixpoint cat_dim2 (ts : list tensor3) : result tensor3 :=
  match ts with
  | [] => Raise RuntimeError
  | [a] => Ok a
  | a :: ts' => (rest <- cat_dim2 ts' ;; cat2 a rest)%result
  end.

(** Broadcasting of two lists of the same rank along one dimension: equal
    sizes combine pointwise, a size of 1 is stretched, anything else
    raises. *)
Definition bzip {A B C : Type} (f : A -> B -> result C)
           (la : list A) (lb : list B) : result (list C) :=
  if (length la =? length lb)%nat then Res.zipM f la lb
  else match la, lb with
       | [a], _ => Res.mapM (f a) lb
       | _, [b] => Res.mapM (fun a => f a b) la
       | _, _ => Raise RuntimeError
       end.

(** [a * b] on three-dimensional tensors, with broadcasting. *)
Definition mul (a b : tensor3) : result tensor3 :=
  bzip (bzip (bzip (fun u w => Ok (u * w)))) a b.

(** [x.squeeze(0)] of a tensor whose leading dimension is 1.  (On another
    leading size squeeze leaves the tensor three-dimensional; the decoder
    never produces one, its input having exactly one time step.) *)
Definition squeeze0 (x : tensor3) : result tensor2 :=
  match x with
  | [m] => Ok m
  | _ => Raise RuntimeError
  end.

(** [x[-1]] along dimension 0. *)
Definition getitem_last {A : Type} (x : list A) : result A :=
  match rev x with
  | [] => Raise IndexError
  | a :: _ => Ok a
  end.

(** [x[i]] along dimension 0, for [i >= 0]. *)
Definition getitem {A : Type} (x : list A) (i : nat) : result A :=
  match nth_error x i with
  | Some a => Ok a
  | None => Raise IndexError
  end.

(** The value assigned to a slice is broadcast to the shape of the slice. *)
Definition broadcast_row (V : nat) (row : tensor1) : result tensor1 :=
  if (length row =? V)%nat then Ok row
  else match row with
       | [x] => Ok (repeat x V)
       | _ => Raise RuntimeError
       end.

Definition broadcast_to2 (B V : nat) (m : tensor2) : result tensor2 :=
  (rows <- Res.mapM (broadcast_row V) m ;;
   if (length rows =? B)%nat then Ok rows
   else match rows with
        | [r] => Ok (repeat r B)
        | _ => Raise RuntimeError
        end)%result.

(** [x[t] = value] where the slices of [x] have shape [B x V]. *)
Definition setitem (B V : nat) (x : tensor3) (t : nat) (value : tensor2) : result tensor3 :=
  if (t <? length x)%nat
  then (v <- broadcast_to2 B V value ;;
        Ok (firstn t x ++ v :: skipn (S t) x))%result
  else Raise IndexError.

(** Index of the first largest entry, scanning from position [i] with the
    best entry so far [bv] at position [best]. *)
Fixpoint argmax_from (best : nat) (bv : R) (i : nat) (l : tensor1) : nat :=
  match l with
  | [] => best
  | x :: l' =>
      if Rlt_dec bv x then argmax_from i x (S i) l'
      else argmax_from best bv (S i) l'
  end.

Definition argmax1 (row : tensor1) : result Z :=
  match row with
  | [] => Raise IndexError
  | x :: l => Ok (Z.of_nat (argmax_from 0 x 1 l))
  end.

(** [x.argmax(-1)] of a two-dimensional tensor; an empty last dimension
    raises. *)
Definition argmax (x : tensor2) : result tokens1 := Res.mapM argmax1 x.

End tensor.

(** ** [class Encoder] *)

Module Encoder.

Local Open Scope st_scope.

Record t : Type := {
  input_dim : nat;
  emb_dim : nat;
  hid_dim : nat;
  n_layers : nat;
  bidirectional : bool;
  embedding : Embedding.t;
  rnn : LSTM.t;
  dropout : Dropout.t
}.

(** The shapes [__init__] gives the sub-modules. *)
Definition wf (self : t) : bool :=
  Embedding.wf (embedding self)
  && (Embedding.num_embeddings (embedding self) =? input_dim self)%nat
  && (Embedding.embedding_dim (embedding self) =? emb_dim self)%nat
  && LSTM.wf (rnn self)
  && (LSTM.input_size (rnn self) =? emb_dim self)%nat
  && (LSTM.hidden_size (rnn self) =? hid_dim self)%nat
  && (LSTM.num_layers (rnn self) =? n_layers self)%nat
  && Bool.eqb (LSTM.bidirectional (rnn self)) (bidirectional self)
  && Qeq_bool (LSTM.dropout (rnn self)) (Dropout.p (dropout self)).

(** def forward(self, src):
        embedded = self.dropout(self.embedding(src))
        outputs, (hidden, cell) = self.rnn(embedded)
        return outputs, hidden, cell *)
Definition forward (self : t) (src : tokens2)
  : St generator (tensor3 * tensor3 * tensor3) :=
  e <- StM.lift (Embedding.forward (embedding self) src) ;;
  embedded <- Dropout.forward (dropout self) e ;;
  ' (outputs, hidden, cell) <- LSTM.forward (rnn self) embedded ;;
  StM.ret (outputs, hidden, cell).

End Encoder.

(** ** [class Attention] *)

Module Attention.

Local Open Scope result_scope.

Record t : Type := {
  enc_hid_dim : nat;
  dec_hid_dim : nat;
  attn : Linear.t;
  v : Linear.t
}.

(** The shapes [__init__(enc_hid_dim, dec_hid_dim, bidirectional)] gives
    the two linear layers; [1 + bidirectional] is 2 for [True]. *)
Definition wf (bidirectional : bool) (self : t) : bool :=
  Linear.wf (attn self) && Linear.wf (v self)
  && (Linear.in_features (attn self)
      =? (1 + (if bidirectional then 1 else 0)) * enc_hid_dim self + dec_hid_dim self)%nat
  && (Linear.out_features (attn self) =? enc_hid_dim self)%nat
  && (Linear.in_features (v self) =? enc_hid_dim self)%nat
  && (Linear.out_features (v self) =? 1)%nat.

(** The argument of [softmax] in [forward]: [self.v(energy)]. *)
Definition scores (self : t) (hidden encoder_outputs : tensor3) : result tensor3 :=
  let hidden := tensor.repeat0 hidden (length encoder_outputs) in
  conc <- tensor.cat_dim2 [encoder_outputs; hidden] ;;
  e <- Linear.forward (attn self) conc ;;
  let energy := torch.tanh e in
  Linear.forward (v self) energy.

(** def forward(self, hidden, encoder_outputs):
        hidden = hidden.repeat(encoder_outputs.shape[0], 1, 1)
        conc = torch.cat((encoder_outputs, hidden), dim=2)
        energy = F.tanh(self.attn(conc))
        a_t = softmax(self.v(energy))
        return a_t
    [softmax] is called without a temperature, hence with its default. *)
Definition forward (self : t) (hidden encoder_outputs : tensor3) : result tensor3 :=
  x <- scores self hidden encoder_outputs ;;
  let a_t := softmax x default_temperature in
  Ok a_t.

End Attention.

(** ** [class DecoderWithAttention] *)

Module DecoderWithAttention.

Local Open Scope st_scope.

Record t : Type := {
  emb_dim : nat;
  enc_hid_dim : nat;
  dec_hid_dim : nat;
  output_dim : nat;
  attention : Attention.t;
  embedding : Embedding.t;
  rnn : GRU.t;
  out : Linear.t;
  dropout : Dropout.t
}.

(** The shapes [__init__] gives the sub-modules, for the [bidirectional]
    flag it was called with. *)
Definition wf (bidirectional : bool) (self : t) : bool :=
  let enc_out := ((1 + (if bidirectional then 1 else 0)) * enc_hid_dim self)%nat in
  Embedding.wf (embedding self)
  && (Embedding.num_embeddings (embedding self) =? output_dim self)%nat
  && (Embedding.embedding_dim (embedding self) =? emb_dim self)%nat
  && GRU.wf (rnn self)
  && (GRU.input_size (rnn self) =? emb_dim self + enc_out)%nat
  && (GRU.hidden_size (rnn self) =? dec_hid_dim self)%nat
  && Linear.wf (out self)
  && (Linear.in_features (out self) =? emb_dim self + enc_out + dec_hid_dim self)%nat
  && (Linear.out_features (out self) =? output_dim self)%nat.

(** def forward(self, input, hidden, encoder_outputs):
        input = input.unsqueeze(0)
        embedded = self.dropout(self.embedding(input))
        a_t = self.attention(hidden, encoder_outputs)
        w_t = torch.sum(a_t * encoder_outputs, dim=0, keepdim=True)
        output, hidden = self.rnn(torch.cat((embedded, w_t), dim=2), hidden)
        prediction = self.out(torch.cat((embedded, w_t, output), dim=2))
        prediction = prediction.squeeze(0)
        return prediction, hidden *)
Definition forward (self : t) (input : tokens1) (hidden encoder_outputs : tensor3)
  : St generator (tensor2 * tensor3) :=
  let input := [input] in
  e <- StM.lift (Embedding.forward (embedding self) input) ;;
  embedded <- Dropout.forward (dropout self) e ;;
  a_t <- StM.lift (Attention.forward (attention self) hidden encoder_outputs) ;;
  weighted <- StM.lift (tensor.mul a_t encoder_outputs) ;;
  let w_t := [torch.sum_dim0 weighted] in
  rnn_in <- StM.lift (tensor.cat_dim2 [embedded; w_t]) ;;
  ' (output, hidden) <- StM.lift (GRU.forward (rnn self) rnn_in hidden) ;;
  out_in <- StM.lift (tensor.cat_dim2 [embedded; w_t; output]) ;;
  prediction <- StM.lift (Linear.forward (out self) out_in) ;;
  prediction <- StM.lift (tensor.squeeze0 prediction) ;;
  StM.ret (prediction, hidden).

End DecoderWithAttention.

(** ** [class Seq2Seq] *)

(** The state the decoding loop runs in: the draws Python's [random.random()]
    will return next, and torch's generator. *)
Record world : Type := {
  py_random : nat -> Q;
  torch_rng : generator
}.

Definition M (A : Type) : Type := St world A.

(** [random.random()]: the next draw, a float in [0, 1). *)
Definition random_random : M Q :=
  fun w =>
    Ok (py_random w 0%nat,
        {| py_random := fun n => py_random w (S n); torch_rng := torch_rng w |}).

(** A call into a torch module: it may use torch's generator and nothing
    else of the state. *)
Definition call {A : Type} (m : St generator A) : M A :=
  fun w =>
    match m (torch_rng w) with
    | Ok (a, g) => Ok (a, {| py_random := py_random w; torch_rng := g |})
    | Raise e => Raise e
    end.

(** What [Seq2Seq] uses of the encoder and decoder objects it is given:
    that they can be called, and the decoder's [output_dim] attribute. *)
Class EncoderModule (E : Type) : Type := {
  encoder_call : E -> tokens2 -> St generator (tensor3 * tensor3 * tensor3)
}.

Class DecoderModule (D : Type) : Type := {
  decoder_call : D -> tokens1 -> tensor3 -> tensor3 -> St generator (tensor2 * tensor3);
  decoder_output_dim : D -> nat
}.

#[global] Instance Encoder_module : EncoderModule Encoder.t :=
  {| encoder_call := Encoder.forward |}.

#[global] Instance DecoderWithAttention_module : DecoderModule DecoderWithAttention.t :=
  {| decoder_call := DecoderWithAttention.forward;
     decoder_output_dim := DecoderWithAttention.output_dim |}.

Inductive device_t : Type :=
| cpu
| cuda.

Module Seq2Seq.

Local Open Scope st_scope.

Record t (E D : Type) : Type := {
  encoder : E;
  decoder : D;
  device : device_t
}.

(** def __init__(self, encoder, decoder, device): stores its arguments.
    The assertion on the hidden dimensions is commented out in the source,
    so nothing here can raise. *)
Definition init {E D : Type} (encoder : E) (decoder : D) (device : device_t)
  : result (t E D) :=
  Ok {| encoder := encoder; decoder := decoder; device := device |}.

Definition default_teacher_forcing_ratio : Q := 0.5%Q.

(** The variables that live across iterations of the loop. *)
Record loop_state : Type := {
  input : tokens1;
  hidden : tensor3;
  outputs : tensor3
}.

Section Forward.

Context {E D : Type} `{EncoderModule E} `{DecoderModule D}.
Variable self : t E D.
Variables src trg : tokens2.
Variable teacher_forcing_ratio : Q.

Definition batch_size : nat := length (hd [] trg).
Definition trg_len : nat := length trg.
Definition trg_vocab_size : nat := decoder_output_dim (decoder self).

(** Everything before the loop:
        outputs = torch.zeros(trg_len, batch_size, trg_vocab_size).to(self.device)
        enc_states, hidden, cell = self.encoder(src)
        hidden = hidden[-1].unsqueeze(0)
        input = trg[0,:] *)
Definition prologue : M (tensor3 * loop_state) :=
  let outputs := torch.zeros trg_len batch_size trg_vocab_size in
  ' (enc_states, hidden, cell) <- call (encoder_call (encoder self) src) ;;
  last <- StM.lift (tensor.getitem_last hidden) ;;
  let hidden := [last] in
  input <- StM.lift (tensor.getitem trg 0) ;;
  StM.ret (enc_states, {| input := input; hidden := hidden; outputs := outputs |}).

(** The body of the loop at time step [t]:
        output, hidden = self.decoder(input, hidden, enc_states)
        outputs[t] = output
        teacher_force = random.random() < teacher_forcing_ratio
        top1 = output.argmax(-1)
        input = trg[t] if teacher_force else top1 *)
Definition body (enc_states : tensor3) (st : loop_state) (t : nat) : M loop_state :=
  ' (output, hidden) <- call (decoder_call (decoder self) (input st) (hidden st) enc_states) ;;
  outputs <- StM.lift (tensor.setitem batch_size trg_vocab_size (outputs st) t output) ;;
  r <- random_random ;;
  let teacher_force := Qltb r teacher_forcing_ratio in
  top1 <- StM.lift (tensor.argmax output) ;;
  input <- (if teacher_force then StM.lift (tensor.getitem trg t) else StM.ret top1) ;;
  StM.ret {| input := input; hidden := hidden; outputs := outputs |}.

(** The prologue followed by the iterations [for t in range(1, stop)]: the
    loop variables on entry to iteration [stop]. *)
Definition loop_until (stop : nat) : M loop_state :=
  ' (enc_states, st) <- prologue ;;
  StM.foldM (body enc_states) (seq 1 (stop - 1)) st.

(** def forward(self, src, trg, teacher_forcing_ratio = 0.5):
        ...
        for t in range(1, trg_len): ...
        return outputs *)
Definition forward : M tensor3 :=
  st <- loop_until trg_len ;;
  StM.ret (outputs st).

End Forward.

(** The configuration the two modules must share for a forward pass to go
    through: the attention and the decoder are built for the encoder's
    width and direction count, and the decoder's hidden width is the
    encoder's [hid_dim]. *)
Definition compatible (self : t Encoder.t DecoderWithAttention.t) : bool :=
  let enc := encoder self in
  let dec := decoder self in
  let att := DecoderWithAttention.attention dec in
  Encoder.wf enc
  && DecoderWithAttention.wf (Encoder.bidirectional enc) dec
  && Attention.wf (Encoder.bidirectional enc) att
  && (DecoderWithAttention.enc_hid_dim dec =? Encoder.hid_dim enc)%nat
  && (Attention.enc_hid_dim att =? Encoder.hid_dim enc)%nat
  && (DecoderWithAttention.dec_hid_dim dec =? Encoder.hid_dim enc)%nat
  && (Attention.dec_hid_dim att =? Encoder.hid_dim enc)%nat
  && (1 <=? DecoderWithAttention.output_dim dec)%nat.

End Seq2Seq.

(** ** Shapes and valid inputs, as boolean checks *)

Definition is_shape1 (n : nat) (v : tensor1) : bool := (length v =? n)%nat.

Definition is_shape2 (r c : nat) (m : tensor2) : bool :=
  (length m =? r)%nat && forallb (is_shape1 c) m.

Definition is_shape3 (a b c : nat) (x : tensor3) : bool :=
  (length x =? a)%nat && forallb (is_shape2 b c) x.

(** A token tensor of shape [len x batch] with all tokens in [0, vocab). *)
Definition is_tokens (len batch vocab : nat) (x : tokens2) : bool :=
  (length x =? len)%nat
  && forallb (fun row =>
                (length row =? batch)%nat
                && forallb (fun k => (0 <=? k)%Z && (k <? Z.of_nat vocab)%Z) row) x.

(** ** Small concrete models, used to run the definitions *)

Module Example.

Local Open Scope R_scope.

(** Layers with every parameter equal to [c]. *)
Definition linear (i o : nat) (c : R) : Linear.t :=
  {| Linear.in_features := i; Linear.out_features := o;
     Linear.weight := repeat (repeat c i) o; Linear.bias := repeat c o |}.

Definition embedding (n d : nat) (c : R) : Embedding.t :=
  {| Embedding.num_embeddings := n; Embedding.embedding_dim := d;
     Embedding.weight := repeat (repeat c d) n |}.

Definition lstm_cell (i h : nat) (c : R) : LSTM.cell :=
  {| LSTM.ih := linear i (4 * h) c; LSTM.hh := linear h (4 * h) c |}.

Definition no_dropout : Dropout.t := {| Dropout.p := 0; Dropout.training := false |}.

(** An encoder over a vocabulary of [vocab] tokens, with one layer of
    width [h], embeddings of width [e]. *)
Definition encoder (vocab e h : nat) (bidirectional : bool) : Encoder.t :=
  {| Encoder.input_dim := vocab; Encoder.emb_dim := e; Encoder.hid_dim := h;
     Encoder.n_layers := 1; Encoder.bidirectional := bidirectional;
     Encoder.embedding := embedding vocab e 0;
     Encoder.rnn :=
       {| LSTM.input_size := e; LSTM.hidden_size := h; LSTM.num_layers := 1;
          LSTM.dropout := 0; LSTM.bidirectional := bidirectional;
          LSTM.training := false;
          LSTM.layers :=
            [if bidirectional then [lstm_cell e h 0; lstm_cell e h 0]
             else [lstm_cell e h 0]] |};
     Encoder.dropout := no_dropout |}.

Definition attention (enc_hid dec_hid : nat) (bidirectional : bool) : Attention.t :=
  {| Attention.enc_hid_dim := enc_hid; Attention.dec_hid_dim := dec_hid;
     Attention.attn :=
       linear ((1 + (if bidirectional then 1 else 0)) * enc_hid + dec_hid) enc_hid 0;
     Attention.v := linear enc_hid 1 0 |}.

Definition decoder (vocab e enc_hid dec_hid : nat) (bidirectional : bool)
  : DecoderWithAttention.t :=
  let enc_out := ((1 + (if bidirectional then 1 else 0)) * enc_hid)%nat in
  {| DecoderWithAttention.emb_dim := e;
     DecoderWithAttention.enc_hid_dim := enc_hid;
     DecoderWithAttention.dec_hid_dim := dec_hid;
     DecoderWithAttention.output_dim := vocab;
     DecoderWithAttention.attention := attention enc_hid dec_hid bidirectional;
     DecoderWithAttention.embedding := embedding vocab e 0;
     DecoderWithAttention.rnn :=
       {| GRU.input_size := e + enc_out; GRU.hidden_size := dec_hid;
          GRU.ih := linear (e + enc_out) (3 * dec_hid) 0;
          GRU.hh := linear dec_hid (3 * dec_hid) 0 |};
     DecoderWithAttention.out := linear (e + enc_out + dec_hid) vocab 0;
     DecoderWithAttention.dropout := no_dropout |}.

(** A model over two-token vocabularies, all widths 1. *)
Definition model : Seq2Seq.t Encoder.t DecoderWithAttention.t :=
  {| Seq2Seq.encoder := encoder 2 1 1 false;
     Seq2Seq.decoder := decoder 2 1 1 1 false;
     Seq2Seq.device := cpu |}.

(** The same with a target vocabulary of a single token. *)
Definition model1 : Seq2Seq.t Encoder.t DecoderWithAttention.t :=
  {| Seq2Seq.encoder := encoder 2 1 1 false;
     Seq2Seq.decoder := decoder 1 1 1 1 false;
     Seq2Seq.device := cpu |}.

Definition trg3_zero : tokens2 := [[0%Z]; [0%Z]; [0%Z]].

(** A bidirectional encoder of two layers, all widths 1. *)
Definition deep_encoder : Encoder.t :=
  {| Encoder.input_dim := 2; Encoder.emb_dim := 1; Encoder.hid_dim := 1;
     Encoder.n_layers := 2; Encoder.bidirectional := true;
     Encoder.embedding := embedding 2 1 0;
     Encoder.rnn :=
       {| LSTM.input_size := 1; LSTM.hidden_size := 1; LSTM.num_layers := 2;
          LSTM.dropout := 0; LSTM.bidirectional := true;
          LSTM.training := false;
          LSTM.layers :=
            [[lstm_cell 1 1 0; lstm_cell 1 1 0]; [lstm_cell 2 1 0; lstm_cell 2 1 0]] |};
     Encoder.dropout := no_dropout |}.

(** A model with a bidirectional encoder; all widths 1. *)
Definition bidirectional_model : Seq2Seq.t Encoder.t DecoderWithAttention.t :=
  {| Seq2Seq.encoder := encoder 2 1 1 true;
     Seq2Seq.decoder := decoder 2 1 1 1 true;
     Seq2Seq.device := cpu |}.

(** A model whose decoder scores token 1 above token 0 whatever it is
    given: the output layer has zero weights and bias [[0; 1]]. *)
Definition greedy_decoder : DecoderWithAttention.t :=
  {| DecoderWithAttention.emb_dim := 1;
     DecoderWithAttention.enc_hid_dim := 1;
     DecoderWithAttention.dec_hid_dim := 1;
     DecoderWithAttention.output_dim := 2;
     DecoderWithAttention.attention := attention 1 1 false;
     DecoderWithAttention.embedding := embedding 2 1 0;
     DecoderWithAttention.rnn :=
       {| GRU.input_size := 2; GRU.hidden_size := 1;
          GRU.ih := linear 2 3 0; GRU.hh := linear 1 3 0 |};
     DecoderWithAttention.out :=
       {| Linear.in_features := 3; Linear.out_features := 2;
          Linear.weight := [[0; 0; 0]; [0; 0; 0]]; Linear.bias := [0; 1] |};
     DecoderWithAttention.dropout := no_dropout |}.

Definition greedy_model : Seq2Seq.t Encoder.t DecoderWithAttention.t :=
  {| Seq2Seq.encoder := encoder 2 1 1 false;
     Seq2Seq.decoder := greedy_decoder;
     Seq2Seq.device := cpu |}.

(** A source of two steps and targets of one to three steps, batch of 1. *)
Definition src : tokens2 := [[0%Z]; [1%Z]].
Definition trg1 : tokens2 := [[0%Z]].
Definition trg2 : tokens2 := [[0%Z]; [1%Z]].
Definition trg3 : tokens2 := [[0%Z]; [1%Z]; [0%Z]].

(** A state whose every draw, of either source, is [u]. *)
Definition constant_world (u : Q) : world :=
  {| py_random := fun _ => u; torch_rng := fun _ => u |}.

(** A state whose first [k] draws of [random.random()] are [u] and whose
    later ones are [u']; torch's generator always gives [u]. *)
Definition switching_world (k : nat) (u u' : Q) : world :=
  {| py_random := fun n => if (n <? k)%nat then u else u'; torch_rng := fun _ => u |}.

(** An attention of widths 1 whose score at a source position is the
    [tanh] of the encoder output there. *)
Definition probe_attention : Attention.t :=
  {| Attention.enc_hid_dim := 1; Attention.dec_hid_dim := 1;
     Attention.attn :=
       {| Linear.in_features := 2; Linear.out_features := 1;
          Linear.weight := [[1; 0]]; Linear.bias := [0] |};
     Attention.v :=
       {| Linear.in_features := 1; Linear.out_features := 1;
          Linear.weight := [[1]]; Linear.bias := [0] |} |}.

Definition probe_hidden : tensor3 := [[[0]]].
Definition probe_encoder_outputs : tensor3 := [[[0]]; [[1]]].

(** An encoder of hidden width 2 and a decoder of hidden width 3. *)
Definition narrow_encoder : Encoder.t := encoder 2 1 2 false.
Definition wide_decoder : DecoderWithAttention.t := decoder 2 1 2 3 false.

Definition mismatched_model : Seq2Seq.t Encoder.t DecoderWithAttention.t :=
  {| Seq2Seq.encoder := narrow_encoder;
     Seq2Seq.decoder := wide_decoder;
     Seq2Seq.device := cpu |}.

End Example.


(** ** Vocabulary of the statements *)

(** What a computation returned, without the state it left. *)
Definition returned {A S : Type} (r : result (A * S)) : result A :=
  match r with
  | Ok (a, _) => Ok a
  | Raise e => Raise e
  end.

Definition is_ok {A : Type} (r : result A) : bool :=
  match r with
  | Ok _ => true
  | Raise _ => false
  end.

(** A list of [n] elements that all satisfy [P]; shapes are nested uses. *)
Definition sized {A : Type} (P : A -> Prop) (n : nat) (l : list A) : Prop :=
  length l = n /\ Forall P l.

Definition shape1 (n : nat) (v : tensor1) : Prop := length v = n.
Definition shape2 (r c : nat) (m : tensor2) : Prop := sized (shape1 c) r m.
Definition shape3 (a b c : nat) (x : tensor3) : Prop := sized (shape2 b c) a x.

(** Shape and sign together: a [b x c] matrix with entries satisfying [P]. *)
Definition entries2 (P : R -> Prop) (b c : nat) (m : tensor2) : Prop :=
  sized (sized P c) b m.

(** The entry at position [(s, b, k)], the entries along dimension 0 at
    [(b, k)], and the sum of a list of reals. *)
Definition entry (x : tensor3) (s b k : nat) : R :=
  nth k (nth b (nth s x []) []) 0%R.

Definition column (x : tensor3) (b k : nat) : list R :=
  map (fun m => nth k (nth b m []) 0%R) x.

Definition Rsum (l : list R) : R := fold_right Rplus 0%R l.

(** A recurrent state: per batch element a pair of vectors of width [H]. *)
Definition state_pair (H : nat) (hc : tensor1 * tensor1) : Prop :=
  shape1 H (fst hc) /\ shape1 H (snd hc).

(** The number of directions of an encoder. *)
Definition directions (bidirectional : bool) : nat := if bidirectional then 2 else 1.

(** The initial decoder state the commented-out line 161 of the source
    would build, covering both directions of the last layer:
    [torch.cat((hidden[-2], hidden[-1]), dim=1).unsqueeze(0)]. *)
Definition both_directions (hidden : tensor3) : result tensor3 :=
  match rev hidden with
  | bwd :: fwd :: _ => Ok [zip_with (@app R) fwd bwd]
  | _ => Raise IndexError
  end.

(** A torch computation that neither reads nor advances the generator:
    from every generator it gives the same outcome and hands the generator
    back as it was. *)
Definition leaves_generator {A : Type} (m : St generator A) : Prop :=
  exists r : result A, forall g, m g = StM.lift r g.

(** The mode [model.eval()] puts the modules of a model in. *)
Definition eval_mode (self : Seq2Seq.t Encoder.t DecoderWithAttention.t) : bool :=
  negb (Dropout.training (Encoder.dropout (Seq2Seq.encoder self)))
  && negb (LSTM.training (Encoder.rnn (Seq2Seq.encoder self)))
  && negb (Dropout.training (DecoderWithAttention.dropout (Seq2Seq.decoder self))).

(** Two runs that raised the same exception or returned the same value,
    leaving states with the same next [k] draws of [random.random()];
    torch's generator is not compared. *)
Definition same_result {A : Type} (k : nat) (r1 r2 : result (A * world)) : Prop :=
  match r1, r2 with
  | Ok (a1, s1), Ok (a2, s2) =>
      a1 = a2 /\ forall n, (n < k)%nat -> py_random s1 n = py_random s2 n
  | Raise e1, Raise e2 => e1 = e2
  | _, _ => False
  end.

(** [k] is the index of the first largest entry of [row]: what
    [argmax(-1)] returns for a row of numbers. *)
Definition first_largest (row : tensor1) (k : Z) : Prop :=
  exists i,
    k = Z.of_nat i /\ (i < length row)%nat
    /\ (forall j, (j < length row)%nat -> (nth j row 0 <= nth i row 0)%R)
    /\ (forall j, (j < i)%nat -> (nth j row 0 < nth i row 0)%R).

(** [tok] holds, for every batch element, the index of the first largest
    score of that element. *)
Definition is_argmax (scores : tensor2) (tok : tokens1) : Prop :=
  Forall2 first_largest scores tok.

(** The input the last layer of an LSTM receives when the stack [ls] runs
    on [xs]: the output of the layers below it, with the dropout between
    layers applied. *)
Fixpoint last_layer_input (m : LSTM.t) (ls : list (list LSTM.cell)) (xs : tensor3)
         (B : nat) : St generator tensor3 :=
  match ls with
  | [] => StM.ret xs
  | l :: ls' =>
      match ls' with
      | [] => StM.ret xs
      | _ :: _ =>
          (' (o, _, _) <- StM.lift (LSTM.layer (LSTM.hidden_size m) l xs B) ;;
           o' <- Dropout.forward
                   {| Dropout.p := LSTM.dropout m; Dropout.training := LSTM.training m |} o ;;
           last_layer_input m ls' o' B)%st
      end
  end.

(** The input of the last layer of the encoder's LSTM in the run of the
    encoder on [src]. *)
Definition Encoder_last_layer_input (self : Encoder.t) (src : tokens2)
  : St generator tensor3 :=
  (e <- StM.lift (Embedding.forward (Encoder.embedding self) src) ;;
   embedded <- Dropout.forward (Encoder.dropout self) e ;;
   last_layer_input (Encoder.rnn self) (LSTM.layers (Encoder.rnn self)) embedded
                    (length (hd [] embedded)))%st.

(** The last direction of the last layer of an LSTM: whether it runs over
    the sequence in reverse, and its cell.  It is the backward direction
    for a bidirectional LSTM and the only direction otherwise. *)
Definition last_direction (m : LSTM.t) : option (bool * LSTM.cell) :=
  match last (LSTM.layers m) [], LSTM.bidirectional m with
  | [cf], false => Some (false, cf)
  | [_; cb], true => Some (true, cb)
  | _, _ => None
  end.

(** A token in the range of a vocabulary of [vocab] entries. *)
Definition in_vocab (vocab : nat) (k : Z) : Prop := (0 <= k < Z.of_nat vocab)%Z.

(** What holds of the loop variables of [forward] at every iteration, for a
    target of [len] steps, a batch of [batch], a target vocabulary of
    [vocab] tokens and a hidden width [H]. *)
Definition valid_loop_state (len batch vocab H : nat) (st : Seq2Seq.loop_state) : Prop :=
  sized (in_vocab vocab) batch (Seq2Seq.input st)
  /\ shape3 1 batch H (Seq2Seq.hidden st)
  /\ shape3 len batch vocab (Seq2Seq.outputs st).

(** In the call of [forward] from state [w], [t] is an iteration of the
    loop [for t in range(1, trg_len)], it is reached, and there the decoder
    is called with the tokens [tok] and returns the scores [scores]. *)
Definition decoder_step {E D : Type} `{EncoderModule E} `{DecoderModule D}
           (self : Seq2Seq.t E D) (src trg : tokens2) (ratio : Q) (w : world)
           (t : nat) (tok : tokens1) (scores : tensor2) : Prop :=
  exists enc st0 w0 st w1 hid g,
    (1 <= t <= Seq2Seq.trg_len trg - 1)%nat
    /\ Seq2Seq.prologue self src trg w = Ok ((enc, st0), w0)
    /\ Seq2Seq.loop_until self src trg ratio t w = Ok (st, w1)
    /\ Seq2Seq.input st = tok
    /\ decoder_call (Seq2Seq.decoder self) tok (Seq2Seq.hidden st) enc (torch_rng w1)
       = Ok ((scores, hid), g).

(** A fallible computation that succeeds with a value satisfying [Q]. *)
Definition yields {A : Type} (r : result A) (Q : A -> Prop) : Prop :=
  exists a, r = Ok a /\ Q a.

(** A stateful computation that succeeds from every state with a value
    satisfying [Q]. *)
Definition returns {S A : Type} (m : St S A) (Q : A -> Prop) : Prop :=
  forall s, exists a s', m s = Ok (a, s') /\ Q a.

(** * Properties *)

Unset Implicit Arguments.
Local Open Scope nat_scope.

(** ** Reasoning about the monads *)

Lemma st_bind_inv {S A B : Type} (m : St S A) (k : A -> St S B) s b s2 :
  StM.bind m k s = Ok (b, s2) ->
  exists a s1, m s = Ok (a, s1) /\ k a s1 = Ok (b, s2).
Proof.
  unfold StM.bind. destruct (m s) as [[a s1]|e]; [|discriminate].
  intros Hk. exists a, s1. split; [reflexivity|exact Hk].
Qed.

Lemma st_bind_ok {S A B : Type} (m : St S A) (k : A -> St S B) s a s1 :
  m s = Ok (a, s1) -> StM.bind m k s = k a s1.
Proof. unfold StM.bind. intros ->. reflexivity. Qed.

Lemma st_lift_inv {S A : Type} (r : result A) (s s' : S) a :
  StM.lift r s = Ok (a, s') -> r = Ok a /\ s' = s.
Proof.
  unfold StM.lift. destruct r; [|discriminate].
  intros Heq. injection Heq as -> ->. split; reflexivity.
Qed.

Lemma st_ret_inv {S A : Type} (a b : A) (s s' : S) :
  StM.ret a s = Ok (b, s') -> b = a /\ s' = s.
Proof. unfold StM.ret. intros Heq. injection Heq as -> ->. split; reflexivity. Qed.

Lemma call_inv {A : Type} (m : St generator A) w a w' :
  call m w = Ok (a, w') ->
  exists g, m (torch_rng w) = Ok (a, g)
            /\ w' = {| py_random := py_random w; torch_rng := g |}.
Proof.
  unfold call. destruct (m (torch_rng w)) as [[a0 g]|e]; [|discriminate].
  intros Heq. injection Heq as -> <-. exists g. split; reflexivity.
Qed.

Lemma foldM_app {S A B : Type} (f : A -> B -> St S A) l1 l2 a s :
  StM.foldM f (l1 ++ l2) a s
  = StM.bind (StM.foldM f l1 a) (StM.foldM f l2) s.
Proof.
  revert a s. induction l1 as [|b l1 IH]; intros a s; simpl.
  - reflexivity.
  - unfold StM.bind in *. destruct (f a b s) as [[a1 s1]|e]; [|reflexivity].
    apply IH.
Qed.

(** Decompose every hypothesis [c s = Ok (_, _)] where [c] is a sequence
    of binds, lifts, calls and returns. *)
Ltac st_invs :=
  repeat match goal with
    | H : StM.bind _ _ _ = Ok _ |- _ =>
        apply st_bind_inv in H;
        let H1 := fresh "Hrun" in
        destruct H as (? & ? & H1 & H); cbv beta iota in H
    | H : StM.lift _ _ = Ok _ |- _ =>
        apply st_lift_inv in H; destruct H as (H & ?)
    | H : StM.ret _ _ = Ok _ |- _ =>
        apply st_ret_inv in H; destruct H as (H & ?)
    | H : call _ _ = Ok _ |- _ =>
        apply call_inv in H; destruct H as (? & H & ?)
    | H : context [match ?a with pair _ _ => _ end] |- _ =>
        is_var a; destruct a; cbv beta iota in H
    end.

(** ** List facts used for the output tensor *)

Lemma nth_error_repeat_lt {A : Type} (a : A) n j :
  j < n -> nth_error (repeat a n) j = Some a.
Proof.
  revert j. induction n as [|n IH]; intros j Hj; [lia|].
  destruct j as [|j]; simpl; [reflexivity|]. apply IH. lia.
Qed.

Lemma nth_error_update_other {A : Type} (l : list A) t v j :
  t < length l -> j <> t ->
  nth_error (firstn t l ++ v :: skipn (S t) l) j = nth_error l j.
Proof.
  intros Ht Hj.
  destruct (Nat.lt_ge_cases j t) as [Hlt|Hge].
  - rewrite nth_error_app1 by (rewrite length_firstn; lia).
    rewrite nth_error_firstn.
    destruct (Nat.ltb_spec j t); [reflexivity|lia].
  - rewrite nth_error_app2 by (rewrite length_firstn; lia).
    rewrite length_firstn, Nat.min_l by lia.
    destruct (j - t) as [|d] eqn:Hd; [lia|]. cbn [nth_error].
    rewrite nth_error_skipn. f_equal. lia.
Qed.

Lemma length_update {A : Type} (l : list A) t v :
  t < length l -> length (firstn t l ++ v :: skipn (S t) l) = length l.
Proof.
  intros Ht. rewrite length_app, length_firstn. cbn [length].
  rewrite length_skipn. lia.
Qed.

Lemma setitem_inv B V x t value x' :
  tensor.setitem B V x t value = Ok x' ->
  t < length x /\ exists v, tensor.broadcast_to2 B V value = Ok v
                            /\ x' = firstn t x ++ v :: skipn (S t) x.
Proof.
  unfold tensor.setitem. destruct (Nat.ltb_spec t (length x)) as [Hlt|Hge]; [|discriminate].
  destruct (tensor.broadcast_to2 B V value) as [v|e]; simpl; [|discriminate].
  intros Heq. injection Heq as <-. split; [exact Hlt|]. exists v. split; reflexivity.
Qed.

(** ** The decoding loop, for any encoder and decoder modules *)

Lemma seq_1_snoc t : 1 <= t -> seq 1 t = seq 1 (t - 1) ++ [t].
Proof.
  intros Ht. replace t with (S (t - 1)) at 1 by lia.
  rewrite seq_S. do 2 f_equal. lia.
Qed.

Section Orchestrator.

Context {E D : Type} {HE : EncoderModule E} {HD : DecoderModule D}.
Variable self : Seq2Seq.t E D.
Variables src trg : tokens2.
Variable ratio : Q.

Local Abbreviation B := (Seq2Seq.batch_size trg).
Local Abbreviation V := (Seq2Seq.trg_vocab_size self).
Local Abbreviation prologue := (Seq2Seq.prologue self src trg).
Local Abbreviation body := (Seq2Seq.body self trg ratio).
Local Abbreviation loop_until := (Seq2Seq.loop_until self src trg ratio).
Local Abbreviation forward := (Seq2Seq.forward self src trg ratio).

Lemma prologue_inv w enc st w' :
  prologue w = Ok ((enc, st), w') ->
  exists hid cell g last row,
    encoder_call (Seq2Seq.encoder self) src (torch_rng w) = Ok ((enc, hid, cell), g)
    /\ tensor.getitem_last hid = Ok last
    /\ nth_error trg 0 = Some row
    /\ st = {| Seq2Seq.input := row; Seq2Seq.hidden := [last];
               Seq2Seq.outputs := torch.zeros (Seq2Seq.trg_len trg) B V |}
    /\ w' = {| py_random := py_random w; torch_rng := g |}.
Proof.
  unfold Seq2Seq.prologue. intros Hp. st_invs.
  injection Hp as -> ->. subst.
  match goal with H : tensor.getitem trg 0 = Ok ?r |- _ =>
    unfold tensor.getitem in H; destruct (nth_error trg 0) as [row|] eqn:Hrow;
    [injection H as ->|discriminate] end.
  do 5 eexists. repeat split; eassumption.
Qed.

Lemma body_inv enc st t w st' w' :
  body enc st t w = Ok (st', w') ->
  exists output hid g outs top1,
    decoder_call (Seq2Seq.decoder self) (Seq2Seq.input st) (Seq2Seq.hidden st) enc
                 (torch_rng w) = Ok ((output, hid), g)
    /\ tensor.setitem B V (Seq2Seq.outputs st) t output = Ok outs
    /\ tensor.argmax output = Ok top1
    /\ (if Qltb (py_random w 0) ratio
        then nth_error trg t = Some (Seq2Seq.input st')
        else Seq2Seq.input st' = top1)
    /\ Seq2Seq.hidden st' = hid
    /\ Seq2Seq.outputs st' = outs
    /\ w' = {| py_random := fun n => py_random w (S n); torch_rng := g |}.
Proof.
  unfold Seq2Seq.body. intros Hb. st_invs.
  match goal with H : random_random _ = Ok _ |- _ =>
    unfold random_random in H; injection H as <- <- end.
  subst. cbn [py_random torch_rng] in *.
  do 5 eexists.
  split; [eassumption|]. split; [eassumption|]. split; [eassumption|].
  cbn [Seq2Seq.input Seq2Seq.hidden Seq2Seq.outputs].
  destruct (Qltb (py_random w 0) ratio); st_invs; subst.
  - match goal with H : tensor.getitem trg t = Ok ?r |- _ =>
      unfold tensor.getitem in H; destruct (nth_error trg t);
      [injection H as ->|discriminate] end.
    repeat split; reflexivity.
  - repeat split; reflexivity.
Qed.

Lemma loop_until_inv stop w st w' :
  loop_until stop w = Ok (st, w') ->
  exists enc st0 w0,
    prologue w = Ok ((enc, st0), w0)
    /\ StM.foldM (body enc) (seq 1 (stop - 1)) st0 w0 = Ok (st, w').
Proof.
  unfold Seq2Seq.loop_until. intros Hl.
  apply st_bind_inv in Hl. destruct Hl as ([enc st0] & w0 & Hp & Hf).
  exists enc, st0, w0. split; assumption.
Qed.

Lemma loop_until_intro stop w enc st0 w0 :
  prologue w = Ok ((enc, st0), w0) ->
  loop_until stop w = StM.foldM (body enc) (seq 1 (stop - 1)) st0 w0.
Proof.
  intros Hp. unfold Seq2Seq.loop_until. rewrite (st_bind_ok _ _ _ _ _ Hp). reflexivity.
Qed.

(** Entering iteration [t + 1] means having entered iteration [t] and run
    its body. *)
Lemma loop_until_succ t w st' w' :
  1 <= t ->
  loop_until (S t) w = Ok (st', w') ->
  exists enc st0 w0 st w1,
    prologue w = Ok ((enc, st0), w0)
    /\ loop_until t w = Ok (st, w1)
    /\ body enc st t w1 = Ok (st', w').
Proof.
  intros Ht Hl. apply loop_until_inv in Hl. destruct Hl as (enc & st0 & w0 & Hp & Hf).
  replace (S t - 1) with t in Hf by lia.
  rewrite (seq_1_snoc _ Ht), foldM_app in Hf.
  apply st_bind_inv in Hf. destruct Hf as (st & w1 & Hf & Hb).
  cbn [StM.foldM] in Hb.
  apply st_bind_inv in Hb. destruct Hb as (st2 & w2 & Hb & Hr).
  apply st_ret_inv in Hr. destruct Hr as [-> ->].
  exists enc, st0, w0, st, w1. split; [exact Hp|]. split; [|exact Hb].
  rewrite (loop_until_intro t w enc st0 w0 Hp). exact Hf.
Qed.

(** Induction over the iterations: [P t st w] speaks of the loop variables
    and the state on entry to iteration [t]. *)
Lemma loop_until_ind (P : nat -> Seq2Seq.loop_state -> world -> Prop) w :
  (forall enc st0 w0, prologue w = Ok ((enc, st0), w0) -> P 1 st0 w0) ->
  (forall enc st0 w0 t st w1 st' w',
      prologue w = Ok ((enc, st0), w0) ->
      1 <= t -> P t st w1 -> body enc st t w1 = Ok (st', w') -> P (S t) st' w') ->
  forall t st w', 1 <= t -> loop_until t w = Ok (st, w') -> P t st w'.
Proof.
  intros Hbase Hstep t. induction t as [|t IH]; intros st w' Ht Hl; [lia|].
  destruct t as [|t].
  - apply loop_until_inv in Hl. destruct Hl as (enc & st0 & w0 & Hp & Hf).
    cbn in Hf. apply st_ret_inv in Hf. destruct Hf as [-> ->].
    eapply Hbase; eassumption.
  - apply loop_until_succ in Hl; [|lia].
    destruct Hl as (enc & st0 & w0 & st1 & w1 & Hp & Hl & Hb).
    eapply Hstep; [exact Hp| |apply IH; [lia|exact Hl]|exact Hb]. lia.
Qed.

(** Each iteration consumes exactly one draw of [random.random()]. *)
Lemma loop_until_draws w t st w' :
  1 <= t -> loop_until t w = Ok (st, w') ->
  forall n, py_random w' n = py_random w (n + (t - 1)).
Proof.
  intros Ht Hl.
  apply (loop_until_ind
           (fun t _ w' => forall n, py_random w' n = py_random w (n + (t - 1))) w)
    with (st := st); try assumption.
  - intros enc st0 w0 Hp n. apply prologue_inv in Hp.
    destruct Hp as (? & ? & ? & ? & ? & _ & _ & _ & _ & ->). cbn.
    f_equal. lia.
  - intros enc st0 w0 t0 st1 w1 st2 w2 _ Ht0 IH Hb n. apply body_inv in Hb.
    destruct Hb as (? & ? & ? & ? & ? & _ & _ & _ & _ & _ & _ & ->). cbn.
    rewrite IH. f_equal. lia.
Qed.

(** Position 0 and the positions the loop has not reached yet still hold
    the zeros they were created with. *)
Lemma loop_until_outputs w t st w' :
  1 <= t -> loop_until t w = Ok (st, w') ->
  length (Seq2Seq.outputs st) = Seq2Seq.trg_len trg
  /\ forall j, j < Seq2Seq.trg_len trg -> j = 0 \/ t <= j ->
               nth_error (Seq2Seq.outputs st) j = Some (torch.zeros2 B V).
Proof.
  intros Ht Hl.
  apply (loop_until_ind
           (fun t st _ =>
              length (Seq2Seq.outputs st) = Seq2Seq.trg_len trg
              /\ forall j, j < Seq2Seq.trg_len trg -> j = 0 \/ t <= j ->
                           nth_error (Seq2Seq.outputs st) j = Some (torch.zeros2 B V)) w)
    with (w' := w'); try assumption.
  - intros enc st0 w0 Hp. apply prologue_inv in Hp.
    destruct Hp as (? & ? & ? & ? & ? & _ & _ & _ & -> & _). cbn.
    unfold torch.zeros. split; [apply repeat_length|].
    intros j Hj _. apply nth_error_repeat_lt. exact Hj.
  - intros enc st0 w0 t0 st1 w1 st2 w2 _ Ht0 [Hlen IH] Hb. apply body_inv in Hb.
    destruct Hb as (output & ? & ? & outs & ? & _ & Hset & _ & _ & _ & -> & _).
    apply setitem_inv in Hset. destruct Hset as (Hlt & v & _ & ->).
    split; [rewrite length_update; assumption|].
    intros j Hj Hor. rewrite nth_error_update_other by lia. apply IH; lia.
Qed.

(** A call that returned went through every earlier iteration. *)
Lemma forward_reaches w out w' t :
  forward w = Ok (out, w') -> 1 <= t <= Seq2Seq.trg_len trg ->
  exists st w1, loop_until t w = Ok (st, w1).
Proof.
  intros Hf Ht. unfold Seq2Seq.forward in Hf.
  apply st_bind_inv in Hf. destruct Hf as (stN & wN & Hl & _).
  apply loop_until_inv in Hl. destruct Hl as (enc & st0 & w0 & Hp & Hf).
  rewrite (loop_until_intro t w enc st0 w0 Hp).
  replace (Seq2Seq.trg_len trg - 1) with ((t - 1) + (Seq2Seq.trg_len trg - t)) in Hf by lia.
  rewrite seq_app, foldM_app in Hf.
  apply st_bind_inv in Hf. destruct Hf as (st & w1 & Hf & _).
  exists st, w1. exact Hf.
Qed.

(** In a call that returned, every iteration up to the last called the
    decoder, with the loop variable [input] of that moment. *)
Lemma forward_decoder_step w out w' t :
  forward w = Ok (out, w') -> 1 <= t <= Seq2Seq.trg_len trg - 1 ->
  exists st w1 scores,
    loop_until t w = Ok (st, w1)
    /\ decoder_step self src trg ratio w t (Seq2Seq.input st) scores.
Proof.
  intros Hf Ht.
  destruct (forward_reaches w out w' (S t) Hf) as (st' & w2 & Hl'); [lia|].
  apply loop_until_succ in Hl'; [|lia].
  destruct Hl' as (enc & st0 & w0 & st & w1 & Hp & Hl & Hb).
  apply body_inv in Hb. destruct Hb as (scores & hid & g & ? & ? & Hdec & _).
  exists st, w1, scores. split; [exact Hl|].
  exists enc, st0, w0, st, w1, hid, g. repeat split; (assumption || lia).
Qed.

(** What the decoder is called with at an iteration, and what it returns,
    is determined by the call of [forward]. *)
Lemma decoder_step_functional w t tok scores tok' scores' :
  decoder_step self src trg ratio w t tok scores ->
  decoder_step self src trg ratio w t tok' scores' ->
  tok = tok' /\ scores = scores'.
Proof.
  intros (enc & st0 & w0 & st & w1 & hid & g & _ & Hp & Hl & Hin & Hdec)
         (enc' & st0' & w0' & st' & w1' & hid' & g' & _ & Hp' & Hl' & Hin' & Hdec').
  rewrite Hp in Hp'. injection Hp' as <- <- <-.
  rewrite Hl in Hl'. injection Hl' as <- <-.
  subst tok tok'. split; [reflexivity|].
  rewrite Hdec in Hdec'. injection Hdec' as <- _ _. reflexivity.
Qed.

End Orchestrator.

(** ** Sized lists and successful fallible steps *)

Lemma length_zip_with {A B C : Type} (f : A -> B -> C) la lb :
  length (zip_with f la lb) = Nat.min (length la) (length lb).
Proof.
  revert lb. induction la as [|a la IH]; intros [|b lb]; cbn; try reflexivity.
  rewrite IH. reflexivity.
Qed.

Lemma sized_nil {A : Type} (P : A -> Prop) : sized P 0 [].
Proof. split; [reflexivity|constructor]. Qed.

Lemma sized_cons {A : Type} (P : A -> Prop) n a l :
  P a -> sized P n l -> sized P (S n) (a :: l).
Proof. intros Ha [Hlen Hall]. split; [cbn; congruence|constructor; assumption]. Qed.

Lemma sized_cons_inv {A : Type} (P : A -> Prop) n a l :
  sized P n (a :: l) -> exists m, n = S m /\ P a /\ sized P m l.
Proof.
  intros [Hlen Hall]. inversion Hall; subst. exists (length l).
  repeat split; assumption.
Qed.

Lemma sized_nil_inv {A : Type} (P : A -> Prop) n : sized P n [] -> n = 0.
Proof. intros [Hlen _]. cbn in Hlen. congruence. Qed.

Lemma sized_weaken {A : Type} (P Q : A -> Prop) n l :
  sized P n l -> (forall a, P a -> Q a) -> sized Q n l.
Proof.
  intros [Hlen Hall] HPQ. split; [exact Hlen|].
  eapply Forall_impl; [exact HPQ|exact Hall].
Qed.

Lemma sized_map {A B : Type} (P : A -> Prop) (Q : B -> Prop) (f : A -> B) n l :
  sized P n l -> (forall a, P a -> Q (f a)) -> sized Q n (map f l).
Proof.
  intros [Hlen Hall] Hf. split; [rewrite length_map; exact Hlen|].
  apply Forall_map. eapply Forall_impl; [exact Hf|exact Hall].
Qed.

Lemma sized_zip_with {A B C : Type} (PA : A -> Prop) (PB : B -> Prop) (Q : C -> Prop)
      (f : A -> B -> C) n la lb :
  sized PA n la -> sized PB n lb ->
  (forall a b, PA a -> PB b -> Q (f a b)) ->
  sized Q n (zip_with f la lb).
Proof.
  intros Ha Hb Hf. revert n lb Ha Hb.
  induction la as [|a la IH]; intros n lb Ha Hb.
  - apply sized_nil_inv in Ha. subst. apply sized_nil.
  - apply sized_cons_inv in Ha. destruct Ha as (m & -> & Hpa & Ha).
    destruct lb as [|b lb]; [apply sized_nil_inv in Hb; discriminate|].
    apply sized_cons_inv in Hb. destruct Hb as (m' & Heq & Hpb & Hb).
    injection Heq as <-. cbn. apply sized_cons; [apply Hf; assumption|].
    apply IH; assumption.
Qed.

Lemma sized_repeat {A : Type} (P : A -> Prop) a n : P a -> sized P n (repeat a n).
Proof.
  intros Ha. split; [apply repeat_length|]. apply Forall_forall.
  intros x Hx. apply repeat_spec in Hx. subst. exact Ha.
Qed.

Lemma sized_app {A : Type} (P : A -> Prop) n m l1 l2 :
  sized P n l1 -> sized P m l2 -> sized P (n + m) (l1 ++ l2).
Proof.
  intros [H1 F1] [H2 F2]. split; [rewrite length_app; lia|].
  apply Forall_app. split; assumption.
Qed.

Lemma sized_rev {A : Type} (P : A -> Prop) n l : sized P n l -> sized P n (rev l).
Proof.
  intros [Hlen Hall]. split; [rewrite length_rev; exact Hlen|].
  apply Forall_rev. exact Hall.
Qed.

Lemma zip_with_self {A C : Type} (P : A -> Prop) (f : A -> A -> C) c n l :
  sized P n l -> (forall a, P a -> f a a = c) -> zip_with f l l = repeat c n.
Proof.
  intros Hl Hf. revert n Hl. induction l as [|a l IH]; intros n Hl.
  - apply sized_nil_inv in Hl. subst. reflexivity.
  - apply sized_cons_inv in Hl. destruct Hl as (m & -> & Ha & Hl).
    cbn. rewrite (Hf a Ha), (IH m Hl). reflexivity.
Qed.

(** [g] distributes over [f] on the left argument, pointwise. *)
Lemma zip_with_distr {A D : Type} (f : A -> A -> A) (g : A -> D -> A) :
  (forall x y z, f (g x z) (g y z) = g (f x y) z) ->
  forall la lb ld,
    zip_with f (zip_with g la ld) (zip_with g lb ld)
    = zip_with g (zip_with f la lb) ld.
Proof.
  intros Hfg. induction la as [|a la IH]; intros lb ld; [reflexivity|].
  destruct ld as [|d ld]; [destruct lb; reflexivity|].
  destruct lb as [|b lb]; [reflexivity|].
  cbn. rewrite Hfg, IH. reflexivity.
Qed.

Lemma is_shape1_spec n v : is_shape1 n v = true <-> shape1 n v.
Proof. unfold is_shape1, shape1. apply Nat.eqb_eq. Qed.

Lemma forallb_Forall {A : Type} (p : A -> bool) (P : A -> Prop) l :
  (forall a, p a = true <-> P a) -> forallb p l = true <-> Forall P l.
Proof.
  intros Hp. rewrite forallb_forall, Forall_forall.
  split; intros H a Ha; apply Hp, H, Ha.
Qed.

Lemma is_shape2_spec r c m : is_shape2 r c m = true <-> shape2 r c m.
Proof.
  unfold is_shape2, shape2, sized. rewrite andb_true_iff, Nat.eqb_eq.
  rewrite (forallb_Forall _ (shape1 c)) by (intros; apply is_shape1_spec).
  reflexivity.
Qed.

Lemma is_shape3_spec a b c x : is_shape3 a b c x = true <-> shape3 a b c x.
Proof.
  unfold is_shape3, shape3, sized. rewrite andb_true_iff, Nat.eqb_eq.
  rewrite (forallb_Forall _ (shape2 b c)) by (intros; apply is_shape2_spec).
  reflexivity.
Qed.

Lemma is_tokens_spec len batch vocab x :
  is_tokens len batch vocab x = true <-> sized (sized (in_vocab vocab) batch) len x.
Proof.
  unfold is_tokens, sized. rewrite andb_true_iff, Nat.eqb_eq.
  apply and_iff_compat_l. apply forallb_Forall. intros row.
  rewrite andb_true_iff, Nat.eqb_eq. apply and_iff_compat_l.
  apply forallb_Forall. intros k. unfold in_vocab.
  rewrite andb_true_iff, Z.leb_le, Z.ltb_lt. reflexivity.
Qed.

Lemma yields_ok {A : Type} (a : A) (Q : A -> Prop) : Q a -> yields (Ok a) Q.
Proof. intros Ha. exists a. split; [reflexivity|exact Ha]. Qed.

Lemma yields_weaken {A : Type} (r : result A) (P Q : A -> Prop) :
  yields r P -> (forall a, P a -> Q a) -> yields r Q.
Proof. intros (a & -> & Ha) HPQ. exists a. split; [reflexivity|apply HPQ, Ha]. Qed.

Lemma yields_bind {A B : Type} (r : result A) (k : A -> result B) P Q :
  yields r P -> (forall a, P a -> yields (k a) Q) -> yields (Res.bind r k) Q.
Proof. intros (a & -> & Ha) Hk. cbn. apply Hk, Ha. Qed.

Lemma yields_mapM {A B : Type} (f : A -> result B) (P : A -> Prop) (Q : B -> Prop) n l :
  sized P n l -> (forall a, P a -> yields (f a) Q) ->
  yields (Res.mapM f l) (sized Q n).
Proof.
  intros Hl Hf. revert n Hl. induction l as [|a l IH]; intros n Hl.
  - apply sized_nil_inv in Hl. subst. apply yields_ok, sized_nil.
  - apply sized_cons_inv in Hl. destruct Hl as (m & -> & Ha & Hl). cbn.
    eapply yields_bind; [apply Hf, Ha|]. intros b Hb.
    eapply yields_bind; [apply IH, Hl|]. intros bs Hbs.
    apply yields_ok, sized_cons; assumption.
Qed.

Lemma yields_zipM {A B C : Type} (f : A -> B -> result C)
      (PA : A -> Prop) (PB : B -> Prop) (Q : C -> Prop) n la lb :
  sized PA n la -> sized PB n lb ->
  (forall a b, PA a -> PB b -> yields (f a b) Q) ->
  yields (Res.zipM f la lb) (sized Q n).
Proof.
  intros Ha Hb Hf. revert n lb Ha Hb.
  induction la as [|a la IH]; intros n lb Ha Hb.
  - apply sized_nil_inv in Ha. subst.
    destruct lb; [apply yields_ok, sized_nil|].
    apply sized_cons_inv in Hb. destruct Hb as (? & ? & _). discriminate.
  - apply sized_cons_inv in Ha. destruct Ha as (m & -> & Hpa & Ha).
    destruct lb as [|b lb]; [apply sized_nil_inv in Hb; discriminate|].
    apply sized_cons_inv in Hb. destruct Hb as (m' & Heq & Hpb & Hb).
    injection Heq as <-. cbn.
    eapply yields_bind; [apply Hf; assumption|]. intros c Hc.
    eapply yields_bind; [apply IH; eassumption|]. intros cs Hcs.
    apply yields_ok, sized_cons; assumption.
Qed.

(** ** Linear layers, concatenation and [softmax] *)

Lemma wf_Linear_inv l :
  Linear.wf l = true ->
  shape2 (Linear.out_features l) (Linear.in_features l) (Linear.weight l)
  /\ shape1 (Linear.out_features l) (Linear.bias l).
Proof.
  unfold Linear.wf. rewrite !andb_true_iff, !Nat.eqb_eq.
  intros [[Hw Hrows] Hb]. split; [|exact Hb].
  split; [exact Hw|].
  apply (forallb_Forall _ (shape1 (Linear.in_features l))) in Hrows; [exact Hrows|].
  intros row. apply Nat.eqb_eq.
Qed.

Lemma Linear_forward1_yields l x :
  Linear.wf l = true -> shape1 (Linear.in_features l) x ->
  yields (Linear.forward1 l x) (shape1 (Linear.out_features l)).
Proof.
  intros Hwf Hx. apply wf_Linear_inv in Hwf. destruct Hwf as [[Hw _] Hb].
  unfold Linear.forward1. unfold shape1 in Hx. rewrite Hx, Nat.eqb_refl.
  apply yields_ok. unfold shape1 in *. rewrite length_zip_with, Hw, Hb.
  apply Nat.min_id.
Qed.

Lemma Linear_forward_yields l x a b :
  Linear.wf l = true -> shape3 a b (Linear.in_features l) x ->
  yields (Linear.forward l x) (shape3 a b (Linear.out_features l)).
Proof.
  intros Hwf Hx. unfold Linear.forward.
  eapply yields_mapM; [exact Hx|]. intros m Hm.
  eapply yields_mapM; [exact Hm|]. intros v Hv.
  apply Linear_forward1_yields; assumption.
Qed.

Lemma cat2_yields a b c1 c2 x y :
  shape3 a b c1 x -> shape3 a b c2 y ->
  yields (tensor.cat2 x y) (shape3 a b (c1 + c2)).
Proof.
  intros Hx Hy. unfold tensor.cat2.
  eapply yields_zipM; [exact Hx|exact Hy|]. intros m1 m2 H1 H2.
  eapply yields_zipM; [exact H1|exact H2|]. intros u v Hu Hv.
  apply yields_ok. unfold shape1 in *. rewrite length_app. congruence.
Qed.

Lemma repeat0_shape b c x n :
  shape3 1 b c x -> shape3 n b c (tensor.repeat0 x n).
Proof.
  intros Hx. destruct x as [|m [|m' x]];
    try (destruct Hx as [Hlen _]; cbn in Hlen; discriminate).
  apply sized_cons_inv in Hx. destruct Hx as (_ & _ & Hm & _).
  unfold tensor.repeat0. induction n as [|n IH]; cbn.
  - apply sized_nil.
  - apply sized_cons; assumption.
Qed.

Lemma map3_shape f a b c x : shape3 a b c x -> shape3 a b c (torch.map3 f x).
Proof.
  intros Hx. unfold torch.map3. eapply sized_map; [exact Hx|]. intros m Hm.
  eapply sized_map; [exact Hm|]. intros v Hv.
  unfold shape1 in *. rewrite length_map. exact Hv.
Qed.

Lemma entries2_shape P b c m : entries2 P b c m -> shape2 b c m.
Proof.
  intros Hm. eapply sized_weaken; [exact Hm|]. intros v [Hv _]. exact Hv.
Qed.

Lemma sum_dim0_entries (P : R -> Prop) a b c x :
  (forall u v, P u -> P v -> P (u + v)%R) ->
  sized (entries2 P b c) (S a) x -> entries2 P b c (torch.sum_dim0 x).
Proof.
  intros Hadd Hx. destruct x as [|m ms]; [apply sized_nil_inv in Hx; discriminate|].
  apply sized_cons_inv in Hx. destruct Hx as (a' & Heq & Hm & Hms).
  clear Heq. cbn.
  revert a' m Hm Hms. induction ms as [|m' ms IH]; intros a' m Hm Hms; cbn.
  - exact Hm.
  - apply sized_cons_inv in Hms. destruct Hms as (a'' & -> & Hm' & Hms).
    apply (IH a''); [|exact Hms]. unfold torch.add2.
    eapply sized_zip_with; [exact Hm|exact Hm'|]. intros u v Hu Hv.
    eapply sized_zip_with; [exact Hu|exact Hv|]. exact Hadd.
Qed.

Lemma add2_div2 m1 m2 d :
  torch.add2 (torch.div2 m1 d) (torch.div2 m2 d) = torch.div2 (torch.add2 m1 m2) d.
Proof.
  unfold torch.add2, torch.div2. apply zip_with_distr. intros u v z.
  apply zip_with_distr. intros p q r. unfold Rdiv. ring.
Qed.

(** Summing the quotients is dividing the sum. *)
Lemma sum_dim0_div_bcast0 x d :
  torch.sum_dim0 (torch.div_bcast0 x d) = torch.div2 (torch.sum_dim0 x) d.
Proof.
  destruct x as [|m ms]; [reflexivity|]. cbn.
  revert m. induction ms as [|m' ms IH]; intros m; cbn; [reflexivity|].
  rewrite add2_div2. apply IH.
Qed.

Lemma div2_self b c m :
  entries2 (fun v => 0 < v)%R b c m -> torch.div2 m m = repeat (repeat 1%R c) b.
Proof.
  intros Hm. unfold torch.div2.
  eapply zip_with_self; [exact Hm|]. intros v Hv.
  eapply zip_with_self; [exact Hv|]. intros u Hu.
  cbv beta in Hu. unfold Rdiv. apply Rinv_r. lra.
Qed.

Lemma map3_entries (P : R -> Prop) f a b c x :
  (forall v, P (f v)) -> shape3 a b c x ->
  sized (entries2 P b c) a (torch.map3 f x).
Proof.
  intros Hf Hx. unfold torch.map3. eapply sized_map; [exact Hx|]. intros m Hm.
  eapply sized_map; [exact Hm|]. intros v Hv. split.
  - rewrite length_map. exact Hv.
  - apply Forall_map, Forall_forall. intros u _. apply Hf.
Qed.

Lemma exp_entries a b c x T :
  shape3 a b c x ->
  sized (entries2 (fun v => 0 < v)%R b c) a (torch.exp (torch.div_scalar x T)).
Proof.
  intros Hx. unfold torch.exp. apply map3_entries; [apply exp_pos|].
  unfold torch.div_scalar. apply map3_shape. exact Hx.
Qed.

(** The weights [softmax] returns for a non-empty leading dimension have
    the shape of its argument and sum to 1 along dimension 0. *)
Lemma softmax_normalised a b c x T :
  shape3 (S a) b c x ->
  shape3 (S a) b c (softmax x T)
  /\ torch.sum_dim0 (softmax x T) = repeat (repeat 1%R c) b.
Proof.
  intros Hx. unfold softmax.
  pose proof (exp_entries _ _ _ _ T Hx) as He.
  set (e_x := torch.exp (torch.div_scalar x T)) in *.
  assert (Hs : entries2 (fun v => 0 < v)%R b c (torch.sum_dim0 e_x)).
  { eapply sum_dim0_entries; [|exact He]. intros u v Hu Hv. lra. }
  split.
  - unfold torch.div_bcast0. eapply sized_map; [exact He|]. intros m Hm.
    unfold torch.div2. eapply sized_zip_with; [exact Hm|exact Hs|].
    intros u v [Hu _] [Hv _]. unfold shape1.
    rewrite length_zip_with, Hu, Hv. apply Nat.min_id.
  - rewrite sum_dim0_div_bcast0. apply div2_self. exact Hs.
Qed.

(** ** The attention weights *)

Lemma wf_Attention_inv bidirectional self :
  Attention.wf bidirectional self = true ->
  Linear.wf (Attention.attn self) = true
  /\ Linear.wf (Attention.v self) = true
  /\ Linear.in_features (Attention.attn self)
     = (1 + (if bidirectional then 1 else 0)) * Attention.enc_hid_dim self
       + Attention.dec_hid_dim self
  /\ Linear.out_features (Attention.attn self) = Attention.enc_hid_dim self
  /\ Linear.in_features (Attention.v self) = Attention.enc_hid_dim self
  /\ Linear.out_features (Attention.v self) = 1.
Proof.
  unfold Attention.wf. rewrite !andb_true_iff, !Nat.eqb_eq. tauto.
Qed.

Lemma Attention_scores_yields bidirectional self hidden enc srcLen B :
  Attention.wf bidirectional self = true ->
  shape3 srcLen B ((1 + (if bidirectional then 1 else 0)) * Attention.enc_hid_dim self) enc ->
  shape3 1 B (Attention.dec_hid_dim self) hidden ->
  yields (Attention.scores self hidden enc) (shape3 srcLen B 1).
Proof.
  intros Hwf Henc Hhid. apply wf_Attention_inv in Hwf.
  destruct Hwf as (Hattn & Hv & Hin & Hout & Hvin & Hvout).
  unfold Attention.scores. cbn [tensor.cat_dim2 Res.bind].
  destruct Henc as [Hlen Hall]. rewrite Hlen.
  eapply yields_bind.
  { eapply cat2_yields; [split; eassumption|]. apply repeat0_shape. exact Hhid. }
  intros conc Hconc. rewrite <- Hin in Hconc.
  eapply yields_bind; [apply Linear_forward_yields; eassumption|].
  intros e He. rewrite <- Hvout.
  apply Linear_forward_yields; [exact Hv|].
  rewrite Hvin, <- Hout. apply map3_shape. exact He.
Qed.

(** Arithmetic on lengths, read through the tensor type names. *)
Ltac untensor := cbv delta [tensor1 tensor2 tensor3 tokens1 tokens2] in *.
Ltac tlia := untensor; lia.

Lemma nth_zip_with {A B C : Type} (f : A -> B -> C) da db dc la lb i :
  i < length la -> i < length lb ->
  nth i (zip_with f la lb) dc = f (nth i la da) (nth i lb db).
Proof.
  revert la lb. induction i as [|i IH]; intros [|a la] [|b lb] Ha Hb;
    cbn in *; try lia; [reflexivity|]. apply IH; lia.
Qed.

Lemma sized_nth {A : Type} (P : A -> Prop) n l i d :
  sized P n l -> i < n -> P (nth i l d).
Proof.
  intros [Hlen Hall] Hi. rewrite Forall_forall in Hall. apply Hall, nth_In. lia.
Qed.

Lemma add2_entry b c m1 m2 i k :
  shape2 b c m1 -> shape2 b c m2 -> i < b -> k < c ->
  nth k (nth i (torch.add2 m1 m2) []) 0%R
  = (nth k (nth i m1 []) 0 + nth k (nth i m2 []) 0)%R.
Proof.
  intros H1 H2 Hi Hk. unfold torch.add2.
  pose proof (sized_nth _ _ _ i [] H1 Hi) as Hr1.
  pose proof (sized_nth _ _ _ i [] H2 Hi) as Hr2.
  destruct H1 as [L1 _], H2 as [L2 _]. unfold shape1 in Hr1, Hr2.
  rewrite (nth_zip_with _ [] []) by tlia.
  apply nth_zip_with; tlia.
Qed.

(** An entry of [torch.sum(x, dim=0)] is the sum of the entries of [x]
    along dimension 0. *)
Lemma sum_dim0_entry a b c x i k :
  shape3 (S a) b c x -> i < b -> k < c ->
  nth k (nth i (torch.sum_dim0 x) []) 0%R = Rsum (column x i k).
Proof.
  intros Hx Hi Hk. destruct x as [|m ms]; [apply sized_nil_inv in Hx; discriminate|].
  apply sized_cons_inv in Hx. destruct Hx as (a' & _ & Hm & Hms). cbn.
  revert a' m Hm Hms. induction ms as [|m' ms IH]; intros a' m Hm Hms; cbn.
  - symmetry. apply Rplus_0_r.
  - apply sized_cons_inv in Hms. destruct Hms as (a'' & -> & Hm' & Hms).
    rewrite (IH a''); [|unfold torch.add2; eapply sized_zip_with;
                        [exact Hm|exact Hm'|]|exact Hms].
    + rewrite (add2_entry b c) by assumption. apply Rplus_assoc.
    + intros u v Hu Hv. unfold shape1 in *. rewrite length_zip_with, Hu, Hv.
      apply Nat.min_id.
Qed.

Lemma nth_map_in {A B : Type} (f : A -> B) l i da db :
  i < length l -> nth i (map f l) db = f (nth i l da).
Proof.
  intros Hi. rewrite (nth_indep _ db (f da)) by (rewrite length_map; exact Hi).
  apply map_nth.
Qed.

Lemma entry_map3 f a b c x s i k :
  shape3 a b c x -> s < a -> i < b -> k < c ->
  entry (torch.map3 f x) s i k = f (entry x s i k).
Proof.
  intros Hx Hs Hi Hk. unfold entry, torch.map3.
  pose proof (sized_nth _ _ _ s [] Hx Hs) as Hm.
  pose proof (sized_nth _ _ _ i [] Hm Hi) as Hr. unfold shape1 in Hr.
  destruct Hx as [Lx _], Hm as [Lm _].
  rewrite (nth_map_in _ _ _ []) by tlia.
  rewrite (nth_map_in _ _ _ []) by tlia.
  apply nth_map_in. tlia.
Qed.

Lemma column_map3 f a b c x i k :
  shape3 a b c x -> i < b -> k < c ->
  column (torch.map3 f x) i k = map f (column x i k).
Proof.
  intros [_ Hall] Hi Hk. unfold column, torch.map3. rewrite !map_map.
  apply map_ext_Forall. eapply Forall_impl; [|exact Hall].
  intros m Hm. cbv beta.
  pose proof (sized_nth _ _ _ i [] Hm Hi) as Hr. unfold shape1 in Hr.
  destruct Hm as [Lm _].
  rewrite (nth_map_in _ _ _ []) by tlia.
  apply nth_map_in. tlia.
Qed.

(** The entries of [softmax]: [exp(x / T)] over its sum along dimension 0. *)
Lemma softmax_entry a b c x T s i k :
  shape3 (S a) b c x -> s < S a -> i < b -> k < c ->
  entry (softmax x T) s i k
  = (exp (entry x s i k / T) / Rsum (map (fun v => exp (v / T)) (column x i k)))%R.
Proof.
  intros Hx Hs Hi Hk. unfold softmax.
  assert (Hd : shape3 (S a) b c (torch.div_scalar x T)).
  { unfold torch.div_scalar. apply map3_shape. exact Hx. }
  assert (He : shape3 (S a) b c (torch.exp (torch.div_scalar x T))).
  { unfold torch.exp. apply map3_shape. exact Hd. }
  set (e_x := torch.exp (torch.div_scalar x T)) in *.
  assert (Hsum : shape2 b c (torch.sum_dim0 e_x)).
  { eapply entries2_shape, (sum_dim0_entries (fun _ => True)); [tauto|].
    eapply sized_weaken; [exact He|]. intros m Hm.
    eapply sized_weaken; [exact Hm|]. intros v Hv. split; [exact Hv|].
    apply Forall_forall. tauto. }
  assert (Hentry : entry e_x s i k = exp (entry x s i k / T)).
  { unfold e_x, torch.exp. rewrite (entry_map3 _ (S a) b c) by assumption.
    unfold torch.div_scalar. rewrite (entry_map3 _ (S a) b c) by assumption.
    reflexivity. }
  assert (Hcol : column e_x i k = map (fun v => exp (v / T)) (column x i k)).
  { unfold e_x, torch.exp. rewrite (column_map3 _ (S a) b c) by assumption.
    unfold torch.div_scalar. rewrite (column_map3 _ (S a) b c) by assumption.
    apply map_map. }
  rewrite <- Hentry, <- Hcol, <- (sum_dim0_entry a b c) by assumption.
  unfold entry, torch.div_bcast0, torch.div2.
  pose proof (sized_nth _ _ _ s [] He Hs) as Hm.
  pose proof (sized_nth _ _ _ i [] Hm Hi) as Hr.
  pose proof (sized_nth _ _ _ i [] Hsum Hi) as Hr'.
  unfold shape1 in Hr, Hr'.
  destruct He as [Le _], Hm as [Lm _], Hsum as [Ls _]. untensor.
  rewrite (nth_map_in _ _ _ []) by tlia.
  rewrite (nth_zip_with _ [] []) by tlia.
  apply nth_zip_with; tlia.
Qed.

Lemma Attention_forward_softmax self hidden enc x :
  Attention.scores self hidden enc = Ok x ->
  Attention.forward self hidden enc = Ok (softmax x default_temperature).
Proof. intros Hx. unfold Attention.forward. rewrite Hx. reflexivity. Qed.

(** ** Facts on [exp] and [tanh] for the temperature *)

Lemma tanh_0 : Rtrigo_def.tanh 0 = 0%R.
Proof. unfold Rtrigo_def.tanh. rewrite sinh_0. unfold Rdiv. apply Rmult_0_l. Qed.

Lemma tanh_1_pos : (0 < Rtrigo_def.tanh 1)%R.
Proof.
  unfold Rtrigo_def.tanh, sinh, cosh.
  assert (H1 : (exp (Ropp 1) < exp 1)%R) by (apply exp_increasing; lra).
  pose proof (exp_pos 1) as H2. pose proof (exp_pos (Ropp 1)) as H3.
  apply Rdiv_lt_0_compat; lra.
Qed.

(** Two scores [s0 < s1] get different weights at temperatures 10 and 1. *)
Lemma softmax_temperature_matters s0 s1 :
  (s0 < s1)%R ->
  (exp (s0 / 10) / (exp (s0 / 10) + exp (s1 / 10))
   <> exp (s0 / 1) / (exp (s0 / 1) + exp (s1 / 1)))%R.
Proof.
  intros Hlt Heq.
  pose proof (exp_pos (s0 / 10)) as Ha. pose proof (exp_pos (s1 / 10)) as Hb.
  pose proof (exp_pos (s0 / 1)) as Hc. pose proof (exp_pos (s1 / 1)) as Hd.
  assert (Hcross : (exp (s0 / 10) * exp (s1 / 1) = exp (s0 / 1) * exp (s1 / 10))%R).
  { apply (f_equal (fun v => v * (exp (s0 / 10) + exp (s1 / 10))
                              * (exp (s0 / 1) + exp (s1 / 1)))%R) in Heq.
    field_simplify in Heq; lra. }
  rewrite <- !exp_plus in Hcross. apply exp_inv in Hcross. lra.
Qed.

(** ** Stateful computations that always return *)

Lemma returns_ret {S A : Type} (a : A) (Q : A -> Prop) :
  Q a -> returns (StM.ret (S := S) a) Q.
Proof. intros Ha s. exists a, s. split; [reflexivity|exact Ha]. Qed.

Lemma returns_weaken {S A : Type} (m : St S A) (P Q : A -> Prop) :
  returns m P -> (forall a, P a -> Q a) -> returns m Q.
Proof.
  intros Hm HPQ s. destruct (Hm s) as (a & s' & Heq & Ha).
  exists a, s'. split; [exact Heq|apply HPQ, Ha].
Qed.

Lemma returns_bind {S A B : Type} (m : St S A) (k : A -> St S B) P Q :
  returns m P -> (forall a, P a -> returns (k a) Q) -> returns (StM.bind m k) Q.
Proof.
  intros Hm Hk s. destruct (Hm s) as (a & s1 & Heq & Ha).
  destruct (Hk a Ha s1) as (b & s2 & Heq2 & Hb).
  exists b, s2. split; [|exact Hb]. unfold StM.bind. rewrite Heq. exact Heq2.
Qed.

Lemma returns_lift {S A : Type} (r : result A) (Q : A -> Prop) :
  yields r Q -> returns (StM.lift (S := S) r) Q.
Proof.
  intros (a & -> & Ha) s. exists a, s. split; [reflexivity|exact Ha].
Qed.

Lemma returns_mapM {S A B : Type} (f : A -> St S B) (P : A -> Prop) (Q : B -> Prop) n l :
  sized P n l -> (forall a, P a -> returns (f a) Q) ->
  returns (StM.mapM f l) (sized Q n).
Proof.
  intros Hl Hf. revert n Hl. induction l as [|a l IH]; intros n Hl.
  - apply sized_nil_inv in Hl. subst. apply returns_ret, sized_nil.
  - apply sized_cons_inv in Hl. destruct Hl as (m & -> & Ha & Hl). cbn.
    eapply returns_bind; [apply Hf, Ha|]. intros b Hb.
    eapply returns_bind; [apply IH, Hl|]. intros bs Hbs.
    apply returns_ret, sized_cons; assumption.
Qed.

Lemma returns_call {A : Type} (m : St generator A) (Q : A -> Prop) :
  returns m Q -> returns (call m) Q.
Proof.
  intros Hm w. destruct (Hm (torch_rng w)) as (a & g & Heq & Ha).
  exists a, {| py_random := py_random w; torch_rng := g |}.
  split; [|exact Ha]. unfold call. rewrite Heq. reflexivity.
Qed.

Lemma returns_random_random (Q : Q -> Prop) :
  (forall r, Q r) -> returns random_random Q.
Proof. intros HQ w. eexists. eexists. split; [reflexivity|apply HQ]. Qed.

Lemma returns_foldM_seq {S A : Type} (f : A -> nat -> St S A) (I : A -> Prop) lo n :
  (forall t a, lo <= t < lo + n -> I a -> returns (f a t) I) ->
  forall a, I a -> returns (StM.foldM f (seq lo n) a) I.
Proof.
  revert lo. induction n as [|n IH]; intros lo Hf a Ha; cbn.
  - apply returns_ret, Ha.
  - eapply returns_bind; [apply Hf; [lia|exact Ha]|].
    intros a' Ha'. apply IH; [|exact Ha']. intros t b Ht. apply Hf. lia.
Qed.

(** ** Embedding and dropout *)

Lemma wf_Embedding_inv e :
  Embedding.wf e = true ->
  shape2 (Embedding.num_embeddings e) (Embedding.embedding_dim e) (Embedding.weight e).
Proof.
  unfold Embedding.wf. rewrite andb_true_iff, Nat.eqb_eq. intros [Hlen Hrows].
  split; [exact Hlen|].
  apply (forallb_Forall _ (shape1 (Embedding.embedding_dim e))) in Hrows; [exact Hrows|].
  intros row. apply Nat.eqb_eq.
Qed.

Lemma Embedding_forward_yields e idx a b :
  Embedding.wf e = true ->
  sized (sized (in_vocab (Embedding.num_embeddings e)) b) a idx ->
  yields (Embedding.forward e idx) (shape3 a b (Embedding.embedding_dim e)).
Proof.
  intros Hwf Hidx. apply wf_Embedding_inv in Hwf. unfold Embedding.forward.
  eapply yields_mapM; [exact Hidx|]. intros row Hrow.
  eapply yields_mapM; [exact Hrow|]. intros k [Hk0 Hk1].
  unfold Embedding.forward1.
  destruct (Z.leb_spec 0 k) as [_|]; [|lia].
  destruct (Z.ltb_spec k (Z.of_nat (Embedding.num_embeddings e))) as [_|]; [|lia].
  cbn [andb]. apply yields_ok. apply (sized_nth _ _ _ _ _ Hwf). lia.
Qed.

Lemma Dropout_forward_returns d x a b c :
  shape3 a b c x -> returns (Dropout.forward d x) (shape3 a b c).
Proof.
  intros Hx. unfold Dropout.forward.
  destruct (negb (Dropout.training d) || Qeq_bool (Dropout.p d) 0);
    [apply returns_ret, Hx|].
  destruct (Qeq_bool (Dropout.p d) 1); [apply returns_ret, map3_shape, Hx|].
  eapply returns_mapM; [exact Hx|]. intros m Hm.
  eapply returns_mapM; [exact Hm|]. intros v Hv.
  eapply returns_weaken.
  - eapply returns_mapM with (P := fun _ => True) (Q := fun _ => True).
    + split; [exact Hv|]. apply Forall_forall. tauto.
    + intros u _ g. eexists. eexists. split; [reflexivity|exact I].
  - intros v' [Hlen _]. exact Hlen.
Qed.

(** ** The recurrent layers *)

Lemma length_zip_with_same {A B C : Type} (f : A -> B -> C) la lb n :
  length la = n -> length lb = n -> length (zip_with f la lb) = n.
Proof. intros Ha Hb. rewrite length_zip_with, Ha, Hb. apply Nat.min_id. Qed.

Lemma length_chunk {A : Type} (l : list A) n k H :
  length l = n -> k + H <= n -> length (firstn H (skipn k l)) = H.
Proof. intros Hl Hk. rewrite length_firstn, length_skipn. lia. Qed.

Lemma length_firstn_exact {A : Type} (l : list A) n H :
  length l = n -> H <= n -> length (firstn H l) = H.
Proof. intros Hl Hk. rewrite length_firstn. lia. Qed.

(** Lengths of lists built from [zip_with], [map], [firstn], [skipn],
    following the structure of the list. *)
Ltac lengths_rec :=
  lazymatch goal with
  | |- length (zip_with _ _ _) = _ => eapply length_zip_with_same; lengths_rec
  | |- length (map _ _) = _ => rewrite length_map; lengths_rec
  | |- length (firstn _ (skipn _ _)) = _ => eapply length_chunk; [lengths_rec|lia]
  | |- length (firstn _ _) = _ => eapply length_firstn_exact; [lengths_rec|lia]
  | |- length (_ ++ _) = _ => rewrite length_app; tlia
  | |- _ => eassumption
  end.

Ltac lengths := unfold shape1 in *; cbv zeta; untensor; lengths_rec.

Lemma wf_cell_inv input H c :
  LSTM.wf_cell input H c = true ->
  Linear.wf (LSTM.ih c) = true /\ Linear.wf (LSTM.hh c) = true
  /\ Linear.in_features (LSTM.ih c) = input
  /\ Linear.out_features (LSTM.ih c) = 4 * H
  /\ Linear.in_features (LSTM.hh c) = H
  /\ Linear.out_features (LSTM.hh c) = 4 * H.
Proof.
  unfold LSTM.wf_cell. rewrite !andb_true_iff, !Nat.eqb_eq. tauto.
Qed.

Lemma LSTM_cell1_yields input H c x h cp :
  LSTM.wf_cell input H c = true ->
  shape1 input x -> shape1 H h -> shape1 H cp ->
  yields (LSTM.cell1 H c x h cp) (state_pair H).
Proof.
  intros Hwf Hx Hh Hc. apply wf_cell_inv in Hwf.
  destruct Hwf as (Wih & Whh & Iih & Oih & Ihh & Ohh).
  unfold LSTM.cell1.
  eapply yields_bind; [apply Linear_forward1_yields; [exact Wih|rewrite Iih; exact Hx]|].
  intros gi Hgi. rewrite Oih in Hgi.
  eapply yields_bind; [apply Linear_forward1_yields; [exact Whh|rewrite Ihh; exact Hh]|].
  intros gh Hgh. rewrite Ohh in Hgh.
  apply yields_ok. split; cbn [fst snd]; lengths.
Qed.

Lemma LSTM_run_yields input H c B :
  LSTM.wf_cell input H c = true ->
  forall xs n st,
    shape3 n B input xs -> sized (state_pair H) B st ->
    yields (LSTM.run H c xs st)
           (fun r => shape3 n B H (fst r) /\ sized (state_pair H) B (snd r)).
Proof.
  intros Hwf. induction xs as [|x xs IH]; intros n st Hxs Hst.
  - apply sized_nil_inv in Hxs. subst. apply yields_ok. split; [apply sized_nil|exact Hst].
  - apply sized_cons_inv in Hxs. destruct Hxs as (m & -> & Hx & Hxs).
    cbn [LSTM.run].
    eapply yields_bind.
    { eapply yields_zipM; [exact Hx|exact Hst|]. intros xb hc Hxb [Hh Hc].
      apply (LSTM_cell1_yields input); assumption. }
    intros st' Hst'.
    eapply yields_bind; [apply (IH m st' Hxs Hst')|].
    intros [outs stN] [Houts HstN]. apply yields_ok. cbn [fst snd] in *.
    split; [|exact HstN]. apply sized_cons; [|exact Houts].
    eapply sized_map; [exact Hst'|]. intros hc [Hh _]. exact Hh.
Qed.

Lemma LSTM_direction_yields input H reverse c xs n B :
  LSTM.wf_cell input H c = true -> shape3 n B input xs ->
  yields (LSTM.direction H reverse c xs B)
         (fun r => shape3 n B H (fst (fst r))
                   /\ shape2 B H (snd (fst r)) /\ shape2 B H (snd r)).
Proof.
  intros Hwf Hxs. unfold LSTM.direction.
  eapply yields_bind.
  { apply (LSTM_run_yields input H c B Hwf _ n).
    - destruct reverse; [apply sized_rev|]; exact Hxs.
    - apply sized_repeat. split; apply repeat_length. }
  intros [outs stN] [Houts HstN]. apply yields_ok. cbn [fst snd] in *.
  split; [destruct reverse; [apply sized_rev|]; exact Houts|].
  split; (eapply sized_map; [exact HstN|]); intros hc [Hh Hc];
    [exact Hh|exact Hc].
Qed.

Lemma LSTM_layer_yields m input cells xs n B :
  length cells = LSTM.num_directions m ->
  forallb (LSTM.wf_cell input (LSTM.hidden_size m)) cells = true ->
  shape3 n B input xs ->
  yields (LSTM.layer (LSTM.hidden_size m) cells xs B)
         (fun r =>
            shape3 n B (LSTM.hidden_size m * LSTM.num_directions m) (fst (fst r))
            /\ shape3 (LSTM.num_directions m) B (LSTM.hidden_size m) (snd (fst r))
            /\ shape3 (LSTM.num_directions m) B (LSTM.hidden_size m) (snd r)).
Proof.
  intros Hlen Hcells Hxs. unfold LSTM.num_directions in *.
  destruct (LSTM.bidirectional m).
  - destruct cells as [|cf [|cb [|? ?]]]; try discriminate Hlen.
    cbn in Hcells. rewrite !andb_true_iff in Hcells. destruct Hcells as (Hcf & Hcb & _).
    cbn [LSTM.layer].
    eapply yields_bind; [apply (LSTM_direction_yields input); eassumption|].
    intros [[o1 h1] c1] (Ho1 & Hh1 & Hc1). cbn [fst snd] in *.
    eapply yields_bind; [apply (LSTM_direction_yields input); eassumption|].
    intros [[o2 h2] c2] (Ho2 & Hh2 & Hc2). cbn [fst snd] in *.
    apply yields_ok. cbn [fst snd]. split; [|split].
    + eapply sized_zip_with; [exact Ho1|exact Ho2|]. intros u v Hu Hv.
      eapply sized_zip_with; [exact Hu|exact Hv|]. intros p q Hp Hq. lengths.
    + apply sized_cons; [exact Hh1|]. apply sized_cons; [exact Hh2|]. apply sized_nil.
    + apply sized_cons; [exact Hc1|]. apply sized_cons; [exact Hc2|]. apply sized_nil.
  - destruct cells as [|cf [|? ?]]; try discriminate Hlen.
    cbn in Hcells. rewrite !andb_true_iff in Hcells. destruct Hcells as (Hcf & _).
    cbn [LSTM.layer].
    eapply yields_bind; [apply (LSTM_direction_yields input); eassumption|].
    intros [[o1 h1] c1] (Ho1 & Hh1 & Hc1). cbn [fst snd] in *.
    apply yields_ok. cbn [fst snd]. rewrite Nat.mul_1_r. split; [exact Ho1|].
    split; (apply sized_cons; [assumption|apply sized_nil]).
Qed.

Lemma LSTM_stack_returns m n B : forall ls input xs,
  ls <> [] ->
  LSTM.wf_layers m input ls = true ->
  shape3 n B input xs ->
  returns (LSTM.stack m ls xs B)
          (fun r =>
             shape3 n B (LSTM.hidden_size m * LSTM.num_directions m) (fst (fst r))
             /\ shape3 (length ls * LSTM.num_directions m) B (LSTM.hidden_size m)
                       (snd (fst r))
             /\ shape3 (length ls * LSTM.num_directions m) B (LSTM.hidden_size m)
                       (snd r)).
Proof.
  induction ls as [|l ls IH]; intros input xs Hne Hwf Hxs; [congruence|].
  cbn [LSTM.wf_layers] in Hwf. rewrite !andb_true_iff, Nat.eqb_eq in Hwf.
  destruct Hwf as [[Hlen Hcells] Hrest]. cbn [LSTM.stack].
  eapply returns_bind;
    [apply returns_lift, (LSTM_layer_yields m input l xs n B); assumption|].
  intros [[o h] c] (Ho & Hh & Hc). cbn [fst snd] in *.
  destruct ls as [|l' ls'].
  - apply returns_ret. cbn [fst snd length]. rewrite Nat.mul_1_l.
    split; [exact Ho|]. split; [exact Hh|exact Hc].
  - eapply returns_bind; [apply Dropout_forward_returns, Ho|].
    intros o' Ho'.
    eapply returns_bind;
      [apply (IH (LSTM.hidden_size m * LSTM.num_directions m) o');
       [discriminate|exact Hrest|exact Ho']|].
    intros [[oN hs] cs] (HoN & Hhs & Hcs). cbn [fst snd] in *.
    apply returns_ret. cbn [fst snd]. split; [exact HoN|].
    change (length (l :: l' :: ls') * LSTM.num_directions m)
      with (LSTM.num_directions m + length (l' :: ls') * LSTM.num_directions m).
    split; apply sized_app; assumption.
Qed.

Lemma LSTM_forward_returns m input n B :
  LSTM.wf m = true ->
  shape3 (S n) B (LSTM.input_size m) input ->
  returns (LSTM.forward m input)
          (fun r =>
             shape3 (S n) B (LSTM.hidden_size m * LSTM.num_directions m) (fst (fst r))
             /\ shape3 (LSTM.num_layers m * LSTM.num_directions m) B (LSTM.hidden_size m)
                       (snd (fst r))
             /\ shape3 (LSTM.num_layers m * LSTM.num_directions m) B (LSTM.hidden_size m)
                       (snd r)).
Proof.
  unfold LSTM.wf. rewrite !andb_true_iff, Nat.leb_le, Nat.eqb_eq.
  intros [[Hpos Hlen] Hwf] Hin. unfold LSTM.forward.
  destruct input as [|x0 rest]; [apply sized_nil_inv in Hin; discriminate|].
  pose proof Hin as Hin'. apply sized_cons_inv in Hin'.
  destruct Hin' as (? & _ & [Hx0 _] & _). rewrite Hx0, <- Hlen.
  eapply LSTM_stack_returns; [|exact Hwf|exact Hin].
  intros Hnil. rewrite Hnil in Hlen. cbn in Hlen. lia.
Qed.

Lemma wf_GRU_inv m :
  GRU.wf m = true ->
  Linear.wf (GRU.ih m) = true /\ Linear.wf (GRU.hh m) = true
  /\ Linear.in_features (GRU.ih m) = GRU.input_size m
  /\ Linear.out_features (GRU.ih m) = 3 * GRU.hidden_size m
  /\ Linear.in_features (GRU.hh m) = GRU.hidden_size m
  /\ Linear.out_features (GRU.hh m) = 3 * GRU.hidden_size m.
Proof.
  unfold GRU.wf. rewrite !andb_true_iff, !Nat.eqb_eq. tauto.
Qed.

Lemma GRU_cell1_yields m x h :
  GRU.wf m = true ->
  shape1 (GRU.input_size m) x -> shape1 (GRU.hidden_size m) h ->
  yields (GRU.cell1 m x h) (shape1 (GRU.hidden_size m)).
Proof.
  intros Hwf Hx Hh. apply wf_GRU_inv in Hwf.
  destruct Hwf as (Wih & Whh & Iih & Oih & Ihh & Ohh).
  unfold GRU.cell1.
  eapply yields_bind; [apply Linear_forward1_yields; [exact Wih|rewrite Iih; exact Hx]|].
  intros gi Hgi. rewrite Oih in Hgi.
  eapply yields_bind; [apply Linear_forward1_yields; [exact Whh|rewrite Ihh; exact Hh]|].
  intros gh Hgh. rewrite Ohh in Hgh.
  apply yields_ok. lengths.
Qed.

Lemma GRU_run_yields m B :
  GRU.wf m = true ->
  forall xs n h,
    shape3 n B (GRU.input_size m) xs -> shape2 B (GRU.hidden_size m) h ->
    yields (GRU.run m xs h)
           (fun r => shape3 n B (GRU.hidden_size m) (fst r)
                     /\ shape2 B (GRU.hidden_size m) (snd r)).
Proof.
  intros Hwf. induction xs as [|x xs IH]; intros n h Hxs Hh.
  - apply sized_nil_inv in Hxs. subst. apply yields_ok. split; [apply sized_nil|exact Hh].
  - apply sized_cons_inv in Hxs. destruct Hxs as (k & -> & Hx & Hxs).
    cbn [GRU.run].
    eapply yields_bind.
    { eapply yields_zipM; [exact Hx|exact Hh|]. intros xb hb Hxb Hhb.
      apply GRU_cell1_yields; assumption. }
    intros h' Hh'.
    eapply yields_bind; [apply (IH k h' Hxs Hh')|].
    intros [outs hN] [Houts HhN]. apply yields_ok. cbn [fst snd] in *.
    split; [apply sized_cons; assumption|exact HhN].
Qed.

Lemma GRU_forward_yields m input h0 n B :
  GRU.wf m = true ->
  shape3 n B (GRU.input_size m) input -> shape3 1 B (GRU.hidden_size m) h0 ->
  yields (GRU.forward m input h0)
         (fun r => shape3 n B (GRU.hidden_size m) (fst r)
                   /\ shape3 1 B (GRU.hidden_size m) (snd r)).
Proof.
  intros Hwf Hin Hh0. unfold GRU.forward.
  destruct h0 as [|h [|h' rest]];
    try (destruct Hh0 as [Hlen _]; cbn in Hlen; discriminate).
  apply sized_cons_inv in Hh0. destruct Hh0 as (_ & _ & Hh & _).
  eapply yields_bind; [apply (GRU_run_yields m B Hwf input n h Hin Hh)|].
  intros [outs hN] [Houts HhN]. apply yields_ok. cbn [fst snd] in *.
  split; [exact Houts|]. apply sized_cons; [exact HhN|apply sized_nil].
Qed.

(** ** The encoder *)

Lemma wf_Encoder_inv self :
  Encoder.wf self = true ->
  Embedding.wf (Encoder.embedding self) = true
  /\ Embedding.num_embeddings (Encoder.embedding self) = Encoder.input_dim self
  /\ Embedding.embedding_dim (Encoder.embedding self) = Encoder.emb_dim self
  /\ LSTM.wf (Encoder.rnn self) = true
  /\ LSTM.input_size (Encoder.rnn self) = Encoder.emb_dim self
  /\ LSTM.hidden_size (Encoder.rnn self) = Encoder.hid_dim self
  /\ LSTM.num_layers (Encoder.rnn self) = Encoder.n_layers self
  /\ LSTM.bidirectional (Encoder.rnn self) = Encoder.bidirectional self.
Proof.
  unfold Encoder.wf. rewrite !andb_true_iff, !Nat.eqb_eq, Bool.eqb_true_iff. tauto.
Qed.

Lemma Encoder_forward_returns self src n B :
  Encoder.wf self = true ->
  sized (sized (in_vocab (Encoder.input_dim self)) B) (S n) src ->
  returns (Encoder.forward self src)
          (fun r =>
             shape3 (S n) B
                    (Encoder.hid_dim self * directions (Encoder.bidirectional self))
                    (fst (fst r))
             /\ shape3 (Encoder.n_layers self * directions (Encoder.bidirectional self))
                       B (Encoder.hid_dim self) (snd (fst r))
             /\ shape3 (Encoder.n_layers self * directions (Encoder.bidirectional self))
                       B (Encoder.hid_dim self) (snd r)).
Proof.
  intros Hwf Hsrc. apply wf_Encoder_inv in Hwf.
  destruct Hwf as (Wemb & Nemb & Demb & Wrnn & Irnn & Hrnn & Lrnn & Brnn).
  unfold Encoder.forward.
  eapply returns_bind.
  { apply returns_lift. apply (Embedding_forward_yields _ src (S n) B Wemb).
    rewrite Nemb. exact Hsrc. }
  intros e He.
  eapply returns_bind; [apply Dropout_forward_returns, He|].
  intros embedded Hemb. rewrite Demb, <- Irnn in Hemb.
  eapply returns_bind; [apply (LSTM_forward_returns _ _ n B Wrnn Hemb)|].
  intros [[outputs hidden] cell] (Ho & Hh & Hc). cbn [fst snd] in *.
  apply returns_ret. cbn [fst snd].
  unfold LSTM.num_directions in *. rewrite Hrnn, Lrnn, Brnn in *.
  split; [exact Ho|]. split; [exact Hh|exact Hc].
Qed.

(** ** Broadcast product, [argmax] and slice assignment *)

Lemma bzip_same_length {A B C : Type} (f : A -> B -> result C) la lb :
  length la = length lb -> tensor.bzip f la lb = Res.zipM f la lb.
Proof. intros Hlen. unfold tensor.bzip. rewrite Hlen, Nat.eqb_refl. reflexivity. Qed.

Lemma mul_yields n B E a x :
  shape3 n B 1 a -> shape3 n B E x -> yields (tensor.mul a x) (shape3 n B E).
Proof.
  intros Ha Hx. unfold tensor.mul.
  rewrite bzip_same_length by (destruct Ha, Hx; tlia).
  eapply yields_zipM; [exact Ha|exact Hx|]. intros ma mx Hma Hmx.
  rewrite bzip_same_length by (destruct Hma, Hmx; tlia).
  eapply yields_zipM; [exact Hma|exact Hmx|]. intros u v Hu Hv.
  unfold shape1 in Hu, Hv. unfold tensor.bzip.
  destruct (Nat.eqb_spec (length u) (length v)) as [Heq|Hne].
  - eapply yields_weaken.
    + eapply (yields_zipM _ (fun _ => True) (fun _ => True) (fun _ => True));
        [split; [reflexivity|apply Forall_forall; tauto]
        |split; [symmetry; exact Heq|apply Forall_forall; tauto]|].
      intros p q _ _. apply yields_ok. exact I.
    + intros w [Hw _]. unfold shape1. tlia.
  - destruct u as [|a0 [|a1 u]]; try discriminate Hu.
    eapply yields_weaken.
    + eapply (yields_mapM _ (fun _ => True) (fun _ => True));
        [split; [reflexivity|apply Forall_forall; tauto]|].
      intros q _. apply yields_ok. exact I.
    + intros w [Hw _]. unfold shape1. tlia.
Qed.

Lemma argmax_from_lt l : forall best bv i,
  best < i -> tensor.argmax_from best bv i l < i + length l.
Proof.
  induction l as [|x l IH]; intros best bv i Hlt; cbn.
  - lia.
  - destruct (Rlt_dec bv x).
    + specialize (IH i x (S i)). lia.
    + specialize (IH best bv (S i)). lia.
Qed.

Lemma argmax_yields B V m :
  1 <= V -> shape2 B V m -> yields (tensor.argmax m) (sized (in_vocab V) B).
Proof.
  intros HV Hm. unfold tensor.argmax.
  eapply yields_mapM; [exact Hm|]. intros row Hrow. unfold shape1 in Hrow.
  destruct row as [|x l]; [cbn in Hrow; lia|].
  apply yields_ok. unfold in_vocab. cbn in Hrow.
  pose proof (argmax_from_lt l 0 x 1). lia.
Qed.

(** [argmax_from] scans the rest [l] of a row whose scanned part is [p]:
    it keeps the index of the first largest entry seen. *)
Lemma argmax_from_spec l : forall p best bv,
  best < length p ->
  nth best (p ++ l) 0%R = bv ->
  (forall j, j < length p -> (nth j (p ++ l) 0 <= bv)%R) ->
  (forall j, j < best -> (nth j (p ++ l) 0 < bv)%R) ->
  first_largest (p ++ l) (Z.of_nat (tensor.argmax_from best bv (length p) l)).
Proof.
  induction l as [|x l IH]; intros p best bv Hbest Hnth Hmax Hfirst.
  - cbn [tensor.argmax_from]. exists best. rewrite app_nil_r in *.
    split; [reflexivity|]. split; [exact Hbest|]. rewrite Hnth.
    split; assumption.
  - cbn [tensor.argmax_from].
    assert (Happ : p ++ x :: l = (p ++ [x]) ++ l) by (rewrite <- app_assoc; reflexivity).
    assert (Hx : nth (length p) (p ++ x :: l) 0%R = x).
    { rewrite app_nth2 by lia. rewrite Nat.sub_diag. reflexivity. }
    assert (Hlen : length (p ++ [x]) = S (length p))
      by (rewrite length_app; cbn; lia).
    destruct (Rlt_dec bv x) as [Hlt|Hge].
    + rewrite Happ, <- Hlen. apply IH.
      * rewrite Hlen. lia.
      * rewrite <- Happ. exact Hx.
      * intros j Hj. rewrite <- Happ. rewrite Hlen in Hj.
        destruct (Nat.eq_dec j (length p)) as [->|Hne]; [rewrite Hx; lra|].
        specialize (Hmax j ltac:(lia)). lra.
      * intros j Hj. rewrite <- Happ. specialize (Hmax j Hj). lra.
    + rewrite Happ, <- Hlen. apply IH.
      * rewrite Hlen. lia.
      * rewrite <- Happ. exact Hnth.
      * intros j Hj. rewrite <- Happ. rewrite Hlen in Hj.
        destruct (Nat.eq_dec j (length p)) as [->|Hne]; [rewrite Hx; lra|].
        apply Hmax. lia.
      * intros j Hj. rewrite <- Happ. apply Hfirst, Hj.
Qed.

Lemma argmax1_spec row k : tensor.argmax1 row = Ok k -> first_largest row k.
Proof.
  destruct row as [|x l]; [discriminate|]. cbn [tensor.argmax1].
  intros Hk. injection Hk as <-.
  apply (argmax_from_spec l [x] 0 x).
  - cbn. lia.
  - reflexivity.
  - intros j Hj. cbn in Hj. replace j with 0 by lia. cbn. lra.
  - intros j Hj. lia.
Qed.

Lemma argmax_spec m : forall tok, tensor.argmax m = Ok tok -> is_argmax m tok.
Proof.
  unfold tensor.argmax, is_argmax.
  induction m as [|row m IH]; intros tok Hm; cbn in Hm.
  - injection Hm as <-. constructor.
  - destruct (tensor.argmax1 row) as [k|e] eqn:Hk; cbn in Hm; [|discriminate].
    destruct (Res.mapM tensor.argmax1 m) as [ks|e]; cbn in Hm; [|discriminate].
    injection Hm as <-. constructor; [apply argmax1_spec, Hk|apply IH; reflexivity].
Qed.

Lemma Forall_firstn_of {A : Type} (P : A -> Prop) l : forall n,
  Forall P l -> Forall P (firstn n l).
Proof.
  induction l as [|a l IH]; intros [|n] Hall; cbn; try constructor.
  - inversion Hall; assumption.
  - apply IH. inversion Hall; assumption.
Qed.

Lemma Forall_skipn_of {A : Type} (P : A -> Prop) l : forall n,
  Forall P l -> Forall P (skipn n l).
Proof.
  induction l as [|a l IH]; intros [|n] Hall; cbn; try assumption.
  apply IH. inversion Hall; assumption.
Qed.

Lemma sized_update {A : Type} (P : A -> Prop) n l t v :
  sized P n l -> t < n -> P v -> sized P n (firstn t l ++ v :: skipn (S t) l).
Proof.
  intros [Hlen Hall] Ht Hv. split; [rewrite length_update; lia|].
  apply Forall_app. split; [apply Forall_firstn_of, Hall|].
  constructor; [exact Hv|apply Forall_skipn_of, Hall].
Qed.

Lemma broadcast_to2_same B V value :
  shape2 B V value -> tensor.broadcast_to2 B V value = Ok value.
Proof.
  intros [Hlen Hall]. unfold tensor.broadcast_to2.
  assert (Hrows : Res.mapM (tensor.broadcast_row V) value = Ok value).
  { clear Hlen. induction Hall as [|row rows Hrow _ IH]; [reflexivity|].
    cbn. unfold tensor.broadcast_row at 1. unfold shape1 in Hrow.
    rewrite Hrow, Nat.eqb_refl. cbn. rewrite IH. reflexivity. }
  rewrite Hrows. cbn. rewrite Hlen, Nat.eqb_refl. reflexivity.
Qed.

Lemma setitem_yields n B V x t value :
  shape3 n B V x -> t < n -> shape2 B V value ->
  yields (tensor.setitem B V x t value) (shape3 n B V).
Proof.
  intros Hx Ht Hv. unfold tensor.setitem.
  destruct Hx as [Hlen Hall].
  destruct (Nat.ltb_spec t (length x)); [|lia].
  rewrite (broadcast_to2_same _ _ _ Hv). cbn.
  apply yields_ok. apply sized_update; [split; assumption|exact Ht|exact Hv].
Qed.

(** ** The decoder *)

Lemma wf_Decoder_inv bidirectional self :
  DecoderWithAttention.wf bidirectional self = true ->
  let enc_out := (1 + (if bidirectional then 1 else 0))
                 * DecoderWithAttention.enc_hid_dim self in
  Embedding.wf (DecoderWithAttention.embedding self) = true
  /\ Embedding.num_embeddings (DecoderWithAttention.embedding self)
     = DecoderWithAttention.output_dim self
  /\ Embedding.embedding_dim (DecoderWithAttention.embedding self)
     = DecoderWithAttention.emb_dim self
  /\ GRU.wf (DecoderWithAttention.rnn self) = true
  /\ GRU.input_size (DecoderWithAttention.rnn self)
     = DecoderWithAttention.emb_dim self + enc_out
  /\ GRU.hidden_size (DecoderWithAttention.rnn self)
     = DecoderWithAttention.dec_hid_dim self
  /\ Linear.wf (DecoderWithAttention.out self) = true
  /\ Linear.in_features (DecoderWithAttention.out self)
     = DecoderWithAttention.emb_dim self + enc_out
       + DecoderWithAttention.dec_hid_dim self
  /\ Linear.out_features (DecoderWithAttention.out self)
     = DecoderWithAttention.output_dim self.
Proof.
  unfold DecoderWithAttention.wf. cbv zeta.
  rewrite !andb_true_iff, !Nat.eqb_eq. tauto.
Qed.

Lemma Attention_forward_yields bidirectional self hidden enc n B :
  Attention.wf bidirectional self = true ->
  shape3 (S n) B ((1 + (if bidirectional then 1 else 0)) * Attention.enc_hid_dim self) enc ->
  shape3 1 B (Attention.dec_hid_dim self) hidden ->
  yields (Attention.forward self hidden enc) (shape3 (S n) B 1).
Proof.
  intros Hwf Henc Hhid.
  destruct (Attention_scores_yields _ _ _ _ _ _ Hwf Henc Hhid) as (x & Hx & Hshape).
  rewrite (Attention_forward_softmax _ _ _ _ Hx). apply yields_ok.
  apply (softmax_normalised n B 1 x default_temperature Hshape).
Qed.

Lemma Decoder_forward_returns bidirectional self input hidden enc n B :
  DecoderWithAttention.wf bidirectional self = true ->
  Attention.wf bidirectional (DecoderWithAttention.attention self) = true ->
  Attention.enc_hid_dim (DecoderWithAttention.attention self)
  = DecoderWithAttention.enc_hid_dim self ->
  Attention.dec_hid_dim (DecoderWithAttention.attention self)
  = DecoderWithAttention.dec_hid_dim self ->
  sized (in_vocab (DecoderWithAttention.output_dim self)) B input ->
  shape3 1 B (DecoderWithAttention.dec_hid_dim self) hidden ->
  shape3 (S n) B
         ((1 + (if bidirectional then 1 else 0)) * DecoderWithAttention.enc_hid_dim self)
         enc ->
  returns (DecoderWithAttention.forward self input hidden enc)
          (fun r => shape2 B (DecoderWithAttention.output_dim self) (fst r)
                    /\ shape3 1 B (DecoderWithAttention.dec_hid_dim self) (snd r)).
Proof.
  intros Hwf Hatt Hae Had Hin Hhid Henc.
  apply wf_Decoder_inv in Hwf. cbv zeta in Hwf.
  destruct Hwf as (Wemb & Nemb & Demb & Wrnn & Irnn & Hrnn & Wout & Iout & Oout).
  set (E2 := (1 + (if bidirectional then 1 else 0))
             * DecoderWithAttention.enc_hid_dim self) in *.
  unfold DecoderWithAttention.forward.
  eapply returns_bind.
  { apply returns_lift.
    apply (Embedding_forward_yields _ [input] 1 B Wemb).
    apply sized_cons; [rewrite Nemb; exact Hin|apply sized_nil]. }
  intros e He.
  eapply returns_bind; [apply Dropout_forward_returns, He|].
  intros embedded Hemb. rewrite Demb in Hemb.
  eapply returns_bind.
  { apply returns_lift.
    apply (Attention_forward_yields bidirectional _ hidden enc n B Hatt).
    - rewrite Hae. exact Henc.
    - rewrite Had. exact Hhid. }
  intros a_t Ha.
  eapply returns_bind; [apply returns_lift, (mul_yields _ _ E2 _ _ Ha Henc)|].
  intros weighted Hw.
  assert (Hwt : shape3 1 B E2 [torch.sum_dim0 weighted]).
  { apply sized_cons; [|apply sized_nil].
    eapply entries2_shape, (sum_dim0_entries (fun _ => True)); [tauto|].
    eapply sized_weaken; [exact Hw|]. intros m Hm.
    eapply sized_weaken; [exact Hm|]. intros v Hv. split; [exact Hv|].
    apply Forall_forall. tauto. }
  cbn [tensor.cat_dim2 Res.bind].
  eapply returns_bind; [apply returns_lift, (cat2_yields _ _ _ _ _ _ Hemb Hwt)|].
  intros rnn_in Hrin. rewrite <- Irnn in Hrin. rewrite <- Hrnn in Hhid.
  eapply returns_bind;
    [apply returns_lift, (GRU_forward_yields _ _ _ 1 B Wrnn Hrin Hhid)|].
  intros [output hidden'] [Hout Hhid']. cbn [fst snd] in *.
  eapply returns_bind.
  { apply returns_lift. eapply yields_bind.
    - apply (cat2_yields _ _ _ _ _ _ Hwt Hout).
    - intros rest Hrest. apply (cat2_yields _ _ _ _ _ _ Hemb Hrest). }
  intros out_in Hoin.
  rewrite Hrnn, Nat.add_assoc, <- Iout in Hoin.
  eapply returns_bind;
    [apply returns_lift, (Linear_forward_yields _ _ 1 B Wout Hoin)|].
  intros prediction Hpred. rewrite Oout in Hpred.
  destruct prediction as [|p [|p' rest]];
    try (destruct Hpred as [Hlen _]; cbn in Hlen; discriminate).
  apply sized_cons_inv in Hpred. destruct Hpred as (_ & _ & Hp & _).
  cbn [tensor.squeeze0]. eapply returns_bind; [apply returns_lift, yields_ok, Hp|].
  intros p0 Hp0. apply returns_ret. cbn [fst snd].
  split; [exact Hp0|]. rewrite <- Hrnn. exact Hhid'.
Qed.

(** ** The whole forward pass on valid inputs *)

Lemma getitem_yields {A : Type} (P : A -> Prop) n l t :
  sized P n l -> t < n -> yields (tensor.getitem l t) P.
Proof.
  intros Hl Ht. unfold tensor.getitem.
  destruct (nth_error l t) as [a|] eqn:Hnth.
  - apply yields_ok. destruct Hl as [_ Hall]. rewrite Forall_forall in Hall.
    apply Hall. eapply nth_error_In. exact Hnth.
  - apply nth_error_None in Hnth. destruct Hl as [Hlen _]. lia.
Qed.

Lemma getitem_last_yields {A : Type} (P : A -> Prop) n l :
  sized P (S n) l -> yields (tensor.getitem_last l) P.
Proof.
  intros Hl. apply sized_rev in Hl. unfold tensor.getitem_last.
  destruct (rev l) as [|a r]; [apply sized_nil_inv in Hl; discriminate|].
  apply sized_cons_inv in Hl. destruct Hl as (_ & _ & Ha & _).
  apply yields_ok, Ha.
Qed.

Lemma getitem_last_nth {A : Type} (l : list A) a d :
  tensor.getitem_last l = Ok a -> a = nth (length l - 1) l d.
Proof.
  unfold tensor.getitem_last. destruct l as [|x l] using rev_ind; [discriminate|].
  rewrite rev_app_distr. cbn. intros Heq. injection Heq as <-.
  rewrite length_app. cbn. replace (length l + 1 - 1) with (length l) by lia.
  rewrite app_nth2 by lia. rewrite Nat.sub_diag. reflexivity.
Qed.

(** ** The last direction of the last layer of the encoder *)

(** The final hidden states a stack returns end with those of its last
    layer, run on the output of the layers below. *)
Lemma LSTM_stack_last m B : forall ls xs g o hs cs g',
  ls <> [] ->
  LSTM.stack m ls xs B g = Ok ((o, hs, cs), g') ->
  exists xsL oL hL cL pre,
    last_layer_input m ls xs B g = Ok (xsL, g')
    /\ LSTM.layer (LSTM.hidden_size m) (last ls []) xsL B = Ok (oL, hL, cL)
    /\ hs = pre ++ hL.
Proof.
  induction ls as [|l ls IH]; intros xs g o hs cs g' Hne Hs; [contradiction|].
  cbn [LSTM.stack] in Hs.
  apply st_bind_inv in Hs. destruct Hs as ([[o1 h1] c1] & g1 & Hl & Hk).
  apply st_lift_inv in Hl. destruct Hl as [Hl ->].
  destruct ls as [|l2 ls].
  - apply st_ret_inv in Hk. destruct Hk as [Heq ->]. injection Heq as -> -> ->.
    exists xs, o1, h1, c1, []. split; [reflexivity|]. split; [exact Hl|reflexivity].
  - apply st_bind_inv in Hk. destruct Hk as (o' & g2 & Hdrop & Hk).
    apply st_bind_inv in Hk. destruct Hk as ([[oN hsN] csN] & g3 & Hrest & Hk).
    apply st_ret_inv in Hk. destruct Hk as [Heq ->]. injection Heq as -> -> ->.
    destruct (IH o' g2 oN hsN csN g3 ltac:(discriminate) Hrest)
      as (xsL & oL & hL & cL & pre & Hin & Hlayer & ->).
    exists xsL, oL, hL, cL, (h1 ++ pre).
    split; [|split; [exact Hlayer|apply app_assoc]].
    cbn [last_layer_input]. unfold StM.bind at 1. unfold StM.lift at 1. rewrite Hl.
    unfold StM.bind at 1. rewrite Hdrop. exact Hin.
Qed.

(** The final hidden states of a layer end with that of its last
    direction. *)
Lemma LSTM_layer_last H cells xs B o hs cs rev cell :
  LSTM.layer H cells xs B = Ok (o, hs, cs) ->
  (cells = [cell] /\ rev = false) \/ (exists cf, cells = [cf; cell] /\ rev = true) ->
  exists od h c pre,
    LSTM.direction H rev cell xs B = Ok (od, h, c) /\ hs = pre ++ [h].
Proof.
  intros Hl [[-> ->]|(cf & -> & ->)]; cbn [LSTM.layer] in Hl.
  - destruct (LSTM.direction H false cell xs B) as [[[od h] c]|e];
      cbn in Hl; [|discriminate].
    injection Hl as <- <- <-. exists od, h, c, []. split; reflexivity.
  - destruct (LSTM.direction H false cf xs B) as [[[o1 h1] c1]|e];
      cbn in Hl; [|discriminate].
    destruct (LSTM.direction H true cell xs B) as [[[o2 h2] c2]|e];
      cbn in Hl; [|discriminate].
    injection Hl as <- <- <-. exists o2, h2, c2, [h1]. split; reflexivity.
Qed.

Lemma wf_layers_last m : forall ls input,
  LSTM.wf_layers m input ls = true -> ls <> [] ->
  length (last ls []) = LSTM.num_directions m.
Proof.
  induction ls as [|l ls IH]; intros input Hwf Hne; [contradiction|].
  cbn [LSTM.wf_layers] in Hwf. rewrite !andb_true_iff, Nat.eqb_eq in Hwf.
  destruct Hwf as [[Hlen _] Hrest].
  destruct ls as [|l2 ls]; [exact Hlen|].
  change (last (l :: l2 :: ls) []) with (last (l2 :: ls) []).
  apply (IH _ Hrest). discriminate.
Qed.

(** In a well-formed LSTM the last direction of the last layer is the
    backward one exactly when the LSTM is bidirectional. *)
Lemma last_direction_wf m :
  LSTM.wf m = true ->
  exists cell,
    last_direction m = Some (LSTM.bidirectional m, cell)
    /\ ((last (LSTM.layers m) [] = [cell] /\ LSTM.bidirectional m = false)
        \/ (exists cf, last (LSTM.layers m) [] = [cf; cell]
                       /\ LSTM.bidirectional m = true)).
Proof.
  unfold LSTM.wf. rewrite !andb_true_iff, Nat.leb_le, Nat.eqb_eq.
  intros [[Hpos Hlen] Hwf].
  assert (Hne : LSTM.layers m <> []).
  { intros Hnil. rewrite Hnil in Hlen. cbn in Hlen. lia. }
  pose proof (wf_layers_last m _ _ Hwf Hne) as Hlast.
  unfold last_direction, LSTM.num_directions in *.
  destruct (LSTM.bidirectional m);
    destruct (last (LSTM.layers m) []) as [|c1 [|c2 [|c3 rest]]];
    cbn in Hlast; try discriminate.
  - exists c2. split; [reflexivity|]. right. exists c1. split; reflexivity.
  - exists c1. split; [reflexivity|]. left. split; reflexivity.
Qed.

(** [hidden[-1]] of what the encoder returns is the final hidden state of
    the last direction of its last layer. *)
Lemma Encoder_forward_last_hidden self src n B g es hid cell g' :
  Encoder.wf self = true ->
  sized (sized (in_vocab (Encoder.input_dim self)) B) (S n) src ->
  Encoder.forward self src g = Ok ((es, hid, cell), g') ->
  exists xs c o h cL,
    Encoder_last_layer_input self src g = Ok (xs, g')
    /\ last_direction (Encoder.rnn self) = Some (Encoder.bidirectional self, c)
    /\ LSTM.direction (Encoder.hid_dim self) (Encoder.bidirectional self) c xs B
       = Ok (o, h, cL)
    /\ tensor.getitem_last hid = Ok h.
Proof.
  intros Hwf Hsrc Hf.
  pose proof Hwf as W. apply wf_Encoder_inv in W.
  destruct W as (Wemb & Nemb & Demb & Wrnn & Irnn & Hrnn & Lrnn & Brnn).
  unfold Encoder.forward in Hf.
  apply st_bind_inv in Hf. destruct Hf as (e & g0 & He & Hf).
  apply st_lift_inv in He. destruct He as [He ->].
  apply st_bind_inv in Hf. destruct Hf as (embedded & g1 & Hdrop & Hf).
  apply st_bind_inv in Hf. destruct Hf as ([[o1 h1] c1] & g2 & Hrnn_run & Hf).
  apply st_ret_inv in Hf. destruct Hf as [Heq ->]. injection Heq as -> -> ->.
  assert (Hshape : shape3 (S n) B (Embedding.embedding_dim (Encoder.embedding self))
                          embedded).
  { rewrite <- Nemb in Hsrc.
    destruct (Embedding_forward_yields _ src (S n) B Wemb Hsrc) as (e' & He' & Hes).
    rewrite He in He'. injection He' as <-.
    destruct (Dropout_forward_returns (Encoder.dropout self) e _ _ _ Hes g)
      as (a & s' & Ha & Hshape).
    rewrite Hdrop in Ha. injection Ha as <- <-. exact Hshape. }
  destruct embedded as [|x0 rest]; [apply sized_nil_inv in Hshape; discriminate|].
  assert (Hx0 : length x0 = B).
  { apply sized_cons_inv in Hshape. destruct Hshape as (? & _ & [Hx0 _] & _). exact Hx0. }
  cbn [LSTM.forward] in Hrnn_run.
  assert (Hne : LSTM.layers (Encoder.rnn self) <> []).
  { pose proof Wrnn as W. unfold LSTM.wf in W.
    rewrite !andb_true_iff, Nat.leb_le, Nat.eqb_eq in W. destruct W as [[Hpos Hlen] _].
    intros Hnil. rewrite Hnil in Hlen. cbn in Hlen. lia. }
  destruct (LSTM_stack_last _ _ _ _ _ _ _ _ _ Hne Hrnn_run)
    as (xsL & oL & hL & cL & pre & Hin & Hlayer & ->).
  destruct (last_direction_wf _ Wrnn) as (c & Hdir & Hcells).
  rewrite Brnn in Hdir, Hcells. rewrite Hrnn, Hx0 in Hlayer.
  destruct (LSTM_layer_last _ _ _ _ _ _ _ (Encoder.bidirectional self) c Hlayer Hcells)
    as (od & h & cN & pre' & Hd & ->).
  exists xsL, c, od, h, cN.
  split; [|split; [exact Hdir|split; [exact Hd|]]].
  - unfold Encoder_last_layer_input. unfold StM.bind at 1. unfold StM.lift at 1.
    rewrite He. unfold StM.bind at 1. rewrite Hdrop. cbn [hd]. exact Hin.
  - unfold tensor.getitem_last. rewrite app_assoc, rev_app_distr. reflexivity.
Qed.

Lemma compatible_inv self :
  Seq2Seq.compatible self = true ->
  let enc := Seq2Seq.encoder self in
  let dec := Seq2Seq.decoder self in
  let att := DecoderWithAttention.attention dec in
  Encoder.wf enc = true
  /\ DecoderWithAttention.wf (Encoder.bidirectional enc) dec = true
  /\ Attention.wf (Encoder.bidirectional enc) att = true
  /\ DecoderWithAttention.enc_hid_dim dec = Encoder.hid_dim enc
  /\ Attention.enc_hid_dim att = Encoder.hid_dim enc
  /\ DecoderWithAttention.dec_hid_dim dec = Encoder.hid_dim enc
  /\ Attention.dec_hid_dim att = Encoder.hid_dim enc
  /\ 1 <= DecoderWithAttention.output_dim dec.
Proof.
  unfold Seq2Seq.compatible. cbv zeta.
  rewrite !andb_true_iff, !Nat.eqb_eq, Nat.leb_le. tauto.
Qed.

Lemma encoder_width bidirectional H :
  H * directions bidirectional = (1 + (if bidirectional then 1 else 0)) * H.
Proof. unfold directions. destruct bidirectional; lia. Qed.

Section Total.

Variable self : Seq2Seq.t Encoder.t DecoderWithAttention.t.
Variables src trg : tokens2.
Variable ratio : Q.
Variables srcLen trgLen batch : nat.

Let enc := Seq2Seq.encoder self.
Let dec := Seq2Seq.decoder self.
Let H := Encoder.hid_dim enc.
Let vocab := DecoderWithAttention.output_dim dec.

Hypothesis Hcompatible : Seq2Seq.compatible self = true.
Hypothesis Hsrc :
  sized (sized (in_vocab (Encoder.input_dim enc)) batch) (S srcLen) src.
Hypothesis Htrg : sized (sized (in_vocab vocab) batch) (S trgLen) trg.

Let loop_invariant := valid_loop_state (S trgLen) batch vocab H.

Lemma batch_size_valid : Seq2Seq.batch_size trg = batch.
Proof.
  unfold Seq2Seq.batch_size. destruct trg as [|row rest];
    [apply sized_nil_inv in Htrg; discriminate|].
  apply sized_cons_inv in Htrg. destruct Htrg as (_ & _ & [Hrow _] & _). exact Hrow.
Qed.

Lemma trg_len_valid : Seq2Seq.trg_len trg = S trgLen.
Proof. unfold Seq2Seq.trg_len. destruct Htrg as [Hlen _]. exact Hlen. Qed.

Lemma zeros_shape a b c : shape3 a b c (torch.zeros a b c).
Proof.
  unfold torch.zeros, torch.zeros2, torch.zeros1.
  apply sized_repeat, sized_repeat, repeat_length.
Qed.

Lemma prologue_returns :
  returns (Seq2Seq.prologue self src trg)
          (fun r =>
             shape3 (S srcLen) batch (H * directions (Encoder.bidirectional enc)) (fst r)
             /\ loop_invariant (snd r)).
Proof.
  pose proof (compatible_inv self Hcompatible) as Hc. cbv zeta in Hc.
  destruct Hc as (Wenc & _ & _ & _ & _ & _ & _ & _).
  unfold Seq2Seq.prologue.
  eapply returns_bind.
  { apply returns_call. apply (Encoder_forward_returns enc src srcLen batch Wenc Hsrc). }
  intros [[es hid] cell] (Hes & Hhid & _). cbn [fst snd] in *.
  assert (Hn : exists k, Encoder.n_layers enc * directions (Encoder.bidirectional enc)
                         = S k).
  { apply wf_Encoder_inv in Wenc.
    destruct Wenc as (_ & _ & _ & Wrnn & _ & _ & Lrnn & _).
    unfold LSTM.wf in Wrnn. rewrite !andb_true_iff, Nat.leb_le in Wrnn.
    destruct Wrnn as [[Hpos _] _]. rewrite Lrnn in Hpos.
    exists (Encoder.n_layers enc * directions (Encoder.bidirectional enc) - 1).
    unfold directions, enc in *.
    destruct (Encoder.bidirectional (Seq2Seq.encoder self)); lia. }
  destruct Hn as [k Hk]. rewrite Hk in Hhid.
  eapply returns_bind; [apply returns_lift, (getitem_last_yields _ _ _ Hhid)|].
  intros last Hlast.
  eapply returns_bind; [apply returns_lift, (getitem_yields _ _ _ 0 Htrg); lia|].
  intros row Hrow. apply returns_ret. cbn [fst snd]. split; [exact Hes|].
  unfold loop_invariant, valid_loop_state.
  cbn [Seq2Seq.input Seq2Seq.hidden Seq2Seq.outputs].
  split; [exact Hrow|]. split; [apply sized_cons; [exact Hlast|apply sized_nil]|].
  rewrite batch_size_valid, trg_len_valid. apply zeros_shape.
Qed.

Lemma body_returns es st t :
  shape3 (S srcLen) batch (H * directions (Encoder.bidirectional enc)) es ->
  loop_invariant st -> 1 <= t < S trgLen ->
  returns (Seq2Seq.body self trg ratio es st t) loop_invariant.
Proof.
  intros Hes (Hin & Hhid & Hout) Ht.
  pose proof (compatible_inv self Hcompatible) as Hc. cbv zeta in Hc.
  fold enc dec in Hc. destruct Hc as (_ & Wdec & Watt & De & Ae & Dd & Ad & Hv).
  unfold Seq2Seq.body.
  eapply returns_bind.
  { apply returns_call.
    apply (Decoder_forward_returns (Encoder.bidirectional enc) dec
             (Seq2Seq.input st) (Seq2Seq.hidden st) es srcLen batch Wdec Watt).
    - congruence.
    - congruence.
    - exact Hin.
    - rewrite Dd. exact Hhid.
    - rewrite De, <- encoder_width. exact Hes. }
  intros [output hidden'] [Hoshape Hhshape]. cbn [fst snd] in *.
  rewrite batch_size_valid.
  eapply returns_bind;
    [apply returns_lift, (setitem_yields _ _ _ _ _ _ Hout); [lia|exact Hoshape]|].
  intros outputs' Houts'.
  eapply returns_bind; [apply (returns_random_random (fun _ => True)); tauto|].
  intros r _.
  eapply returns_bind; [apply returns_lift, (argmax_yields _ _ _ Hv Hoshape)|].
  intros top1 Htop.
  eapply returns_bind with (P := sized (in_vocab vocab) batch).
  { destruct (Qltb r ratio).
    - apply returns_lift, (getitem_yields _ _ _ t Htrg). lia.
    - apply returns_ret, Htop. }
  intros input' Hin'. apply returns_ret. unfold loop_invariant, valid_loop_state.
  cbn [Seq2Seq.input Seq2Seq.hidden Seq2Seq.outputs].
  split; [exact Hin'|]. split; [unfold H; rewrite <- Dd; exact Hhshape|exact Houts'].
Qed.

Lemma loop_until_returns stop :
  stop <= S trgLen ->
  returns (Seq2Seq.loop_until self src trg ratio stop) loop_invariant.
Proof.
  intros Hstop. unfold Seq2Seq.loop_until.
  eapply returns_bind; [apply prologue_returns|].
  intros [es st] [Hes Hst]. cbn [fst snd] in *.
  apply returns_foldM_seq; [|exact Hst].
  intros t a Ht Ha. apply body_returns; [exact Hes|exact Ha|lia].
Qed.

Lemma forward_returns :
  returns (Seq2Seq.forward self src trg ratio) (shape3 (S trgLen) batch vocab).
Proof.
  unfold Seq2Seq.forward.
  eapply returns_bind; [apply loop_until_returns; rewrite trg_len_valid; lia|].
  intros st (_ & _ & Hout). apply returns_ret, Hout.
Qed.

End Total.

(** * The claims *)

(** Run a concrete model, leaving the real arithmetic symbolic. *)
Ltac run_model :=
  cbv - [Rplus Rmult Rdiv Rminus Ropp Rinv Rtrigo_def.exp Rtrigo_def.tanh
         sigmoid IZR Rlt_dec Q2R].

(** A concrete run [r] that succeeds cannot have raised. *)
Ltac run_did_not_raise H :=
  match type of H with
  | ?r = Raise _ =>
      let Hok := fresh "Hok" in
      assert (Hok : is_ok r = true) by (run_model; reflexivity);
      rewrite H in Hok; discriminate Hok
  end.

(** ** The shape of the result *)

(** C1.  For a model whose modules agree on their dimensions, every source
    [srcLen x batch] and target [trgLen x batch] of in-vocabulary tokens
    (all three sizes at least 1), every teacher forcing ratio and every
    state of the random sources, [forward] returns, and the tensor it
    returns has shape exactly [trgLen x batch x output_dim]. *)
Theorem forward_output_shape
  (self : Seq2Seq.t Encoder.t DecoderWithAttention.t) (src trg : tokens2)
  (teacher_forcing_ratio : Q) (srcLen trgLen batch : nat) (w : world) :
  Seq2Seq.compatible self = true ->
  1 <= srcLen -> 1 <= trgLen -> 1 <= batch ->
  is_tokens srcLen batch (Encoder.input_dim (Seq2Seq.encoder self)) src = true ->
  is_tokens trgLen batch
            (DecoderWithAttention.output_dim (Seq2Seq.decoder self)) trg = true ->
  exists out w',
    Seq2Seq.forward self src trg teacher_forcing_ratio w = Ok (out, w')
    /\ is_shape3 trgLen batch
                 (DecoderWithAttention.output_dim (Seq2Seq.decoder self)) out = true.
Proof.
  intros Hc Hs Ht _ Hsrc Htrg.
  apply is_tokens_spec in Hsrc. apply is_tokens_spec in Htrg.
  destruct srcLen as [|n]; [lia|]. destruct trgLen as [|k]; [lia|].
  destruct (forward_returns self src trg teacher_forcing_ratio n k batch Hc Hsrc Htrg w)
    as (out & w' & Heq & Hshape).
  exists out, w'. split; [exact Heq|apply is_shape3_spec, Hshape].
Qed.

Lemma forward_output_shape_witness :
  exists out w',
    Seq2Seq.forward Example.model Example.src Example.trg3 (1 # 2)
                    (Example.constant_world (1 # 4)) = Ok (out, w')
    /\ is_shape3 3 1 2 out = true.
Proof.
  apply (forward_output_shape Example.model Example.src Example.trg3 (1 # 2) 2 3 1).
  - reflexivity.
  - lia.
  - lia.
  - lia.
  - reflexivity.
  - reflexivity.
Defined.

(** ** Teacher forcing and greedy feeding *)

(** C3, as stated, fails: with teacher forcing ratio 1 the decoder is
    called at step 1 with [trg[0]], which here is [[0]], and not with
    [trg[1]], which is [[1]]. *)
Lemma teacher_forcing_step_1_not_current_target :
  nth_error Example.trg3 0 = Some [0%Z]
  /\ nth_error Example.trg3 1 = Some [1%Z]
  /\ (exists scores,
        decoder_step Example.model Example.src Example.trg3 1
                     (Example.constant_world 0) 1 [0%Z] scores)
  /\ (forall scores,
        ~ decoder_step Example.model Example.src Example.trg3 1
                       (Example.constant_world 0) 1 [1%Z] scores).
Proof.
  assert (Hstep : exists scores,
             decoder_step Example.model Example.src Example.trg3 1
                          (Example.constant_world 0) 1 [0%Z] scores).
  { eexists. unfold decoder_step. do 7 eexists.
    split; [cbn; lia|].
    split; [run_model; reflexivity|]. split; [run_model; reflexivity|].
    split; [reflexivity|]. run_model. reflexivity. }
  split; [reflexivity|]. split; [reflexivity|]. split; [exact Hstep|].
  intros scores' Hbad. destruct Hstep as [scores Hgood].
  destruct (decoder_step_functional _ _ _ _ _ _ _ _ _ _ Hgood Hbad) as [Heq _].
  discriminate Heq.
Qed.

(** C3, amended.  When [forward] is called with teacher forcing ratio 1
    and returns, then at every step [t] in [1 .. trg_len - 1] the decoder
    is called with the ground-truth tokens of the previous position,
    [trg[t - 1]], whatever the draws of [random.random()] (all of which lie
    below 1). *)
Theorem teacher_forcing_feeds_previous_target
  {E D : Type} {HE : EncoderModule E} {HD : DecoderModule D}
  (self : Seq2Seq.t E D) (src trg : tokens2) (w : world) out w' :
  Seq2Seq.forward self src trg 1 w = Ok (out, w') ->
  (forall n, (py_random w n < 1)%Q) ->
  forall t, 1 <= t <= Seq2Seq.trg_len trg - 1 ->
  exists tok scores,
    nth_error trg (t - 1) = Some tok
    /\ decoder_step self src trg 1 w t tok scores.
Proof.
  intros Hf Hdraws t Ht.
  destruct (forward_decoder_step self src trg 1 w out w' t Hf Ht)
    as (st & w1 & scores & Hl & Hstep).
  exists (Seq2Seq.input st), scores. split; [|exact Hstep].
  destruct t as [|[|t]]; [lia| |].
  - apply loop_until_inv in Hl. destruct Hl as (enc & st0 & w0 & Hp & Hr).
    cbn in Hr. apply st_ret_inv in Hr. destruct Hr as [-> ->].
    apply prologue_inv in Hp.
    destruct Hp as (? & ? & ? & ? & row & _ & _ & Hrow & -> & _). exact Hrow.
  - apply loop_until_succ in Hl; [|lia].
    destruct Hl as (enc & st0 & w0 & stp & wp & _ & Hprev & Hb).
    apply body_inv in Hb.
    destruct Hb as (? & ? & ? & ? & ? & _ & _ & _ & Hin & _).
    rewrite (loop_until_draws self src trg 1 w (S t) stp wp) in Hin by (lia || assumption).
    assert (Hlt : Qltb (py_random w (0 + (S t - 1))) 1 = true).
    { unfold Qltb. apply negb_true_iff, not_true_is_false. intros Hle.
      apply Qle_bool_iff in Hle. apply Qle_not_lt in Hle. apply Hle, Hdraws. }
    rewrite Hlt in Hin. replace (S (S t) - 1) with (S t) by lia. exact Hin.
Qed.

Lemma teacher_forcing_feeds_previous_target_witness :
  match Seq2Seq.forward Example.model Example.src Example.trg3 1
                        (Example.constant_world 0) with
  | Ok _ =>
      exists tok scores,
        nth_error Example.trg3 (2 - 1) = Some tok
        /\ decoder_step Example.model Example.src Example.trg3 1
                        (Example.constant_world 0) 2 tok scores
  | Raise _ => False
  end.
Proof.
  destruct (Seq2Seq.forward Example.model Example.src Example.trg3 1
                            (Example.constant_world 0)) as [[out w']|e] eqn:Hf.
  - apply (teacher_forcing_feeds_previous_target _ _ _ _ _ _ Hf).
    + intros n. reflexivity.
    + cbn. lia.
  - run_did_not_raise Hf.
Defined.

(** On [Example.greedy_model] the scores of step 1 are [[0; 1]] up to a
    common term, so that their argmax is token 1. *)
Lemma greedy_example_token ratio w tok scores tok' :
  decoder_step Example.greedy_model Example.src Example.trg3_zero ratio w 1 tok scores ->
  is_argmax scores tok' -> tok' = [1%Z].
Proof.
  intros Hstep Hmax.
  assert (Hrun : exists s0 s1 tok0,
             decoder_step Example.greedy_model Example.src Example.trg3_zero ratio w
                          1 tok0 [[s0; s1]]
             /\ (s0 < s1)%R).
  { do 3 eexists. split.
    - unfold decoder_step. do 7 eexists.
      split; [cbn; lia|].
      split; [run_model; reflexivity|]. split; [run_model; reflexivity|].
      split; [reflexivity|]. run_model. reflexivity.
    - apply Rplus_lt_compat_l. lra. }
  destruct Hrun as (s0 & s1 & tok0 & Hrun & Hlt).
  destruct (decoder_step_functional _ _ _ _ _ _ _ _ _ _ Hstep Hrun) as [_ ->].
  inversion Hmax as [|row k rows ks Hk Hrest]; subst.
  inversion Hrest; subst.
  destruct Hk as (i & -> & Hi & Hle & _). cbn in Hi.
  destruct i as [|[|i]]; [|reflexivity|lia].
  specialize (Hle 1 ltac:(cbn; lia)). cbn in Hle. lra.
Qed.

(** C4.  When [forward] is called with teacher forcing ratio 0 and returns
    (the draws of [random.random()] are never negative), then at step 1
    the decoder is called with [trg[0]], and at every step [t] in
    [2 .. trg_len - 1] it is called with the [argmax(-1)] of the scores it
    returned at step [t - 1]: for every batch element, the index of the
    first largest of that element's scores.  (The scores are numbers here;
    how torch ranks a NaN is not modelled.) *)
Theorem greedy_feeds_argmax
  {E D : Type} {HE : EncoderModule E} {HD : DecoderModule D}
  (self : Seq2Seq.t E D) (src trg : tokens2) (w : world) out w' :
  Seq2Seq.forward self src trg 0 w = Ok (out, w') ->
  (forall n, (0 <= py_random w n)%Q) ->
  forall t, 1 <= t <= Seq2Seq.trg_len trg - 1 ->
  exists tok scores,
    decoder_step self src trg 0 w t tok scores
    /\ (t = 1 -> nth_error trg 0 = Some tok)
    /\ (2 <= t ->
        exists tok_prev scores_prev,
          decoder_step self src trg 0 w (t - 1) tok_prev scores_prev
          /\ tensor.argmax scores_prev = Ok tok
          /\ is_argmax scores_prev tok).
Proof.
  intros Hf Hdraws t Ht.
  destruct (forward_decoder_step self src trg 0 w out w' t Hf Ht)
    as (st & w1 & scores & Hl & Hstep).
  exists (Seq2Seq.input st), scores. split; [exact Hstep|]. split.
  - intros ->. apply loop_until_inv in Hl. destruct Hl as (enc & st0 & w0 & Hp & Hr).
    cbn in Hr. apply st_ret_inv in Hr. destruct Hr as [-> ->].
    apply prologue_inv in Hp.
    destruct Hp as (? & ? & ? & ? & row & _ & _ & Hrow & -> & _). exact Hrow.
  - intros H2. destruct t as [|t]; [lia|].
    apply loop_until_succ in Hl; [|lia].
    destruct Hl as (enc & st0 & w0 & stp & wp & Hp & Hprev & Hb).
    apply body_inv in Hb.
    destruct Hb as (prev & hid & g & outs & top1 & Hdec & _ & Harg & Hin & _).
    rewrite (loop_until_draws self src trg 0 w t stp wp) in Hin by (lia || assumption).
    assert (Hge : Qltb (py_random w (0 + (t - 1))) 0 = false).
    { unfold Qltb. apply negb_false_iff, Qle_bool_iff, Hdraws. }
    rewrite Hge in Hin. rewrite Hin.
    replace (S t - 1) with t by lia.
    exists (Seq2Seq.input stp), prev.
    split; [|split; [exact Harg|apply argmax_spec, Harg]].
    exists enc, st0, w0, stp, wp, hid, g. repeat split; (assumption || lia).
Qed.

(** On the model whose decoder always scores token 1 above token 0, with
    the target [[0]; [0]; [0]]: at step 2 the decoder is fed the argmax,
    token 1, and not the ground truth [trg[1]], token 0. *)
Lemma greedy_feeds_argmax_witness :
  exists tok scores,
    (decoder_step Example.greedy_model Example.src Example.trg3_zero 0
                  (Example.constant_world 0) 2 tok scores
     /\ (2 = 1 -> nth_error Example.trg3_zero 0 = Some tok)
     /\ (2 <= 2 ->
         exists tok_prev scores_prev,
           decoder_step Example.greedy_model Example.src Example.trg3_zero 0
                        (Example.constant_world 0) (2 - 1) tok_prev scores_prev
           /\ tensor.argmax scores_prev = Ok tok
           /\ is_argmax scores_prev tok))
    /\ tok = [1%Z]
    /\ nth_error Example.trg3_zero 1 = Some [0%Z].
Proof.
  destruct (forward_returns Example.greedy_model Example.src Example.trg3_zero 0 1 2 1
              eq_refl
              (proj1 (is_tokens_spec 2 1 2 Example.src) eq_refl)
              (proj1 (is_tokens_spec 3 1 2 Example.trg3_zero) eq_refl)
              (Example.constant_world 0)) as (out & w' & Hf & _).
  destruct (greedy_feeds_argmax Example.greedy_model Example.src Example.trg3_zero
              (Example.constant_world 0) out w' Hf) with (t := 2)
    as (tok & scores & Hstep & H1 & H2).
  - intros n. cbn. discriminate.
  - cbn. lia.
  - exists tok, scores. split; [split; [exact Hstep|split; [exact H1|exact H2]]|].
    split; [|reflexivity].
    destruct (H2 (le_n 2)) as (tok_prev & scores_prev & Hprev & _ & Hmax).
    apply (greedy_example_token _ _ _ _ _ Hprev Hmax).
Defined.

(** ** Position 0 of the result *)

(** C5.  Whenever [forward] returns, position 0 of the returned tensor is
    the all-zero [batch x vocab] slice [torch.zeros] created; and on entry
    to every iteration [t] of the loop, position 0 and the positions from
    [t] on are still all zero, so that the loop only ever writes positions
    [1 .. trg_len - 1]. *)
Theorem forward_position_0_zero
  {E D : Type} {HE : EncoderModule E} {HD : DecoderModule D}
  (self : Seq2Seq.t E D) (src trg : tokens2) (ratio : Q) (w : world) out w' :
  Seq2Seq.forward self src trg ratio w = Ok (out, w') ->
  nth_error out 0
  = Some (torch.zeros2 (Seq2Seq.batch_size trg) (Seq2Seq.trg_vocab_size self))
  /\ forall t st w1,
      1 <= t ->
      Seq2Seq.loop_until self src trg ratio t w = Ok (st, w1) ->
      forall j, j < Seq2Seq.trg_len trg -> j = 0 \/ t <= j ->
                nth_error (Seq2Seq.outputs st) j
                = Some (torch.zeros2 (Seq2Seq.batch_size trg)
                                     (Seq2Seq.trg_vocab_size self)).
Proof.
  intros Hf. split.
  - unfold Seq2Seq.forward in Hf.
    apply st_bind_inv in Hf. destruct Hf as (st & w1 & Hl & Hr).
    apply st_ret_inv in Hr. destruct Hr as [-> ->].
    assert (Hlen : 1 <= Seq2Seq.trg_len trg).
    { apply loop_until_inv in Hl. destruct Hl as (? & ? & ? & Hp & _).
      apply prologue_inv in Hp. destruct Hp as (? & ? & ? & ? & ? & _ & _ & Hrow & _).
      unfold Seq2Seq.trg_len. destruct trg; [discriminate|cbn; lia]. }
    destruct (loop_until_outputs _ _ _ _ _ _ _ _ Hlen Hl) as [_ Hz].
    apply Hz; [lia|left; reflexivity].
  - intros t st w1 Ht Hl. apply (loop_until_outputs _ _ _ _ _ _ _ _ Ht Hl).
Qed.

Lemma forward_position_0_zero_witness :
  match Seq2Seq.forward Example.model Example.src Example.trg2 1
                        (Example.constant_world 0) with
  | Ok (out, _) => nth_error out 0 = Some (torch.zeros2 1 2)
  | Raise _ => False
  end.
Proof.
  destruct (Seq2Seq.forward Example.model Example.src Example.trg2 1
                            (Example.constant_world 0)) as [[out w']|e] eqn:Hf.
  - exact (proj1 (forward_position_0_zero _ _ _ _ _ _ _ Hf)).
  - run_did_not_raise Hf.
Defined.

(** ** The initial state of the decoder *)

(** C6, as stated, fails: with a bidirectional encoder of hidden width 1
    the encoder returns two final hidden states for its layer (forward and
    backward), and the decoder's initial hidden state has width 1, not 2:
    it is not the concatenation of both directions. *)
Lemma initial_hidden_is_one_direction :
  exists es st w' hid cell g both,
    Encoder.bidirectional (Seq2Seq.encoder Example.bidirectional_model) = true
    /\ Seq2Seq.prologue Example.bidirectional_model Example.src Example.trg2
                        (Example.constant_world 0) = Ok ((es, st), w')
    /\ Encoder.forward (Seq2Seq.encoder Example.bidirectional_model) Example.src
                       (torch_rng (Example.constant_world 0)) = Ok ((es, hid, cell), g)
    /\ is_shape3 2 1 1 hid = true
    /\ is_shape3 1 1 1 (Seq2Seq.hidden st) = true
    /\ is_shape3 1 1 2 (Seq2Seq.hidden st) = false
    /\ both_directions hid = Ok both
    /\ Seq2Seq.hidden st <> both.
Proof.
  do 7 eexists. split; [reflexivity|].
  split; [run_model; reflexivity|].
  split; [run_model; reflexivity|].
  split; [reflexivity|]. split; [reflexivity|]. split; [reflexivity|].
  split; [run_model; reflexivity|].
  run_model. intros Heq. discriminate Heq.
Qed.

(** C6, amended.  In the prologue of [forward], for a well-formed encoder
    and a valid source, the decoder's initial hidden state is
    [hidden[-1].unsqueeze(0)]: the last of the [n_layers * directions]
    final hidden states the encoder returns.  That state is the final
    hidden state of the last direction of the last layer, run on that
    layer's input: the backward direction when the encoder is
    bidirectional (and then the backward direction alone), the only
    direction otherwise.  Its shape is [1 x batch x hid_dim], with the
    encoder's [hid_dim], not doubled. *)
Theorem initial_hidden_is_last_encoder_state
  (self : Seq2Seq.t Encoder.t DecoderWithAttention.t) (src trg : tokens2)
  (srcLen batch : nat) (w : world) :
  Encoder.wf (Seq2Seq.encoder self) = true ->
  1 <= srcLen -> 1 <= batch ->
  is_tokens srcLen batch (Encoder.input_dim (Seq2Seq.encoder self)) src = true ->
  trg <> [] ->
  let enc := Seq2Seq.encoder self in
  let n := Encoder.n_layers enc * directions (Encoder.bidirectional enc) in
  exists es st w' hid cell g xs c o h cN,
    Seq2Seq.prologue self src trg w = Ok ((es, st), w')
    /\ Encoder.forward enc src (torch_rng w) = Ok ((es, hid, cell), g)
    /\ is_shape3 n batch (Encoder.hid_dim enc) hid = true
    /\ Seq2Seq.hidden st = [nth (n - 1) hid []]
    /\ Encoder_last_layer_input enc src (torch_rng w) = Ok (xs, g)
    /\ last_direction (Encoder.rnn enc) = Some (Encoder.bidirectional enc, c)
    /\ LSTM.direction (Encoder.hid_dim enc) (Encoder.bidirectional enc) c xs batch
       = Ok (o, h, cN)
    /\ Seq2Seq.hidden st = [h]
    /\ is_shape3 1 batch (Encoder.hid_dim enc) (Seq2Seq.hidden st) = true.
Proof.
  intros Wenc Hs _ Hsrc Htrg enc n.
  apply is_tokens_spec in Hsrc. destruct srcLen as [|a]; [lia|].
  destruct trg as [|row rest]; [contradiction|].
  destruct (Encoder_forward_returns enc src a batch Wenc Hsrc (torch_rng w))
    as ([[es hid] cell] & g & Henc & _ & Hshape & _). cbn [fst snd] in Hshape.
  destruct (Encoder_forward_last_hidden enc src a batch _ _ _ _ _ Wenc Hsrc Henc)
    as (xs & c & o & h & cN & Hin & Hdir & Hrun & Hlast).
  assert (Hh : shape2 batch (Encoder.hid_dim enc) h).
  { fold n in Hshape. destruct n as [|k].
    - destruct hid; [discriminate Hlast|destruct Hshape as [Hlen _]; discriminate Hlen].
    - destruct (getitem_last_yields _ _ _ Hshape) as (h' & Hh' & Hshape').
      rewrite Hlast in Hh'. injection Hh' as <-. exact Hshape'. }
  exists es, {| Seq2Seq.input := row; Seq2Seq.hidden := [h];
                Seq2Seq.outputs :=
                  torch.zeros (Seq2Seq.trg_len (row :: rest))
                              (Seq2Seq.batch_size (row :: rest))
                              (Seq2Seq.trg_vocab_size self) |},
         {| py_random := py_random w; torch_rng := g |}, hid, cell, g, xs, c, o, h, cN.
  cbn [Seq2Seq.hidden].
  split.
  { unfold Seq2Seq.prologue, StM.bind, call.
    change (encoder_call (Seq2Seq.encoder self) src (torch_rng w))
      with (Encoder.forward enc src (torch_rng w)).
    rewrite Henc. unfold StM.lift. rewrite Hlast. reflexivity. }
  split; [exact Henc|]. split; [apply is_shape3_spec, Hshape|].
  split.
  { f_equal. rewrite (getitem_last_nth hid h [] Hlast).
    destruct Hshape as [Hlen _]. fold n in Hlen. rewrite Hlen. reflexivity. }
  split; [exact Hin|]. split; [exact Hdir|]. split; [exact Hrun|].
  split; [reflexivity|].
  apply is_shape3_spec, sized_cons; [exact Hh|apply sized_nil].
Qed.

Lemma initial_hidden_is_last_encoder_state_witness :
  let enc := Seq2Seq.encoder Example.bidirectional_model in
  let n := Encoder.n_layers enc * directions (Encoder.bidirectional enc) in
  exists es st w' hid cell g xs c o h cN,
    Seq2Seq.prologue Example.bidirectional_model Example.src Example.trg2
                     (Example.constant_world 0) = Ok ((es, st), w')
    /\ Encoder.forward enc Example.src (torch_rng (Example.constant_world 0))
       = Ok ((es, hid, cell), g)
    /\ is_shape3 n 1 (Encoder.hid_dim enc) hid = true
    /\ Seq2Seq.hidden st = [nth (n - 1) hid []]
    /\ Encoder_last_layer_input enc Example.src (torch_rng (Example.constant_world 0))
       = Ok (xs, g)
    /\ last_direction (Encoder.rnn enc) = Some (Encoder.bidirectional enc, c)
    /\ LSTM.direction (Encoder.hid_dim enc) (Encoder.bidirectional enc) c xs 1
       = Ok (o, h, cN)
    /\ Seq2Seq.hidden st = [h]
    /\ is_shape3 1 1 (Encoder.hid_dim enc) (Seq2Seq.hidden st) = true.
Proof.
  apply (initial_hidden_is_last_encoder_state
           Example.bidirectional_model Example.src Example.trg2 2 1).
  - reflexivity.
  - lia.
  - lia.
  - reflexivity.
  - discriminate.
Defined.

(** ** The temperature *)

(** C7, as stated, fails: the weights the attention returns are not the
    softmax of its scores at temperature 1; no temperature other than 10
    can be had from the module. *)
Lemma attention_weights_not_at_temperature_1 :
  exists x a_t,
    Attention.scores Example.probe_attention Example.probe_hidden
                     Example.probe_encoder_outputs = Ok x
    /\ Attention.forward Example.probe_attention Example.probe_hidden
                         Example.probe_encoder_outputs = Ok a_t
    /\ a_t <> softmax x 1.
Proof.
  eexists. eexists. split; [run_model; reflexivity|].
  split; [run_model; reflexivity|].
  run_model. intros Heq. injection Heq as Heq _.
  revert Heq. apply softmax_temperature_matters.
  match goal with
  | |- (Rtrigo_def.tanh ?u * 1 + 0 + 0 < Rtrigo_def.tanh ?v * 1 + 0 + 0)%R =>
      replace u with 0%R by lra; replace v with 1%R by lra
  end.
  rewrite tanh_0. pose proof tanh_1_pos. lra.
Qed.

(** C7, amended.  The attention has no temperature option: its weights
    are always the softmax of the scores at the default temperature 10 of
    [softmax], that is, at each source position [s] and batch element [b],
    [exp(score / 10)] divided by the sum of [exp(score / 10)] over the
    source positions. *)
Theorem attention_temperature_is_10
  (bidirectional : bool) (self : Attention.t) (hidden enc : tensor3) (srcLen B : nat) :
  Attention.wf bidirectional self = true ->
  1 <= srcLen ->
  is_shape3 srcLen B
            ((1 + (if bidirectional then 1 else 0)) * Attention.enc_hid_dim self) enc = true ->
  is_shape3 1 B (Attention.dec_hid_dim self) hidden = true ->
  exists x a_t,
    Attention.scores self hidden enc = Ok x
    /\ Attention.forward self hidden enc = Ok a_t
    /\ a_t = softmax x 10
    /\ forall s b, s < srcLen -> b < B ->
         entry a_t s b 0
         = (exp (entry x s b 0 / 10)
            / Rsum (map (fun v => exp (v / 10)) (column x b 0)))%R.
Proof.
  intros Hwf Hlen Henc Hhid.
  apply is_shape3_spec in Henc. apply is_shape3_spec in Hhid.
  destruct (Attention_scores_yields _ _ _ _ _ _ Hwf Henc Hhid) as (x & Hx & Hshape).
  exists x, (softmax x default_temperature).
  split; [exact Hx|]. split; [apply Attention_forward_softmax, Hx|].
  split; [reflexivity|]. intros s b Hs Hb.
  destruct srcLen as [|n]; [lia|].
  apply (softmax_entry n B 1); (assumption || lia).
Qed.

Lemma attention_temperature_is_10_witness :
  exists x a_t,
    Attention.scores Example.probe_attention Example.probe_hidden
                     Example.probe_encoder_outputs = Ok x
    /\ Attention.forward Example.probe_attention Example.probe_hidden
                         Example.probe_encoder_outputs = Ok a_t
    /\ a_t = softmax x 10
    /\ forall s b, s < 2 -> b < 1 ->
         entry a_t s b 0
         = (exp (entry x s b 0 / 10)
            / Rsum (map (fun v => exp (v / 10)) (column x b 0)))%R.
Proof.
  apply (attention_temperature_is_10 false Example.probe_attention).
  - reflexivity.
  - lia.
  - reflexivity.
  - reflexivity.
Defined.

(** ** The constructor *)

(** C8, as stated, fails: an encoder of hidden width 2 (one direction)
    and a decoder of hidden width 3 are accepted by the constructor; the
    mismatch only shows when [forward] reaches the decoder, whose attention
    layer rejects its input. *)
Lemma init_accepts_mismatched_hidden_dims :
  Encoder.bidirectional Example.narrow_encoder = false
  /\ Encoder.hid_dim Example.narrow_encoder = 2
  /\ DecoderWithAttention.dec_hid_dim Example.wide_decoder = 3
  /\ Seq2Seq.init Example.narrow_encoder Example.wide_decoder cpu
     = Ok Example.mismatched_model
  /\ returned (Seq2Seq.forward Example.mismatched_model Example.src Example.trg2 1
                               (Example.constant_world 0))
     = Raise RuntimeError.
Proof.
  split; [reflexivity|]. split; [reflexivity|]. split; [reflexivity|].
  split; [reflexivity|]. run_model. reflexivity.
Qed.

(** C8, amended.  The constructor checks nothing: for every encoder,
    decoder and device it returns the object holding them, never raising;
    in particular it accepts an encoder and a decoder whose hidden
    dimensionalities differ. *)
Theorem init_never_raises {E D : Type} (encoder : E) (decoder : D) (device : device_t) :
  Seq2Seq.init encoder decoder device
  = Ok {| Seq2Seq.encoder := encoder; Seq2Seq.decoder := decoder;
          Seq2Seq.device := device |}.
Proof. reflexivity. Qed.

(** ** A target of one step *)

(** C10.  For a target of length 1 the call is the encoder call followed
    by [hidden[-1]] and nothing else: the right-hand side mentions neither
    the decoder nor [random.random()], the draws of the state are left
    untouched, torch's generator is as the encoder left it, and the tensor
    returned is [torch.zeros(1, batch, output_dim)].  The decoder is never
    called: the outcome is the same with any other decoder object of the
    same [output_dim] in its place, whatever that one does when called. *)
Theorem forward_target_of_length_1
  {E D : Type} {HE : EncoderModule E} {HD : DecoderModule D}
  (self : Seq2Seq.t E D) (src : tokens2) (row : tokens1) (ratio : Q) (w : world) :
  Seq2Seq.forward self src [row] ratio w
  = match encoder_call (Seq2Seq.encoder self) src (torch_rng w) with
    | Ok ((_, hidden, _), g) =>
        match tensor.getitem_last hidden with
        | Ok _ =>
            Ok (torch.zeros 1 (length row) (decoder_output_dim (Seq2Seq.decoder self)),
                {| py_random := py_random w; torch_rng := g |})
        | Raise e => Raise e
        end
    | Raise e => Raise e
    end
  /\ forall (D' : Type) (HD' : DecoderModule D') (other : D'),
      decoder_output_dim other = decoder_output_dim (Seq2Seq.decoder self) ->
      Seq2Seq.forward {| Seq2Seq.encoder := Seq2Seq.encoder self;
                         Seq2Seq.decoder := other;
                         Seq2Seq.device := Seq2Seq.device self |} src [row] ratio w
      = Seq2Seq.forward self src [row] ratio w.
Proof.
  assert (Heq : forall (D0 : Type) (HD0 : DecoderModule D0) (m : Seq2Seq.t E D0),
             Seq2Seq.forward m src [row] ratio w
             = match encoder_call (Seq2Seq.encoder m) src (torch_rng w) with
               | Ok ((_, hidden, _), g) =>
                   match tensor.getitem_last hidden with
                   | Ok _ =>
                       Ok (torch.zeros 1 (length row)
                                       (decoder_output_dim (Seq2Seq.decoder m)),
                           {| py_random := py_random w; torch_rng := g |})
                   | Raise e => Raise e
                   end
               | Raise e => Raise e
               end).
  { intros D0 HD0 m.
    unfold Seq2Seq.forward, Seq2Seq.loop_until, Seq2Seq.prologue, StM.bind, call.
    destruct (encoder_call (Seq2Seq.encoder m) src (torch_rng w))
      as [[[[enc hid] cell] g]|e]; [|reflexivity].
    unfold StM.lift. destruct (tensor.getitem_last hid); reflexivity. }
  split; [apply Heq|].
  intros D' HD' other Hdim. rewrite !Heq. cbn [Seq2Seq.encoder Seq2Seq.decoder].
  rewrite Hdim. reflexivity.
Qed.

Lemma forward_target_of_length_1_witness :
  Seq2Seq.forward {| Seq2Seq.encoder := Seq2Seq.encoder Example.model;
                     Seq2Seq.decoder := Example.wide_decoder;
                     Seq2Seq.device := Seq2Seq.device Example.model |}
                  Example.src Example.trg1 (1 # 2) (Example.constant_world 0)
  = Seq2Seq.forward Example.model Example.src Example.trg1 (1 # 2)
                    (Example.constant_world 0).
Proof.
  apply (proj2 (forward_target_of_length_1
                  Example.model Example.src [0%Z] (1 # 2) (Example.constant_world 0))
               _ _ Example.wide_decoder).
  reflexivity.
Defined.

(** * Further properties of the code *)

(** ** The loop of [forward], for any encoder and decoder modules *)

Lemma nth_error_update_same {A : Type} (l : list A) t v :
  t < length l -> nth_error (firstn t l ++ v :: skipn (S t) l) t = Some v.
Proof.
  intros Ht. rewrite nth_error_app2 by (rewrite length_firstn; lia).
  rewrite length_firstn, Nat.min_l by lia. rewrite Nat.sub_diag. reflexivity.
Qed.

Lemma mapM_Ok_Forall {A B : Type} (f : A -> result B) (Q : B -> Prop) l : forall bs,
  Res.mapM f l = Ok bs -> (forall a b, f a = Ok b -> Q b) ->
  sized Q (length l) bs.
Proof.
  induction l as [|a l IH]; intros bs Hm Hf; cbn in Hm.
  - injection Hm as <-. apply sized_nil.
  - destruct (f a) as [b|e] eqn:Hfa; cbn in Hm; [|discriminate].
    destruct (Res.mapM f l) as [bs'|e]; cbn in Hm; [|discriminate].
    injection Hm as <-. cbn. apply sized_cons; [eapply Hf, Hfa|apply IH; auto].
Qed.

Lemma broadcast_row_shape V row r :
  tensor.broadcast_row V row = Ok r -> shape1 V r.
Proof.
  unfold tensor.broadcast_row, shape1.
  destruct (Nat.eqb_spec (length row) V) as [Heq|Hne].
  - intros Hr. injection Hr as <-. exact Heq.
  - destruct row as [|x [|y row]]; try discriminate.
    intros Hr. injection Hr as <-. apply repeat_length.
Qed.

(** Whatever is assigned to a slice ends up with the shape of the slice. *)
Lemma broadcast_to2_shape B V m v :
  tensor.broadcast_to2 B V m = Ok v -> shape2 B V v.
Proof.
  unfold tensor.broadcast_to2.
  destruct (Res.mapM (tensor.broadcast_row V) m) as [rows|e] eqn:Hrows; cbn; [|discriminate].
  pose proof (mapM_Ok_Forall _ (shape1 V) _ _ Hrows (broadcast_row_shape V)) as [_ Hall].
  destruct (Nat.eqb_spec (length rows) B) as [Heq|Hne].
  - intros Hv. injection Hv as <-. split; assumption.
  - destruct rows as [|r [|r' rows]]; try discriminate.
    intros Hv. injection Hv as <-. apply sized_repeat.
    inversion Hall; assumption.
Qed.

Section Loop.

Context {E D : Type} {HE : EncoderModule E} {HD : DecoderModule D}.
Variable self : Seq2Seq.t E D.
Variables src trg : tokens2.
Variable ratio : Q.

Local Abbreviation B := (Seq2Seq.batch_size trg).
Local Abbreviation V := (Seq2Seq.trg_vocab_size self).
Local Abbreviation loop_until := (Seq2Seq.loop_until self src trg ratio).
Local Abbreviation forward := (Seq2Seq.forward self src trg ratio).

Lemma forward_inv w out w' :
  forward w = Ok (out, w') ->
  1 <= Seq2Seq.trg_len trg
  /\ exists st, loop_until (Seq2Seq.trg_len trg) w = Ok (st, w')
                /\ out = Seq2Seq.outputs st.
Proof.
  intros Hf. unfold Seq2Seq.forward in Hf.
  apply st_bind_inv in Hf. destruct Hf as (st & w1 & Hl & Hr).
  apply st_ret_inv in Hr. destruct Hr as [-> ->].
  split; [|exists st; split; [exact Hl|reflexivity]].
  apply loop_until_inv in Hl. destruct Hl as (? & ? & ? & Hp & _).
  apply prologue_inv in Hp. destruct Hp as (? & ? & ? & ? & ? & _ & _ & Hrow & _).
  unfold Seq2Seq.trg_len. destruct trg; [discriminate|cbn; lia].
Qed.

Lemma loop_until_outputs_shape w t st w' :
  1 <= t -> loop_until t w = Ok (st, w') ->
  shape3 (Seq2Seq.trg_len trg) B V (Seq2Seq.outputs st).
Proof.
  intros Ht Hl.
  apply (loop_until_ind self src trg ratio
           (fun _ st _ => shape3 (Seq2Seq.trg_len trg) B V (Seq2Seq.outputs st)) w)
    with (t := t) (w' := w'); try assumption.
  - intros enc st0 w0 Hp. apply prologue_inv in Hp.
    destruct Hp as (? & ? & ? & ? & ? & _ & _ & _ & -> & _). cbn.
    apply zeros_shape.
  - intros enc st0 w0 t0 st1 w1 st2 w2 _ Ht0 IH Hb. apply body_inv in Hb.
    destruct Hb as (output & ? & ? & outs & ? & _ & Hset & _ & _ & _ & -> & _).
    apply setitem_inv in Hset. destruct Hset as (Hlt & v & Hv & ->).
    apply sized_update; [exact IH| |apply (broadcast_to2_shape _ _ _ _ Hv)].
    destruct IH as [Hlen _]. lia.
Qed.

(** Once iteration [t] has stored the scores of its decoder call, they
    stay at position [t]. *)
Lemma loop_until_keeps_scores w t tok scores :
  decoder_step self src trg ratio w t tok scores ->
  forall d st w',
    loop_until (S t + d) w = Ok (st, w') ->
    exists v, tensor.broadcast_to2 B V scores = Ok v
              /\ nth_error (Seq2Seq.outputs st) t = Some v.
Proof.
  intros (enc & st0 & w0 & stt & wt & hid & g & Ht & Hp & Hl & Hin & Hdec).
  induction d as [|d IH]; intros st w' Hs.
  - rewrite Nat.add_0_r in Hs. apply loop_until_succ in Hs; [|lia].
    destruct Hs as (enc' & st0' & w0' & st1 & w1 & Hp' & Hl' & Hb).
    rewrite Hp in Hp'. injection Hp' as <- <- <-.
    rewrite Hl in Hl'. injection Hl' as <- <-.
    apply body_inv in Hb.
    destruct Hb as (output & ? & ? & outs & ? & Hdec' & Hset & _ & _ & _ & -> & _).
    rewrite Hin, Hdec in Hdec'. injection Hdec' as <- _ _.
    apply setitem_inv in Hset. destruct Hset as (Hlt & v & Hv & ->).
    exists v. split; [exact Hv|apply nth_error_update_same, Hlt].
  - replace (S t + S d) with (S (S t + d)) in Hs by lia.
    apply loop_until_succ in Hs; [|lia].
    destruct Hs as (enc' & st0' & w0' & st1 & w1 & _ & Hl' & Hb).
    destruct (IH st1 w1 Hl') as (v & Hv & Hnth).
    apply body_inv in Hb.
    destruct Hb as (output & ? & ? & outs & ? & _ & Hset & _ & _ & _ & -> & _).
    apply setitem_inv in Hset. destruct Hset as (Hlt & v' & _ & ->).
    exists v. split; [exact Hv|]. rewrite nth_error_update_other by lia. exact Hnth.
Qed.

End Loop.

(** X1.  With an empty target [forward] never returns: it raises what the
    encoder raised, and [IndexError] whenever the encoder returned (from
    [hidden[-1]] or from [trg[0,:]]). *)
Theorem forward_empty_target_raises
  {E D : Type} {HE : EncoderModule E} {HD : DecoderModule D}
  (self : Seq2Seq.t E D) (src : tokens2) (ratio : Q) (w : world) :
  Seq2Seq.forward self src [] ratio w
  = match encoder_call (Seq2Seq.encoder self) src (torch_rng w) with
    | Ok _ => Raise IndexError
    | Raise e => Raise e
    end.
Proof.
  unfold Seq2Seq.forward, Seq2Seq.loop_until, Seq2Seq.prologue, StM.bind, call.
  destruct (encoder_call (Seq2Seq.encoder self) src (torch_rng w))
    as [[[[enc hid] cell] g]|e]; [|reflexivity].
  unfold StM.lift, tensor.getitem_last. destruct (rev hid); reflexivity.
Qed.

(** X2.  A call of [forward] that returns has consumed exactly
    [trg_len - 1] draws of [random.random()], one per iteration: the draws
    left are the initial ones from index [trg_len - 1] on. *)
Theorem forward_consumes_one_draw_per_step
  {E D : Type} {HE : EncoderModule E} {HD : DecoderModule D}
  (self : Seq2Seq.t E D) (src trg : tokens2) (ratio : Q) (w : world) out w' :
  Seq2Seq.forward self src trg ratio w = Ok (out, w') ->
  forall n, py_random w' n = py_random w (n + (Seq2Seq.trg_len trg - 1)).
Proof.
  intros Hf. apply forward_inv in Hf. destruct Hf as (Hlen & st & Hl & _).
  apply (loop_until_draws self src trg ratio w _ st w' Hlen Hl).
Qed.

Lemma forward_consumes_one_draw_per_step_witness :
  match Seq2Seq.forward Example.model Example.src Example.trg3 (1 # 2)
                        (Example.switching_world 1 0 (3 # 4)) with
  | Ok (_, w') => forall n, py_random w' n = (3 # 4)%Q
  | Raise _ => False
  end.
Proof.
  destruct (Seq2Seq.forward Example.model Example.src Example.trg3 (1 # 2)
                            (Example.switching_world 1 0 (3 # 4)))
    as [[out w']|e] eqn:Hf.
  - intros n. rewrite (forward_consumes_one_draw_per_step _ _ _ _ _ _ _ Hf n).
    cbn. destruct (n + 2) as [|k] eqn:Hk; [lia|reflexivity].
  - run_did_not_raise Hf.
Defined.

(** X3.  Whatever the encoder and decoder objects are and whatever the
    decoder returns, a tensor returned by [forward] has shape
    [trg_len x batch_size x output_dim]: the scores of every step are
    broadcast to the shape of a slice when they are stored, or the
    assignment raises. *)
Theorem forward_result_shape_any_modules
  {E D : Type} {HE : EncoderModule E} {HD : DecoderModule D}
  (self : Seq2Seq.t E D) (src trg : tokens2) (ratio : Q) (w : world) out w' :
  Seq2Seq.forward self src trg ratio w = Ok (out, w') ->
  is_shape3 (Seq2Seq.trg_len trg) (Seq2Seq.batch_size trg)
            (decoder_output_dim (Seq2Seq.decoder self)) out = true.
Proof.
  intros Hf. apply forward_inv in Hf. destruct Hf as (Hlen & st & Hl & ->).
  apply is_shape3_spec.
  apply (loop_until_outputs_shape self src trg ratio w _ st w' Hlen Hl).
Qed.

Lemma forward_result_shape_any_modules_witness :
  match Seq2Seq.forward Example.model1 Example.src Example.trg3_zero 0
                        (Example.constant_world 0) with
  | Ok (out, _) => is_shape3 3 1 1 out = true
  | Raise _ => False
  end.
Proof.
  destruct (Seq2Seq.forward Example.model1 Example.src Example.trg3_zero 0
                            (Example.constant_world 0)) as [[out w']|e] eqn:Hf.
  - exact (forward_result_shape_any_modules _ _ _ _ _ _ _ Hf).
  - run_did_not_raise Hf.
Defined.

(** X4.  In a call of [forward] that returns, position [t] of the result
    holds the scores the decoder returned at step [t] (broadcast to the
    shape of a slice; unchanged when they already have that shape), for
    every step [t] of the loop: later steps do not overwrite them. *)
Theorem forward_stores_scores_of_each_step
  {E D : Type} {HE : EncoderModule E} {HD : DecoderModule D}
  (self : Seq2Seq.t E D) (src trg : tokens2) (ratio : Q) (w : world) out w'
  (t : nat) (tok : tokens1) (scores : tensor2) :
  Seq2Seq.forward self src trg ratio w = Ok (out, w') ->
  decoder_step self src trg ratio w t tok scores ->
  (exists v,
      tensor.broadcast_to2 (Seq2Seq.batch_size trg)
                           (decoder_output_dim (Seq2Seq.decoder self)) scores = Ok v
      /\ nth_error out t = Some v)
  /\ (is_shape2 (Seq2Seq.batch_size trg)
                (decoder_output_dim (Seq2Seq.decoder self)) scores = true ->
      nth_error out t = Some scores).
Proof.
  intros Hf Hstep. apply forward_inv in Hf. destruct Hf as (Hlen & st & Hl & ->).
  assert (Ht : 1 <= t <= Seq2Seq.trg_len trg - 1).
  { destruct Hstep as (? & ? & ? & ? & ? & ? & ? & Ht & _). exact Ht. }
  replace (Seq2Seq.trg_len trg) with (S t + (Seq2Seq.trg_len trg - S t)) in Hl by lia.
  destruct (loop_until_keeps_scores self src trg ratio w t tok scores Hstep _ _ _ Hl)
    as (v & Hv & Hnth).
  split; [exists v; split; assumption|].
  intros Hshape. apply is_shape2_spec in Hshape.
  unfold Seq2Seq.trg_vocab_size in Hv.
  rewrite (broadcast_to2_same _ _ _ Hshape) in Hv. injection Hv as <-. exact Hnth.
Qed.

Lemma forward_stores_scores_of_each_step_witness :
  match Seq2Seq.forward Example.model Example.src Example.trg3 1
                        (Example.constant_world 0) with
  | Ok (out, _) =>
      forall tok scores,
        decoder_step Example.model Example.src Example.trg3 1
                     (Example.constant_world 0) 1 tok scores ->
        (exists v, tensor.broadcast_to2 1 2 scores = Ok v /\ nth_error out 1 = Some v)
        /\ (is_shape2 1 2 scores = true -> nth_error out 1 = Some scores)
  | Raise _ => False
  end.
Proof.
  destruct (Seq2Seq.forward Example.model Example.src Example.trg3 1
                            (Example.constant_world 0)) as [[out w']|e] eqn:Hf.
  - intros tok scores Hstep.
    exact (forward_stores_scores_of_each_step _ _ _ _ _ _ _ _ _ _ Hf Hstep).
  - run_did_not_raise Hf.
Defined.

(** X5.  In a call of [forward] that returns, the tokens the decoder is
    called with at step [t + 1] are decided by the draw of step [t] (the
    draw of index [t - 1]): the ground truth [trg[t]] when the draw is
    below the teacher forcing ratio, and otherwise the [argmax(-1)] of the
    scores the decoder returned at step [t], which holds for every batch
    element the index of the first largest of its scores. *)
Theorem next_input_follows_the_draw
  {E D : Type} {HE : EncoderModule E} {HD : DecoderModule D}
  (self : Seq2Seq.t E D) (src trg : tokens2) (ratio : Q) (w : world) out w' (t : nat) :
  Seq2Seq.forward self src trg ratio w = Ok (out, w') ->
  1 <= t -> S t <= Seq2Seq.trg_len trg - 1 ->
  exists tok scores tok' scores',
    decoder_step self src trg ratio w t tok scores
    /\ decoder_step self src trg ratio w (S t) tok' scores'
    /\ (if Qltb (py_random w (t - 1)) ratio
        then nth_error trg t = Some tok'
        else tensor.argmax scores = Ok tok' /\ is_argmax scores tok').
Proof.
  intros Hf Ht HSt.
  destruct (forward_decoder_step self src trg ratio w out w' (S t) Hf)
    as (st' & w2 & scores' & Hl' & Hstep'); [lia|].
  apply loop_until_succ in Hl'; [|lia].
  destruct Hl' as (enc & st0 & w0 & st & w1 & Hp & Hl & Hb).
  apply body_inv in Hb.
  destruct Hb as (scores & hid & g & outs & top1 & Hdec & _ & Harg & Hin & _).
  rewrite (loop_until_draws self src trg ratio w t st w1 Ht Hl) in Hin. cbn in Hin.
  exists (Seq2Seq.input st), scores, (Seq2Seq.input st'), scores'.
  split; [|split; [exact Hstep'|]].
  - exists enc, st0, w0, st, w1, hid, g. repeat split; (assumption || lia).
  - destruct (Qltb (py_random w (t - 1)) ratio); [exact Hin|].
    rewrite Hin. split; [exact Harg|apply argmax_spec, Harg].
Qed.

(** On the model whose decoder always scores token 1 above token 0: the
    first draw, 3/4, is not below the ratio 1/2, and the decoder is fed
    token 1 at step 2, not [trg[1]], token 0. *)
Lemma next_input_follows_the_draw_witness :
  exists tok scores tok' scores',
    (decoder_step Example.greedy_model Example.src Example.trg3_zero (1 # 2)
                  (Example.switching_world 1 (3 # 4) 0) 1 tok scores
     /\ decoder_step Example.greedy_model Example.src Example.trg3_zero (1 # 2)
                     (Example.switching_world 1 (3 # 4) 0) 2 tok' scores'
     /\ (tensor.argmax scores = Ok tok' /\ is_argmax scores tok'))
    /\ tok' = [1%Z]
    /\ nth_error Example.trg3_zero 1 = Some [0%Z].
Proof.
  destruct (forward_returns Example.greedy_model Example.src Example.trg3_zero (1 # 2)
              1 2 1 eq_refl
              (proj1 (is_tokens_spec 2 1 2 Example.src) eq_refl)
              (proj1 (is_tokens_spec 3 1 2 Example.trg3_zero) eq_refl)
              (Example.switching_world 1 (3 # 4) 0)) as (out & w' & Hf & _).
  destruct (next_input_follows_the_draw
              Example.greedy_model Example.src Example.trg3_zero (1 # 2)
              (Example.switching_world 1 (3 # 4) 0) out w' 1 Hf)
    as (tok & scores & tok' & scores' & Hstep & Hstep' & Hnext).
  - lia.
  - cbn. lia.
  - exists tok, scores, tok', scores'.
    change (tensor.argmax scores = Ok tok' /\ is_argmax scores tok') in Hnext.
    split; [split; [exact Hstep|split; [exact Hstep'|exact Hnext]]|].
    split; [|reflexivity].
    apply (greedy_example_token _ _ _ _ _ Hstep (proj2 Hnext)).
Defined.

(** ** The encoder and the decoder on valid inputs *)

(** X6.  On a source of [srcLen >= 1] steps of in-vocabulary tokens a
    well-formed encoder returns, with outputs of shape
    [srcLen x batch x hid_dim * directions] and final hidden and cell
    states of shape [n_layers * directions x batch x hid_dim] (two
    directions when bidirectional, one otherwise). *)
Theorem Encoder_forward_shapes
  (self : Encoder.t) (src : tokens2) (srcLen batch : nat) (g : generator) :
  Encoder.wf self = true ->
  1 <= srcLen -> 1 <= batch ->
  is_tokens srcLen batch (Encoder.input_dim self) src = true ->
  let dirs := directions (Encoder.bidirectional self) in
  exists outputs hidden cell g',
    Encoder.forward self src g = Ok ((outputs, hidden, cell), g')
    /\ is_shape3 srcLen batch (Encoder.hid_dim self * dirs) outputs = true
    /\ is_shape3 (Encoder.n_layers self * dirs) batch (Encoder.hid_dim self) hidden = true
    /\ is_shape3 (Encoder.n_layers self * dirs) batch (Encoder.hid_dim self) cell = true.
Proof.
  intros Hwf Hlen _ Hsrc dirs. apply is_tokens_spec in Hsrc.
  destruct srcLen as [|n]; [lia|].
  destruct (Encoder_forward_returns self src n batch Hwf Hsrc g)
    as ([[outputs hidden] cell] & g' & Heq & Ho & Hh & Hc).
  exists outputs, hidden, cell, g'.
  split; [exact Heq|]. repeat split; apply is_shape3_spec; assumption.
Qed.

Lemma Encoder_forward_shapes_witness :
  exists outputs hidden cell g',
    Encoder.forward Example.deep_encoder Example.src (fun _ => 0%Q)
    = Ok ((outputs, hidden, cell), g')
    /\ is_shape3 2 1 2 outputs = true
    /\ is_shape3 4 1 1 hidden = true
    /\ is_shape3 4 1 1 cell = true.
Proof.
  apply (Encoder_forward_shapes Example.deep_encoder Example.src 2 1).
  - reflexivity.
  - lia.
  - lia.
  - reflexivity.
Defined.



(** ** Inputs the code rejects *)


(** When [f] can only raise [e], [mapM f] raises [e] as soon as [f] raises
    on one element. *)
Lemma mapM_raises {A B : Type} (f : A -> result B) e l :
  (forall a, is_ok (f a) = true \/ f a = Raise e) ->
  (exists a, In a l /\ f a = Raise e) ->
  Res.mapM f l = Raise e.
Proof.
  intros Hf (a & Hin & Ha). induction l as [|b l IH]; [contradiction|].
  cbn. destruct (Hf b) as [Hok|Hraise]; [|rewrite Hraise; reflexivity].
  destruct (f b) as [y|e'] eqn:Hfb; [|discriminate]. cbn.
  destruct Hin as [->|Hin]; [congruence|]. rewrite (IH Hin). reflexivity.
Qed.

Lemma mapM_Ok_or_raises {A B : Type} (f : A -> result B) e l :
  (forall a, is_ok (f a) = true \/ f a = Raise e) ->
  is_ok (Res.mapM f l) = true \/ Res.mapM f l = Raise e.
Proof.
  intros Hf. induction l as [|b l IH]; [left; reflexivity|].
  cbn. destruct (Hf b) as [Hok|Hraise]; [|rewrite Hraise; right; reflexivity].
  destruct (f b) as [y|e']; [|discriminate]. cbn.
  destruct IH as [Hok'|Hr]; [|rewrite Hr; right; reflexivity].
  destruct (Res.mapM f l); [left; reflexivity|discriminate].
Qed.

Lemma Embedding_forward1_Ok_or_IndexError e k :
  is_ok (Embedding.forward1 e k) = true \/ Embedding.forward1 e k = Raise IndexError.
Proof.
  unfold Embedding.forward1.
  destruct ((0 <=? k)%Z && (k <? Z.of_nat (Embedding.num_embeddings e))%Z);
    [left|right]; reflexivity.
Qed.

Lemma Embedding_forward_unknown_token e idx row k :
  In row idx -> In k row ->
  ~ in_vocab (Embedding.num_embeddings e) k ->
  Embedding.forward e idx = Raise IndexError.
Proof.
  intros Hrow Hk Hout. unfold Embedding.forward.
  apply mapM_raises.
  - intros r. apply mapM_Ok_or_raises, Embedding_forward1_Ok_or_IndexError.
  - exists row. split; [exact Hrow|]. apply mapM_raises.
    + apply Embedding_forward1_Ok_or_IndexError.
    + exists k. split; [exact Hk|]. unfold Embedding.forward1, in_vocab in *.
      destruct (Z.leb_spec 0 k), (Z.ltb_spec k (Z.of_nat (Embedding.num_embeddings e)));
        cbn; try reflexivity. lia.
Qed.

(** X10.  The encoder raises [IndexError], whatever else its input is,
    when the source holds a token outside [0, num_embeddings) of its
    embedding table: nothing is computed before the lookup. *)
Theorem Encoder_forward_rejects_unknown_token
  (self : Encoder.t) (src : tokens2) (g : generator) (row : tokens1) (k : Z) :
  In row src -> In k row ->
  ~ in_vocab (Embedding.num_embeddings (Encoder.embedding self)) k ->
  Encoder.forward self src g = Raise IndexError.
Proof.
  intros Hrow Hk Hout. unfold Encoder.forward, StM.bind, StM.lift.
  rewrite (Embedding_forward_unknown_token _ _ _ _ Hrow Hk Hout). reflexivity.
Qed.

Lemma Encoder_forward_rejects_unknown_token_witness :
  Encoder.forward (Example.encoder 2 1 1 false) [[0%Z]; [2%Z]] (fun _ => 0%Q)
  = Raise IndexError.
Proof.
  apply (Encoder_forward_rejects_unknown_token _ _ _ [2%Z] 2%Z).
  - right. left. reflexivity.
  - left. reflexivity.
  - unfold in_vocab. cbn. lia.
Defined.

(** X11.  The decoder raises [IndexError], before it looks at the hidden
    state or at the encoder outputs, when one of its input tokens lies
    outside [0, num_embeddings) of its embedding table. *)
Theorem Decoder_forward_rejects_unknown_token
  (self : DecoderWithAttention.t) (input : tokens1) (hidden enc : tensor3)
  (g : generator) (k : Z) :
  In k input ->
  ~ in_vocab (Embedding.num_embeddings (DecoderWithAttention.embedding self)) k ->
  DecoderWithAttention.forward self input hidden enc g = Raise IndexError.
Proof.
  intros Hk Hout. unfold DecoderWithAttention.forward, StM.bind, StM.lift.
  rewrite (Embedding_forward_unknown_token _ [input] input k (or_introl eq_refl) Hk Hout).
  reflexivity.
Qed.

Lemma Decoder_forward_rejects_unknown_token_witness :
  DecoderWithAttention.forward (Example.decoder 2 1 1 1 false) [(-1)%Z]
                               [] [] (fun _ => 0%Q)
  = Raise IndexError.
Proof.
  apply (Decoder_forward_rejects_unknown_token _ _ _ _ _ (-1)%Z).
  - left. reflexivity.
  - unfold in_vocab. cbn. lia.
Defined.

Lemma st_bind_raises_after {S A B : Type} (m : St S A) (k : A -> St S B) P e :
  returns m P -> (forall a s, P a -> k a s = Raise e) ->
  forall s, StM.bind m k s = Raise e.
Proof.
  intros Hm Hk s. destruct (Hm s) as (a & s1 & Heq & Ha).
  unfold StM.bind. rewrite Heq. apply Hk, Ha.
Qed.



Section Mismatch.

Variable self : Seq2Seq.t Encoder.t DecoderWithAttention.t.
Variables src trg : tokens2.
Variable ratio : Q.
Variables srcLen trgLen batch : nat.

Let enc := Seq2Seq.encoder self.
Let dec := Seq2Seq.decoder self.
Let att := DecoderWithAttention.attention dec.

Hypothesis Wenc : Encoder.wf enc = true.
Hypothesis Wdec : DecoderWithAttention.wf (Encoder.bidirectional enc) dec = true.
Hypothesis Watt : Attention.wf (Encoder.bidirectional enc) att = true.
Hypothesis Hwidth : Attention.enc_hid_dim att = Encoder.hid_dim enc.
Hypothesis Hmismatch : Attention.dec_hid_dim att <> Encoder.hid_dim enc.
Hypothesis Hsrc :
  sized (sized (in_vocab (Encoder.input_dim enc)) (S batch)) (S srcLen) src.
Hypothesis Htrg :
  sized (sized (in_vocab (DecoderWithAttention.output_dim dec)) (S batch))
        (S (S trgLen)) trg.





End Mismatch.



(** ** Decoding without teacher forcing *)

Section Greedy.

Context {E D : Type} {HE : EncoderModule E} {HD : DecoderModule D}.
Variable self : Seq2Seq.t E D.
Variables src trg trg' : tokens2.
Variable ratio : Q.

Hypothesis Hlen : length trg = length trg'.
Hypothesis Hrow : hd [] trg = hd [] trg'.

Lemma greedy_prologue w :
  Seq2Seq.prologue self src trg w = Seq2Seq.prologue self src trg' w.
Proof.
  unfold Seq2Seq.prologue, Seq2Seq.trg_len, Seq2Seq.batch_size.
  rewrite Hlen, Hrow.
  replace (tensor.getitem trg 0) with (tensor.getitem trg' 0); [reflexivity|].
  unfold tensor.getitem.
  destruct trg as [|r l], trg' as [|r' l']; cbn in *; try discriminate; congruence.
Qed.

Lemma greedy_body enc st t w :
  Qltb (py_random w 0) ratio = false ->
  Seq2Seq.body self trg ratio enc st t w = Seq2Seq.body self trg' ratio enc st t w.
Proof.
  intros Hd.
  unfold Seq2Seq.body, Seq2Seq.batch_size, StM.bind, call, StM.lift, random_random.
  rewrite Hrow.
  destruct (decoder_call (Seq2Seq.decoder self) (Seq2Seq.input st)
                         (Seq2Seq.hidden st) enc (torch_rng w)) as [[[output hid] g]|e];
    [|reflexivity].
  destruct (tensor.setitem (length (hd [] trg')) (Seq2Seq.trg_vocab_size self)
                           (Seq2Seq.outputs st) t output); [|reflexivity].
  cbn [py_random]. rewrite Hd. reflexivity.
Qed.

Lemma greedy_foldM enc l : forall st w,
  (forall n, n < length l -> Qltb (py_random w n) ratio = false) ->
  StM.foldM (Seq2Seq.body self trg ratio enc) l st w
  = StM.foldM (Seq2Seq.body self trg' ratio enc) l st w.
Proof.
  induction l as [|t l IH]; intros st w Hd; [reflexivity|].
  cbn [StM.foldM]. unfold StM.bind.
  rewrite <- (greedy_body enc st t w) by (apply Hd; cbn; lia).
  destruct (Seq2Seq.body self trg ratio enc st t w) as [[st' w']|e] eqn:Hb; [|reflexivity].
  apply IH. intros n Hn. apply body_inv in Hb.
  destruct Hb as (? & ? & ? & ? & ? & _ & _ & _ & _ & _ & _ & ->). cbn [py_random].
  apply Hd. cbn. lia.
Qed.

Lemma greedy_forward w :
  (forall n, n < length trg - 1 -> Qltb (py_random w n) ratio = false) ->
  Seq2Seq.forward self src trg ratio w = Seq2Seq.forward self src trg' ratio w.
Proof.
  intros Hd. unfold Seq2Seq.forward, Seq2Seq.loop_until, Seq2Seq.trg_len, StM.bind.
  rewrite <- (greedy_prologue w), <- Hlen.
  destruct (Seq2Seq.prologue self src trg w) as [[[enc st0] w0]|e] eqn:Hp; [|reflexivity].
  rewrite greedy_foldM; [reflexivity|].
  intros n Hn. rewrite length_seq in Hn. apply prologue_inv in Hp.
  destruct Hp as (? & ? & ? & ? & ? & _ & _ & _ & _ & ->). cbn [py_random].
  apply Hd, Hn.
Qed.

End Greedy.

(** X14.  With [teacher_forcing_ratio] 0 (and draws of [random.random()]
    that are not negative, as they all are) [forward] reads of the target
    only its length and its first row: two targets of the same length and
    first row give the same outcome and leave the same state, whatever
    the modules are. *)
Theorem forward_without_teacher_forcing_reads_first_row
  {E D : Type} {HE : EncoderModule E} {HD : DecoderModule D}
  (self : Seq2Seq.t E D) (src trg trg' : tokens2) (ratio : Q) (w : world) :
  length trg = length trg' ->
  hd [] trg = hd [] trg' ->
  (ratio <= 0)%Q ->
  (forall n, n < Seq2Seq.trg_len trg - 1 -> (0 <= py_random w n)%Q) ->
  Seq2Seq.forward self src trg ratio w = Seq2Seq.forward self src trg' ratio w.
Proof.
  intros Hlen Hrow Hratio Hdraws.
  apply (greedy_forward self src trg trg' ratio Hlen Hrow).
  intros n Hn. unfold Qltb. apply negb_false_iff, Qle_bool_iff.
  apply (Qle_trans _ 0); [exact Hratio|apply Hdraws, Hn].
Qed.

Lemma forward_without_teacher_forcing_reads_first_row_witness :
  Seq2Seq.forward Example.model Example.src Example.trg3 0 (Example.constant_world (1 # 4))
  = Seq2Seq.forward Example.model Example.src Example.trg3_zero 0
                    (Example.constant_world (1 # 4)).
Proof.
  apply forward_without_teacher_forcing_reads_first_row.
  - reflexivity.
  - reflexivity.
  - apply Qle_refl.
  - intros n _. cbn. discriminate.
Defined.

(** ** Evaluation mode *)

Lemma leaves_lift {A : Type} (r : result A) : leaves_generator (StM.lift r).
Proof. exists r. reflexivity. Qed.

Lemma leaves_ret {A : Type} (a : A) : leaves_generator (StM.ret a).
Proof. exists (Ok a). reflexivity. Qed.

Lemma leaves_bind {A B : Type} (m : St generator A) (k : A -> St generator B) :
  leaves_generator m -> (forall a, leaves_generator (k a)) ->
  leaves_generator (StM.bind m k).
Proof.
  intros [r Hr] Hk. destruct r as [a|e].
  - destruct (Hk a) as [r' Hr']. exists r'. intros g.
    unfold StM.bind. rewrite Hr. cbn. apply Hr'.
  - exists (Raise e). intros g. unfold StM.bind. rewrite Hr. reflexivity.
Qed.

Lemma Dropout_eval_leaves d x :
  Dropout.training d = false -> leaves_generator (Dropout.forward d x).
Proof. intros Hd. unfold Dropout.forward. rewrite Hd. cbn. apply leaves_ret. Qed.

Lemma LSTM_stack_eval_leaves m B :
  LSTM.training m = false ->
  forall ls xs, leaves_generator (LSTM.stack m ls xs B).
Proof.
  intros Hm ls. induction ls as [|l ls IH]; intros xs; cbn [LSTM.stack].
  - apply leaves_ret.
  - apply leaves_bind; [apply leaves_lift|]. intros [[o h] c].
    destruct ls as [|l2 ls]; [apply leaves_ret|].
    apply leaves_bind; [apply Dropout_eval_leaves; exact Hm|]. intros o'.
    apply leaves_bind; [apply IH|]. intros [[oN hs] cs]. apply leaves_ret.
Qed.

Lemma Encoder_eval_leaves self src :
  Dropout.training (Encoder.dropout self) = false ->
  LSTM.training (Encoder.rnn self) = false ->
  leaves_generator (Encoder.forward self src).
Proof.
  intros Hd Hm. unfold Encoder.forward.
  apply leaves_bind; [apply leaves_lift|]. intros e.
  apply leaves_bind; [apply Dropout_eval_leaves, Hd|]. intros embedded.
  apply leaves_bind.
  - unfold LSTM.forward. destruct embedded as [|x0 xs]; [apply leaves_lift|].
    apply LSTM_stack_eval_leaves, Hm.
  - intros [[outputs hidden] cell]. apply leaves_ret.
Qed.

Lemma Decoder_eval_leaves self input hidden enc :
  Dropout.training (DecoderWithAttention.dropout self) = false ->
  leaves_generator (DecoderWithAttention.forward self input hidden enc).
Proof.
  intros Hd. unfold DecoderWithAttention.forward.
  apply leaves_bind; [apply leaves_lift|]. intros e.
  apply leaves_bind; [apply Dropout_eval_leaves, Hd|]. intros embedded.
  apply leaves_bind; [apply leaves_lift|]. intros a_t.
  apply leaves_bind; [apply leaves_lift|]. intros weighted.
  apply leaves_bind; [apply leaves_lift|]. intros rnn_in.
  apply leaves_bind; [apply leaves_lift|]. intros [output hidden'].
  apply leaves_bind; [apply leaves_lift|]. intros out_in.
  apply leaves_bind; [apply leaves_lift|]. intros prediction.
  apply leaves_bind; [apply leaves_lift|]. intros prediction'.
  apply leaves_ret.
Qed.

Section EvalMode.

Context {E D : Type} {HE : EncoderModule E} {HD : DecoderModule D}.
Variable self : Seq2Seq.t E D.
Variables src trg : tokens2.
Variable ratio : Q.

Hypothesis Hencoder : leaves_generator (encoder_call (Seq2Seq.encoder self) src).
Hypothesis Hdecoder :
  forall input hidden enc,
    leaves_generator (decoder_call (Seq2Seq.decoder self) input hidden enc).

Lemma eval_prologue k w1 w2 :
  (forall n, n < k -> py_random w1 n = py_random w2 n) ->
  same_result k (Seq2Seq.prologue self src trg w1) (Seq2Seq.prologue self src trg w2).
Proof.
  intros Hp. destruct Hencoder as [r Hr].
  unfold Seq2Seq.prologue, StM.bind, call. rewrite !Hr.
  unfold StM.lift, StM.ret, same_result.
  destruct r as [[[enc hid] cell]|e]; [|reflexivity].
  destruct (tensor.getitem_last hid); [|reflexivity].
  destruct (tensor.getitem trg 0); [|reflexivity].
  split; [reflexivity|exact Hp].
Qed.

Lemma eval_body k enc st t w1 w2 :
  (forall n, n < S k -> py_random w1 n = py_random w2 n) ->
  same_result k (Seq2Seq.body self trg ratio enc st t w1)
              (Seq2Seq.body self trg ratio enc st t w2).
Proof.
  intros Hp. assert (H0 : py_random w1 0 = py_random w2 0) by (apply Hp; lia).
  destruct (Hdecoder (Seq2Seq.input st) (Seq2Seq.hidden st) enc) as [r Hr].
  unfold Seq2Seq.body, StM.bind, call, random_random. rewrite !Hr.
  unfold StM.lift, StM.ret, same_result.
  destruct r as [[output hid]|e]; [|reflexivity].
  destruct (tensor.setitem (Seq2Seq.batch_size trg) (Seq2Seq.trg_vocab_size self)
                           (Seq2Seq.outputs st) t output); [|reflexivity].
  cbn [py_random torch_rng]. rewrite <- H0.
  destruct (tensor.argmax output); [|reflexivity].
  destruct (Qltb (py_random w1 0) ratio).
  - destruct (tensor.getitem trg t); [|reflexivity].
    split; [reflexivity|]. intros n Hn. cbn. apply Hp. lia.
  - split; [reflexivity|]. intros n Hn. cbn. apply Hp. lia.
Qed.

Lemma eval_foldM enc l : forall k st w1 w2,
  (forall n, n < length l + k -> py_random w1 n = py_random w2 n) ->
  same_result k (StM.foldM (Seq2Seq.body self trg ratio enc) l st w1)
              (StM.foldM (Seq2Seq.body self trg ratio enc) l st w2).
Proof.
  induction l as [|t l IH]; intros k st w1 w2 Hp.
  - cbn. split; [reflexivity|exact Hp].
  - cbn [StM.foldM]. unfold StM.bind.
    pose proof (eval_body (length l + k) enc st t w1 w2 Hp) as Hb.
    unfold same_result in Hb.
    destruct (Seq2Seq.body self trg ratio enc st t w1) as [[s1 w1']|e1],
             (Seq2Seq.body self trg ratio enc st t w2) as [[s2 w2']|e2];
      try contradiction.
    + destruct Hb as [-> Hp']. apply IH. exact Hp'.
    + exact Hb.
Qed.

Lemma eval_forward w1 w2 :
  (forall n, n < Seq2Seq.trg_len trg - 1 -> py_random w1 n = py_random w2 n) ->
  returned (Seq2Seq.forward self src trg ratio w1)
  = returned (Seq2Seq.forward self src trg ratio w2).
Proof.
  intros Hp. unfold Seq2Seq.forward, Seq2Seq.loop_until, StM.bind.
  pose proof (eval_prologue _ w1 w2 Hp) as Hq. unfold same_result in Hq.
  destruct (Seq2Seq.prologue self src trg w1) as [[[enc1 st1] w1']|e1],
           (Seq2Seq.prologue self src trg w2) as [[[enc2 st2] w2']|e2];
    try contradiction.
  - destruct Hq as [Heq Hp']. injection Heq as -> ->.
    pose proof (eval_foldM enc2 (seq 1 (Seq2Seq.trg_len trg - 1)) 0 st2 w1' w2') as Hf.
    rewrite length_seq, Nat.add_0_r in Hf. specialize (Hf Hp').
    unfold same_result in Hf.
    destruct (StM.foldM (Seq2Seq.body self trg ratio enc2)
                        (seq 1 (Seq2Seq.trg_len trg - 1)) st2 w1') as [[s1 v1]|e1],
             (StM.foldM (Seq2Seq.body self trg ratio enc2)
                        (seq 1 (Seq2Seq.trg_len trg - 1)) st2 w2') as [[s2 v2]|e2];
      try contradiction.
    + destruct Hf as [-> _]. reflexivity.
    + cbn. f_equal. exact Hf.
  - cbn. f_equal. exact Hq.
Qed.

End EvalMode.

(** X15.  In evaluation mode (the dropout modules of the encoder, of its
    LSTM and of the decoder switched off, as [model.eval()] does) the
    outcome of [forward] does not depend on torch's generator: two calls
    from states with the same first [trg_len - 1] draws of
    [random.random()] return the same tensor or raise the same exception,
    whatever the two generators are. *)
Theorem forward_in_eval_mode_ignores_generator
  (self : Seq2Seq.t Encoder.t DecoderWithAttention.t) (src trg : tokens2)
  (ratio : Q) (w1 w2 : world) :
  eval_mode self = true ->
  (forall n, n < Seq2Seq.trg_len trg - 1 -> py_random w1 n = py_random w2 n) ->
  returned (Seq2Seq.forward self src trg ratio w1)
  = returned (Seq2Seq.forward self src trg ratio w2).
Proof.
  intros Hmode Hp. unfold eval_mode in Hmode.
  rewrite !andb_true_iff, !negb_true_iff in Hmode. destruct Hmode as [[He Hl] Hd].
  apply (eval_forward self src trg ratio); [| |exact Hp].
  - apply (Encoder_eval_leaves _ _ He Hl).
  - intros input hidden enc. apply (Decoder_eval_leaves _ _ _ _ Hd).
Qed.

Lemma forward_in_eval_mode_ignores_generator_witness :
  returned (Seq2Seq.forward Example.model Example.src Example.trg3 (1 # 2)
                            (Example.constant_world (1 # 4)))
  = returned (Seq2Seq.forward Example.model Example.src Example.trg3 (1 # 2)
                              {| py_random := fun _ => 1 # 4;
                                 torch_rng := fun n => Z.of_nat n # 7 |}).
Proof.
  apply forward_in_eval_mode_ignores_generator.
  - reflexivity.
  - intros n _. reflexivity.
Defined.

(** ** A source and a target of different batch sizes *)

Lemma zipM_length_mismatch {A B C : Type} (f : A -> B -> result C) la : forall lb,
  (forall a b, is_ok (f a b) = true) ->
  length la <> length lb -> Res.zipM f la lb = Raise RuntimeError.
Proof.
  induction la as [|a la IH]; intros [|b lb] Hf Hne; cbn in *;
    try reflexivity; try congruence.
  destruct (f a b) eqn:Hfab; [|specialize (Hf a b); rewrite Hfab in Hf; discriminate].
  cbn. rewrite IH; [reflexivity|exact Hf|lia].
Qed.

(** The decoder on [B'] tokens and on states of [B] batch elements: the
    embedded tokens cannot be concatenated with the context vector. *)
Lemma Decoder_forward_batch_mismatch bidirectional self input hidden enc n B B' g :
  DecoderWithAttention.wf bidirectional self = true ->
  Attention.wf bidirectional (DecoderWithAttention.attention self) = true ->
  Attention.enc_hid_dim (DecoderWithAttention.attention self)
  = DecoderWithAttention.enc_hid_dim self ->
  Attention.dec_hid_dim (DecoderWithAttention.attention self)
  = DecoderWithAttention.dec_hid_dim self ->
  sized (in_vocab (DecoderWithAttention.output_dim self)) B' input ->
  shape3 1 B (DecoderWithAttention.dec_hid_dim self) hidden ->
  shape3 (S n) B
         ((1 + (if bidirectional then 1 else 0)) * DecoderWithAttention.enc_hid_dim self)
         enc ->
  B' <> B ->
  DecoderWithAttention.forward self input hidden enc g = Raise RuntimeError.
Proof.
  intros Hwf Hatt Hae Had Hin Hhid Henc Hne.
  apply wf_Decoder_inv in Hwf. cbv zeta in Hwf.
  destruct Hwf as (Wemb & Nemb & _).
  set (E2 := (1 + (if bidirectional then 1 else 0))
             * DecoderWithAttention.enc_hid_dim self) in *.
  unfold DecoderWithAttention.forward.
  eapply st_bind_raises_after.
  { apply returns_lift.
    apply (Embedding_forward_yields _ [input] 1 B' Wemb).
    apply sized_cons; [rewrite Nemb; exact Hin|apply sized_nil]. }
  intros e s0 He. eapply st_bind_raises_after; [apply Dropout_forward_returns, He|].
  intros embedded s1 Hemb.
  eapply st_bind_raises_after.
  { apply returns_lift.
    apply (Attention_forward_yields bidirectional _ hidden enc n B Hatt).
    - rewrite Hae. exact Henc.
    - rewrite Had. exact Hhid. }
  intros a_t s2 Ha.
  eapply st_bind_raises_after; [apply returns_lift, (mul_yields _ _ E2 _ _ Ha Henc)|].
  intros weighted s3 Hw.
  assert (Hwt : shape2 B E2 (torch.sum_dim0 weighted)).
  { eapply entries2_shape, (sum_dim0_entries (fun _ => True)); [tauto|].
    eapply sized_weaken; [exact Hw|]. intros m Hm.
    eapply sized_weaken; [exact Hm|]. intros v Hv. split; [exact Hv|].
    apply Forall_forall. tauto. }
  destruct embedded as [|e0 [|e1 rest]];
    try (destruct Hemb as [Hl _]; cbn in Hl; discriminate).
  apply sized_cons_inv in Hemb. destruct Hemb as (_ & _ & [Hlen0 _] & _).
  destruct Hwt as [HlenB _].
  unfold StM.bind, StM.lift. cbn [tensor.cat_dim2 Res.bind].
  unfold tensor.cat2. cbn [Res.zipM].
  rewrite zipM_length_mismatch; [reflexivity|intros; reflexivity|tlia].
Qed.

Section BatchMismatch.

Variable self : Seq2Seq.t Encoder.t DecoderWithAttention.t.
Variables src trg : tokens2.
Variable ratio : Q.
Variables srcLen trgLen B B' : nat.

Let enc := Seq2Seq.encoder self.
Let dec := Seq2Seq.decoder self.

Hypothesis Hcompatible : Seq2Seq.compatible self = true.
Hypothesis Hsrc : sized (sized (in_vocab (Encoder.input_dim enc)) B) (S srcLen) src.
Hypothesis Htrg :
  sized (sized (in_vocab (DecoderWithAttention.output_dim dec)) B') (S (S trgLen)) trg.
Hypothesis Hbatch : B' <> B.

(** The encoder states and the initial hidden state have the batch size of
    the source, the first input that of the target. *)
Lemma batch_mismatch_prologue_returns :
  returns (Seq2Seq.prologue self src trg)
          (fun r =>
             shape3 (S srcLen) B
                    (Encoder.hid_dim enc * directions (Encoder.bidirectional enc)) (fst r)
             /\ sized (in_vocab (DecoderWithAttention.output_dim dec)) B'
                      (Seq2Seq.input (snd r))
             /\ shape3 1 B (Encoder.hid_dim enc) (Seq2Seq.hidden (snd r))).
Proof.
  pose proof (compatible_inv self Hcompatible) as Hc. cbv zeta in Hc.
  fold enc dec in Hc. destruct Hc as (Wenc & _).
  unfold Seq2Seq.prologue.
  eapply returns_bind.
  { apply returns_call. apply (Encoder_forward_returns enc src srcLen B Wenc Hsrc). }
  intros [[es hid] cell] (Hes & Hhid & _). cbn [fst snd] in *.
  assert (Hn : exists k, Encoder.n_layers enc * directions (Encoder.bidirectional enc)
                         = S k).
  { pose proof Wenc as W. apply wf_Encoder_inv in W.
    destruct W as (_ & _ & _ & Wrnn & _ & _ & Lrnn & _).
    unfold LSTM.wf in Wrnn. rewrite !andb_true_iff, Nat.leb_le in Wrnn.
    destruct Wrnn as [[Hpos _] _]. rewrite Lrnn in Hpos.
    exists (Encoder.n_layers enc * directions (Encoder.bidirectional enc) - 1).
    unfold directions, enc in *.
    destruct (Encoder.bidirectional (Seq2Seq.encoder self)); lia. }
  destruct Hn as [k Hk]. rewrite Hk in Hhid.
  eapply returns_bind; [apply returns_lift, (getitem_last_yields _ _ _ Hhid)|].
  intros last Hlast.
  eapply returns_bind; [apply returns_lift, (getitem_yields _ _ _ 0 Htrg); lia|].
  intros row Hrow. apply returns_ret. cbn [fst snd Seq2Seq.input Seq2Seq.hidden].
  split; [exact Hes|]. split; [exact Hrow|].
  apply sized_cons; [exact Hlast|apply sized_nil].
Qed.

Lemma batch_mismatch_body_raises es st t s :
  shape3 (S srcLen) B
         (Encoder.hid_dim enc * directions (Encoder.bidirectional enc)) es ->
  sized (in_vocab (DecoderWithAttention.output_dim dec)) B' (Seq2Seq.input st) ->
  shape3 1 B (Encoder.hid_dim enc) (Seq2Seq.hidden st) ->
  Seq2Seq.body self trg ratio es st t s = Raise RuntimeError.
Proof.
  intros Hes Hin Hhid.
  pose proof (compatible_inv self Hcompatible) as Hc. cbv zeta in Hc.
  fold enc dec in Hc. destruct Hc as (_ & Wdec & Watt & De & Ae & Dd & Ad & _).
  unfold Seq2Seq.body, StM.bind, call.
  change (decoder_call (Seq2Seq.decoder self)) with (DecoderWithAttention.forward dec).
  rewrite (Decoder_forward_batch_mismatch (Encoder.bidirectional enc) dec
             (Seq2Seq.input st) (Seq2Seq.hidden st) es srcLen B B' (torch_rng s)
             Wdec Watt).
  - reflexivity.
  - congruence.
  - congruence.
  - exact Hin.
  - rewrite Dd. exact Hhid.
  - rewrite De, <- encoder_width. exact Hes.
  - exact Hbatch.
Qed.

Lemma batch_mismatch_forward_raises w :
  returned (Seq2Seq.forward self src trg ratio w) = Raise RuntimeError.
Proof.
  assert (Hlen : Seq2Seq.trg_len trg - 1 = S trgLen).
  { unfold Seq2Seq.trg_len. destruct Htrg as [Hlen _]. tlia. }
  assert (Hloop : forall s,
             Seq2Seq.loop_until self src trg ratio (Seq2Seq.trg_len trg) s
             = Raise RuntimeError).
  { unfold Seq2Seq.loop_until. rewrite Hlen.
    apply (st_bind_raises_after _ _ _ RuntimeError batch_mismatch_prologue_returns).
    intros [es st] s (Hes & Hin & Hhid). cbn [fst snd] in *.
    cbn [seq StM.foldM]. unfold StM.bind.
    rewrite (batch_mismatch_body_raises es st 1 s Hes Hin Hhid). reflexivity. }
  unfold Seq2Seq.forward, StM.bind. rewrite Hloop. reflexivity.
Qed.

End BatchMismatch.

(** X16.  A source and a target of different batch sizes make [forward]
    raise [RuntimeError] at the first decoder step, when the target has
    at least two steps: the encoder runs on the source, and the decoder
    cannot concatenate the embedded target tokens with the context vector
    computed from the encoder states.  (Both batch sizes are taken
    positive, the case the modules are documented for.) *)
Theorem forward_rejects_batch_size_mismatch
  (self : Seq2Seq.t Encoder.t DecoderWithAttention.t) (src trg : tokens2)
  (ratio : Q) (srcLen trgLen B B' : nat) (w : world) :
  Seq2Seq.compatible self = true ->
  1 <= srcLen -> 2 <= trgLen -> 1 <= B -> 1 <= B' -> B' <> B ->
  is_tokens srcLen B (Encoder.input_dim (Seq2Seq.encoder self)) src = true ->
  is_tokens trgLen B' (DecoderWithAttention.output_dim (Seq2Seq.decoder self)) trg
  = true ->
  returned (Seq2Seq.forward self src trg ratio w) = Raise RuntimeError.
Proof.
  intros Hc Hs Ht _ _ Hne Hsrc Htrg.
  apply is_tokens_spec in Hsrc. apply is_tokens_spec in Htrg.
  destruct srcLen as [|n]; [lia|]. destruct trgLen as [|[|k]]; [lia|lia|].
  apply (batch_mismatch_forward_raises self src trg ratio n k B B' Hc Hsrc Htrg Hne).
Qed.

Lemma forward_rejects_batch_size_mismatch_witness :
  returned (Seq2Seq.forward Example.model Example.src [[0; 1]; [1; 0]]%Z (1 # 2)
                            (Example.constant_world (1 # 4)))
  = Raise RuntimeError.
Proof.
  apply (forward_rejects_batch_size_mismatch
           Example.model Example.src [[0; 1]; [1; 0]]%Z (1 # 2) 2 2 1 2).
  - reflexivity.
  - lia.
  - lia.
  - lia.
  - lia.
  - lia.
  - reflexivity.
  - reflexivity.
Defined.
